(** * obsidian-preview: the preview-build pipeline, embedded and verified

    A shallow embedding of [obsidian-preview.go]: the directory scanner
    ([scanDirectory]), the document post-processor ([fixImagePaths],
    [processMermaidBlocks]), the build loop of [generateHTML], the artifact
    write, the locking discipline of [rescanDirectory] and the directory
    walk and the event filter of [watchFiles].

    Go strings are byte sequences; they are modelled as [list ascii]
    ([gostring]).  Go's [int] results with the sentinel [-1]
    ([strings.Index]) are modelled as [option nat]. *)

From Stdlib Require Import Ascii String.
From stdpp Require Import base option list sorting gmap strings.

Local Open Scope nat_scope.
Local Open Scope list_scope.

(** ** Go strings *)

Module GoStr.

Abbreviation gostring := (list ascii).

(** A Rocq string literal read as a Go string, byte for byte. *)
Definition str (s : string) : gostring := list_ascii_of_string s.

(** The double quote byte. *)
Definition dq : ascii := ascii_of_nat 34.

(** A Go string literal in which the apostrophe stands for the double
    quote (none of the literals of the program contains an apostrophe). *)
Definition lit (s : string) : gostring :=
  map (fun c => if Ascii.eqb c "'"%char then dq else c) (str s).

(** [strings.HasPrefix(s, prefix)] *)
Fixpoint HasPrefix (s prefix : gostring) {struct s} : bool :=
  match prefix with
  | [] => true
  | p :: prefix' =>
      match s with
      | [] => false
      | c :: s' => if Ascii.eqb c p then HasPrefix s' prefix' else false
      end
  end.

(** [strings.HasSuffix(s, suffix)] *)
Definition HasSuffix (s suffix : gostring) : bool :=
  (length suffix <=? length s) &&
  bool_decide (drop (length s - length suffix) s = suffix).

(** [strings.Index(s, substr)]: the byte offset of the first occurrence,
    [None] for Go's [-1]. *)
Fixpoint Index (s substr : gostring) : option nat :=
  if HasPrefix s substr then Some 0
  else match s with
       | [] => None
       | _ :: s' => S <$> Index s' substr
       end.

(** [strings.Contains(s, substr)] *)
Definition Contains (s substr : gostring) : bool :=
  match Index s substr with Some _ => true | None => false end.

(** The slice expression [s[lo:hi]]; [s[lo:]] is [drop lo s] and [s[:hi]]
    is [take hi s].  Every slice of the program is taken within bounds
    (see [Index_bound]), where Go does not panic. *)
Definition slice (s : gostring) (lo hi : nat) : gostring :=
  take (hi - lo) (drop lo s).

(** [strings.Replace(s, old, new, 1)]: the first occurrence only. *)
Definition Replace1 (s old new : gostring) : gostring :=
  match Index s old with
  | None => s
  | Some j => take j s ++ new ++ drop (j + length old) s
  end.

(** [strings.ReplaceAll(s, old, new)] for a non-empty [old], as the
    library computes it: successive non-overlapping occurrences, left to
    right.  Each round consumes at least one byte, so [length s] rounds
    are enough. *)
Fixpoint replaceAllFrom (fuel : nat) (s old new : gostring) : gostring :=
  match fuel with
  | 0 => s
  | S fuel' =>
      match Index s old with
      | None => s
      | Some j =>
          take j s ++ new ++ replaceAllFrom fuel' (drop (j + length old) s) old new
      end
  end.

Definition ReplaceAll (s old new : gostring) : gostring :=
  match old with
  | [] => s
  | _ => replaceAllFrom (length s) s old new
  end.

(** [strings.ToLower] on the ASCII letters.  On bytes above 127 the
    library applies Unicode case mapping, which never produces the bytes
    of [".md"] from anything but [.], [m]/[M], [d]/[D]; the only use of
    [ToLower] in the program is the [".md"] suffix test. *)
Definition lowerByte (c : ascii) : ascii :=
  let n := nat_of_ascii c in
  if (65 <=? n) && (n <=? 90) then ascii_of_nat (n + 32) else c.

Definition ToLower (s : gostring) : gostring := map lowerByte s.

(** [strings.TrimSpace]: leading and trailing white space removed, as
    defined by Unicode.  On the UTF-8 bytes of a Go string the white-space
    code points are the six ASCII ones and the encodings of U+0085,
    U+00A0, U+1680, U+2000..U+200A, U+2028, U+2029, U+202F, U+205F and
    U+3000. *)
Definition asciiSpace (c : ascii) : bool :=
  let n := nat_of_ascii c in
  (n =? 9) || (n =? 10) || (n =? 11) || (n =? 12) || (n =? 13) || (n =? 32).

Definition bytes (l : list nat) : gostring := map ascii_of_nat l.

Definition unicodeSpaces : list gostring :=
  Eval cbv in
  map bytes
    ([ [194; 133]; [194; 160]; [225; 154; 128] ] ++
     map (fun k => [226; 128; 128 + k]) (seq 0 11) ++
     [ [226; 128; 168]; [226; 128; 169]; [226; 128; 175];
       [226; 129; 159]; [227; 128; 128] ]).

(** The width of the white-space code point that [s] starts with, if any. *)
Definition leadingSpace (s : gostring) : option nat :=
  match s with
  | [] => None
  | c :: _ =>
      if asciiSpace c then Some 1
      else length <$> List.find (HasPrefix s) unicodeSpaces
  end.

Fixpoint trimLeftFrom (fuel : nat) (s : gostring) : gostring :=
  match fuel with
  | 0 => s
  | S fuel' =>
      match leadingSpace s with
      | Some w => trimLeftFrom fuel' (drop w s)
      | None => s
      end
  end.

Definition TrimLeftSpace (s : gostring) : gostring := trimLeftFrom (length s) s.

(** The width of the white-space code point that [s] ends with, if any. *)
Definition trailingSpace (s : gostring) : option nat :=
  match last s with
  | None => None
  | Some c =>
      if asciiSpace c then Some 1
      else length <$> List.find (HasSuffix s) unicodeSpaces
  end.

Fixpoint trimRightFrom (fuel : nat) (s : gostring) : gostring :=
  match fuel with
  | 0 => s
  | S fuel' =>
      match trailingSpace s with
      | Some w => trimRightFrom fuel' (take (length s - w) s)
      | None => s
      end
  end.

Definition TrimRightSpace (s : gostring) : gostring := trimRightFrom (length s) s.

Definition TrimSpace (s : gostring) : gostring := TrimRightSpace (TrimLeftSpace s).

(** [strings.Join(elems, sep)] *)
Fixpoint JoinStrings (elems : list gostring) (sep : gostring) : gostring :=
  match elems with
  | [] => []
  | [e] => e
  | e :: rest => e ++ sep ++ JoinStrings rest sep
  end.

(** [strings.Split(s, "/")]: the fields between the separator bytes. *)
Fixpoint splitOn (sep : ascii) (s : gostring) : list gostring :=
  match s with
  | [] => [[]]
  | c :: s' =>
      if Ascii.eqb c sep then [] :: splitOn sep s'
      else match splitOn sep s' with
           | [] => [[c]]
           | e :: rest => (c :: e) :: rest
           end
  end.

(** Byte-wise lexicographic order, Go's [<] on strings. *)
Fixpoint ltString (a b : gostring) : bool :=
  match a, b with
  | _, [] => false
  | [], _ :: _ => true
  | x :: a', y :: b' =>
      if nat_of_ascii x <? nat_of_ascii y then true
      else if nat_of_ascii y <? nat_of_ascii x then false
      else ltString a' b'
  end.

End GoStr.
Export GoStr.

(** ** Go's [path/filepath] on a Unix host (separator [/], no volume) *)

Module FilePath.

Definition sep : ascii := "/"%char.
Definition dot : gostring := str ".".
Definition dotdot : gostring := str "..".

(** The elements kept by [Clean], most recent first, and the number of
    leading [..] elements that could not be resolved.  [rooted] paths drop
    a [..] that would climb above the root. *)
Fixpoint cleanElems (rooted : bool) (elems : list gostring)
    (ups : nat) (kept : list gostring) : nat * list gostring :=
  match elems with
  | [] => (ups, kept)
  | e :: rest =>
      if bool_decide (e = []) || bool_decide (e = dot) then
        cleanElems rooted rest ups kept
      else if bool_decide (e = dotdot) then
        match kept with
        | _ :: kept' => cleanElems rooted rest ups kept'
        | [] => cleanElems rooted rest (if rooted then ups else S ups) kept
        end
      else cleanElems rooted rest ups (e :: kept)
  end.

(** [filepath.Clean(path)]: the shortest equivalent path, by the rules of
    the library: multiple separators become one, [.] elements vanish, an
    inner [..] removes the element before it, [..] at the root vanishes,
    and the empty result is [.]. *)
Definition Clean (path : gostring) : gostring :=
  match path with
  | [] => dot
  | c :: _ =>
      let rooted := Ascii.eqb c sep in
      let '(ups, kept) := cleanElems rooted (splitOn sep path) 0 [] in
      let body := JoinStrings (repeat dotdot ups ++ rev kept) [sep] in
      if rooted then sep :: body
      else match body with [] => dot | _ => body end
  end.

(** [filepath.Join(a, b)]: the elements from the first non-empty one on,
    joined by the separator and cleaned; the empty string when both are
    empty. *)
Definition Join (a b : gostring) : gostring :=
  match a, b with
  | [], [] => []
  | [], _ => Clean b
  | _, _ => Clean (a ++ [sep] ++ b)
  end.

(** The offset just after the last separator of [path] ([i+1] of the
    library's backward scan). *)
Fixpoint afterLastSep (path : gostring) : nat :=
  match path with
  | [] => 0
  | c :: path' =>
      let k := afterLastSep path' in
      if (k =? 0) && negb (Ascii.eqb c sep) then 0 else S k
  end.

(** [filepath.Dir(path)] *)
Definition Dir (path : gostring) : gostring :=
  Clean (take (afterLastSep path) path).

(** The loop of [filepath.Base] that strips trailing separators. *)
Fixpoint stripTrailingSeps (fuel : nat) (path : gostring) : gostring :=
  match fuel with
  | 0 => path
  | S fuel' =>
      match last path with
      | Some c =>
          if Ascii.eqb c sep
          then stripTrailingSeps fuel' (take (length path - 1) path)
          else path
      | None => path
      end
  end.

(** [filepath.Base(path)] *)
Definition Base (path : gostring) : gostring :=
  match path with
  | [] => dot
  | _ =>
      let path := stripTrailingSeps (length path) path in
      let path := drop (afterLastSep path) path in
      match path with
      | [] => [sep]
      | _ => path
      end
  end.

End FilePath.

(** ** The document post-processor *)

(** *** Image paths: [fixImagePaths] *)

Definition imgOpen : gostring := Eval cbv in lit "<img src='".
Definition quoteStr : gostring := Eval cbv in lit "'".
Definition tagClose : gostring := Eval cbv in str ">".
Definition clickMarker : gostring := Eval cbv in lit "onclick='openImageModal".
Definition relativeSuffix : gostring :=
  Eval cbv in lit "' class='preview-image' onclick='openImageModal(this.src)'".
Definition absoluteSuffix : gostring :=
  Eval cbv in lit " class='preview-image' onclick='openImageModal(this.src)'>".
Definition maxIterations : nat := 1000.

(** The path written into a relative image reference. *)
Definition resolveImagePath (mdDir imgPath : gostring) : gostring :=
  let fullPath :=
    if HasPrefix imgPath (str "../") || HasPrefix imgPath (str "./") then
      FilePath.Join mdDir imgPath
    else if negb (bool_decide (mdDir = [])) then
      FilePath.Join mdDir imgPath
    else imgPath in
  let fullPath := FilePath.Clean fullPath in
  let fullPath := ReplaceAll fullPath (str "\") (str "/") in
  if HasPrefix fullPath (str "/") then drop 1 fullPath else fullPath.

Definition isRelative (imgPath : gostring) : bool :=
  negb (HasPrefix imgPath (str "/")) && negb (HasPrefix imgPath (str "http://"))
  && negb (HasPrefix imgPath (str "https://")) && negb (HasPrefix imgPath (str "data:")).

(** The rewritten tag of one image element that does not carry the click
    marker yet. *)
Definition rewriteTag (mdDir originalImgTag imgPath : gostring) : gostring :=
  if isRelative imgPath then
    Replace1 originalImgTag
      (str "src=" ++ quoteStr ++ imgPath ++ quoteStr)
      (str "src=" ++ quoteStr ++ resolveImagePath mdDir imgPath ++ relativeSuffix)
  else
    let beforeClose := take (length originalImgTag - 1) originalImgTag in
    beforeClose ++ absoluteSuffix.

(** The loop of [fixImagePaths].  [fuel] bounds the number of times the
    loop guard is evaluated: [None] means that more evaluations are
    needed.  The state is the one of the source: the rest of the input
    [content], the builder [result] and the counter [processed]. *)
Fixpoint fixImageLoop (fuel : nat) (mdDir content result : gostring)
    (processed : nat) : option (gostring * nat) :=
  match fuel with
  | 0 => None
  | S fuel' =>
      if negb (processed <? maxIterations) then Some (result, processed)
      else
        match Index content imgOpen with
        | None => Some (result ++ content, processed)
        | Some start0 =>
            let result := result ++ take start0 content in
            let start := start0 + length imgOpen in
            match Index (drop start content) quoteStr with
            | None =>
                Some (result ++ drop (start - length imgOpen) content, processed)
            | Some end_ =>
                let imgPath := slice content start (start + end_) in
                match Index (drop (start + end_) content) tagClose with
                | None =>
                    Some (result ++ drop (start - length imgOpen) content, processed)
                | Some tagEnd =>
                    let originalImgTag :=
                      slice content (start - length imgOpen) (start + end_ + tagEnd + 1) in
                    if Contains originalImgTag clickMarker then
                      fixImageLoop fuel' mdDir
                        (drop (start + end_ + tagEnd + 1) content)
                        (result ++ originalImgTag) processed
                    else
                      fixImageLoop fuel' mdDir
                        (drop (start + end_ + tagEnd + 1) content)
                        (result ++ rewriteTag mdDir originalImgTag imgPath)
                        (S processed)
                end
            end
        end
  end.

Definition mdDirOf (mdFilePath : gostring) : gostring :=
  let mdDir := FilePath.Dir mdFilePath in
  if bool_decide (mdDir = FilePath.dot) then [] else mdDir.

(** What [fixImagePaths] returns from the final state of its loop. *)
Definition fixImageResult (htmlContent : gostring) (final : gostring * nat) : gostring :=
  if negb (final.2 <? maxIterations) then htmlContent else final.1.

(** [fixImagePaths(htmlContent, mdFilePath)], if the loop ends within
    [fuel] guard evaluations. *)
Definition fixImagePathsWithin (fuel : nat) (htmlContent mdFilePath : gostring)
    : option gostring :=
  fixImageResult htmlContent <$>
    fixImageLoop fuel (mdDirOf mdFilePath) htmlContent [] 0.

(** [fixImagePaths(htmlContent, mdFilePath)].  The loop always ends within
    [length htmlContent + 1] guard evaluations ([fixImageLoop_total]), so
    the default is never taken. *)
Definition fixImagePaths (htmlContent mdFilePath : gostring) : gostring :=
  default htmlContent
    (fixImagePathsWithin (S (length htmlContent)) htmlContent mdFilePath).

(** *** Diagram blocks: [processMermaidBlocks] *)

Definition mermaidLong : gostring := Eval cbv in lit "<pre><code class='language-mermaid'>".
Definition mermaidShort : gostring := Eval cbv in lit "<pre><code class='mermaid'>".
Definition mermaidClass : gostring := Eval cbv in lit "class='mermaid'".
Definition endTag : gostring := Eval cbv in str "</code></pre>".
Definition divOpen : gostring := Eval cbv in lit "<div class='mermaid'>".
Definition divClose : gostring := Eval cbv in str "</div>".

(** The three [ReplaceAll] calls, in the order of the source. *)
Definition decodeEntities (codeContent : gostring) : gostring :=
  let codeContent := ReplaceAll codeContent (str "&lt;") (str "<") in
  let codeContent := ReplaceAll codeContent (str "&gt;") (str ">") in
  ReplaceAll codeContent (str "&amp;") (str "&").

(** One pass through the body of the loop of [processMermaidBlocks]:
    [None] when the loop breaks, the new [content] otherwise. *)
Definition mermaidStep (content : gostring) : option gostring :=
  let found :=
    match Index content mermaidLong with
    | Some start => Some start
    | None => Index content mermaidShort
    end in
  match found with
  | None => None
  | Some start =>
      match Index (drop start content) endTag with
      | None => None
      | Some end0 =>
          let end_ := end0 + (start + length endTag) in
          let codeStart := start + length mermaidLong in
          let codeStart :=
            if Contains (slice content start codeStart) mermaidClass
            then start + length mermaidShort else codeStart in
          let codeContent := slice content codeStart (end_ - length endTag) in
          let codeContent := TrimSpace (decodeEntities codeContent) in
          let mermaidDiv := divOpen ++ codeContent ++ divClose in
          Some (take start content ++ mermaidDiv ++ drop end_ content)
      end
  end.

(** The loop [for { ... }] of [processMermaidBlocks], which has no bound
    of its own; [None] means that [fuel] passes were not enough. *)
Fixpoint mermaidLoop (fuel : nat) (content : gostring) : option gostring :=
  match fuel with
  | 0 => None
  | S fuel' =>
      match mermaidStep content with
      | None => Some content
      | Some content' => mermaidLoop fuel' content'
      end
  end.

(** [processMermaidBlocks(htmlContent)].  Every pass shortens [content]
    ([mermaidStep_shrinks]), so [length htmlContent + 1] passes are enough
    and the default is never taken ([mermaidLoop_total]). *)
Definition processMermaidBlocks (htmlContent : gostring) : gostring :=
  default htmlContent (mermaidLoop (S (length htmlContent)) htmlContent).

(** ** The tree scanner *)

(** What [os.ReadDir] can see below a directory: files, and directories
    with their own listing, [None] when reading the directory fails. *)
Inductive entry : Type :=
  | File (name : gostring)
  | Directory (name : gostring) (listing : option (list entry)).

Definition entryName (e : entry) : gostring :=
  match e with File name => name | Directory name _ => name end.

Definition entryIsDir (e : entry) : bool :=
  match e with File _ => false | Directory _ _ => true end.

(** [type FileNode struct] *)
Inductive FileNode : Type :=
  mkFileNode (Name Path : gostring) (IsDir : bool) (Children : list FileNode).

Definition Name (n : FileNode) : gostring := let 'mkFileNode x _ _ _ := n in x.
Definition Path (n : FileNode) : gostring := let 'mkFileNode _ x _ _ := n in x.
Definition IsDir (n : FileNode) : bool := let 'mkFileNode _ _ x _ := n in x.
Definition Children (n : FileNode) : list FileNode := let 'mkFileNode _ _ _ x := n in x.

(** The comparison function given to [sort.Slice]. *)
Definition entryLess (a b : entry) : bool :=
  if negb (Bool.eqb (entryIsDir a) (entryIsDir b)) then entryIsDir a
  else ltString (entryName a) (entryName b).

(** [a] may stand before [b] in a slice sorted by [entryLess]. *)
Definition entryLe (a b : entry) : Prop := entryLess b a = false.

#[global] Instance entryLe_dec a b : Decision (entryLe a b).
Proof. unfold entryLe. apply _. Defined.

(** [sort.Slice(entries, less)]: the entries in an order sorted by
    [less].  The library promises no more than that; the names of one
    directory are distinct, which leaves one such order. *)
Definition sortEntries (entries : list entry) : list entry :=
  merge_sort entryLe entries.

Definition isHidden (name : gostring) : bool :=
  HasPrefix name (str ".") && negb (bool_decide (name = str ".")).

Definition isSkippedDir (name : gostring) : bool :=
  bool_decide (name = str "node_modules") || bool_decide (name = str ".git").

Definition isMarkdown (name : gostring) : bool :=
  HasSuffix (ToLower name) (str ".md").

Definition childPath (dir name : gostring) : gostring :=
  if bool_decide (dir = str ".") then name else FilePath.Join dir name.

(** The state that [scanDirectory] updates: the children of the node it
    was given and the global [mdFiles]. *)
Record scanState : Type := mkScanState {
  parentChildren : list FileNode;
  mdFiles : list gostring
}.

(** The outcome of one call: the [error] result and the state left. *)
Inductive scanResult : Type :=
  | ScanErr (st : scanState)
  | ScanOk (st : scanState).

(** One pass through the body of the loop [for _, entry := range entries]
    of [scanDirectory], for the entry [e]; [scan] is the recursive call.
    [None] when the depth bound of [scan] is exceeded. *)
Definition visitEntry
    (scan : gostring -> option (list entry) -> scanState -> option scanResult)
    (dir : gostring) (st : scanState) (e : entry) : option scanState :=
  let name := entryName e in
  if isHidden name then Some st
  else if entryIsDir e && isSkippedDir name then Some st
  else
    let path := childPath dir name in
    match e with
    | Directory _ sub =>
        r ← scan path sub (mkScanState [] (mdFiles st));
        match r with
        | ScanErr _ => Some st
        | ScanOk st' =>
            let node := mkFileNode name path true (parentChildren st') in
            if 0 <? length (parentChildren st') then
              Some (mkScanState (parentChildren st ++ [node]) (mdFiles st'))
            else Some (mkScanState (parentChildren st) (mdFiles st'))
        end
    | File _ =>
        if isMarkdown name then
          let node := mkFileNode name path false [] in
          Some (mkScanState (parentChildren st ++ [node]) (mdFiles st ++ [path]))
        else Some st
    end.

(** The loop over the sorted entries. *)
Definition visitAll
    (scan : gostring -> option (list entry) -> scanState -> option scanResult)
    (dir : gostring) (entries : list entry) (st : scanState) : option scanState :=
  foldl (fun acc e => st ← acc; visitEntry scan dir st e) (Some st) entries.

(** [scanDirectory(dir, parent)].  [listing] is what [os.ReadDir(dir)]
    returns; [depth] bounds the nesting of the directories still to be
    entered, [None] when it is exceeded. *)
Fixpoint scanDirectory (depth : nat) (dir : gostring)
    (listing : option (list entry)) (st : scanState) : option scanResult :=
  match depth with
  | 0 => None
  | S depth' =>
      match listing with
      | None => Some (ScanErr st)
      | Some entries =>
          ScanOk <$> visitAll (scanDirectory depth') dir (sortEntries entries) st
      end
  end.

(** The nesting depth of a listing. *)
Fixpoint entryDepth (e : entry) : nat :=
  match e with
  | File _ => 0
  | Directory _ None => 1
  | Directory _ (Some l) => S (foldr (fun e d => max (entryDepth e) d) 0 l)
  end.

Definition listingDepth (listing : option (list entry)) : nat :=
  entryDepth (Directory [] listing).

(** The shared variables [fileTree] and [mdFiles] after [rescanDirectory],
    with the [error] it returns. *)
Definition rescanDirectory (root : option (list entry)) : option scanResult :=
  scanDirectory (listingDepth root) (str ".") root (mkScanState [] []).

(** Is there an eligible markdown file at or below [e]?  A hidden name, a
    skipped directory and a directory that cannot be read hide everything
    below them. *)
Fixpoint hasMarkdown (e : entry) : bool :=
  match e with
  | File name => negb (isHidden name) && isMarkdown name
  | Directory name listing =>
      negb (isHidden name) && negb (isSkippedDir name) &&
      match listing with
      | None => false
      | Some l => existsb hasMarkdown l
      end
  end.

(** The same for the listing of a directory that is being scanned. *)
Definition listingHasMarkdown (listing : option (list entry)) : bool :=
  match listing with
  | None => false
  | Some l => existsb hasMarkdown l
  end.

(** ** The file watcher: [watchFiles] *)

(** [sort.Strings] on the names that [filepath.Walk] reads. *)
Definition nameLe (a b : entry) : Prop := ltString (entryName b) (entryName a) = false.

#[global] Instance nameLe_dec a b : Decision (nameLe a b).
Proof. unfold nameLe. apply _. Defined.

Definition sortNames (entries : list entry) : list entry := merge_sort nameLe entries.

(** What the walk function of [watchFiles] returns. *)
Inductive walkResult : Type :=
  | WalkNil          (* return nil *)
  | WalkSkipDir      (* return filepath.SkipDir *)
  | WalkAdd.         (* return watcher.Add(path), taken to succeed *)

(** The function that [watchFiles] gives to [filepath.Walk]; [failed] is
    [err != nil]. *)
Definition watchVisit (path : gostring) (isDir failed : bool) : walkResult :=
  if failed then WalkNil
  else if isDir then
    if isHidden (FilePath.Base path) then WalkSkipDir
    else if isSkippedDir (FilePath.Base path) then WalkSkipDir
    else WalkAdd
  else WalkNil.

(** [filepath.Walk] with that function, at the entry [e] found under
    [path]: the paths given to [watcher.Add], in order.  [Lstat] is taken
    to succeed; a directory that cannot be read is reported to the
    function with the error.  [depth] bounds the nesting. *)
Fixpoint walk (depth : nat) (path : gostring) (e : entry) : list gostring :=
  match depth with
  | 0 => []
  | S depth' =>
      match e with
      | File _ =>
          match watchVisit path false false with
          | WalkAdd => [path]
          | _ => []
          end
      | Directory _ listing =>
          match watchVisit path true (match listing with None => true | _ => false end) with
          | WalkAdd =>
              path ::
              match listing with
              | Some entries =>
                  flat_map (fun c => walk depth' (FilePath.Join path (entryName c)) c)
                    (sortNames entries)
              | None => []
              end
          | _ => []
          end
      end
  end.

(** The directories that [watchFiles] puts under watch at start. *)
Definition watchedDirs (root : option (list entry)) : list gostring :=
  walk (listingDepth root) (str ".") (Directory (str ".") root).

(** The test of [watchFiles] on an event of the watcher: does it start
    the debounce timer?  [created], [removed] and [renamed] are the tests
    [event.Op&fsnotify.Create != 0] and the like. *)
Definition triggersRebuild (name : gostring) (created removed renamed : bool) : bool :=
  HasSuffix (ToLower name) (str ".md") || created || removed || renamed.

(** ** The build: [renderMarkdownFile] and [generateHTML] *)

(** A Go result [(value, error)]; an error is shown by its message. *)
Inductive result (A : Type) : Type :=
  | Ok (value : A)
  | Err (msg : gostring).
Arguments Ok {A} value.
Arguments Err {A} msg.

(** The artifact on disk: its bytes, [None] while the file does not exist. *)
Definition disk : Type := option gostring.

(** Where writing the artifact fails, if it does: in [os.Create], or in
    the [k]-th [Write] that [Execute] issues (counted from 0). *)
Inductive fault : Type :=
  | NoFault
  | CreateFails
  | WriteFails (k : nat).

(** [os.Create(name)] on success: the file exists and is empty, whatever
    it held before. *)
Definition osCreate (d : disk) : disk := Some [].

(** [file.Write(chunk)] on success: the bytes are appended. *)
Definition fileWrite (chunk : gostring) (d : disk) : disk :=
  Some (default [] d ++ chunk).

(** [t.Execute(file, data)]: the template writes its pieces one after the
    other.  The result lists the states of the file after each [Write] and
    tells whether an error was returned. *)
Fixpoint executeWrites (failAt : option nat) (chunks : list gostring) (d : disk)
    : list disk * bool :=
  match chunks with
  | [] => ([], false)
  | chunk :: rest =>
      match failAt with
      | Some 0 => ([], true)
      | _ =>
          let d' := fileWrite chunk d in
          let '(states, err) := executeWrites (pred <$> failAt) rest d' in
          (d' :: states, err)
      end
  end.

(** The end of [generateHTML]: [os.Create] followed by [t.Execute].  The
    states are the successive contents of the destination, as a reader of
    the file can find them; the boolean is [err != nil]. *)
Definition writeArtifact (f : fault) (chunks : list gostring) (old : disk)
    : list disk * bool :=
  match f with
  | CreateFails => ([], true)
  | NoFault =>
      let '(states, err) := executeWrites None chunks (osCreate old) in
      (osCreate old :: states, err)
  | WriteFails k =>
      let '(states, err) := executeWrites (Some k) chunks (osCreate old) in
      (osCreate old :: states, err)
  end.

(** The destination after the call. *)
Definition finalDisk (old : disk) (states : list disk) : disk :=
  default old (last states).

Section Build.

(** The collaborators of the build: [os.ReadFile], the markdown renderer
    ([goldmark]'s [Convert]), [json.Marshal] on the tree and on the map,
    and the three fixed pieces of the HTML shell around the two data
    segments. *)
Variable readFile : gostring -> result gostring.
Variable convert : gostring -> result gostring.
Variable marshalTree : list FileNode -> gostring.
Variable marshalFiles : gmap gostring gostring -> gostring.
Variables shellHead shellMiddle shellTail : gostring.

(** [renderMarkdownFile(filePath)] *)
Definition renderMarkdownFile (filePath : gostring) : result gostring :=
  match readFile filePath with
  | Err e => Err e
  | Ok content =>
      match convert content with
      | Err e => Err e
      | Ok buf =>
          let htmlContent := fixImagePaths buf filePath in
          let htmlContent := processMermaidBlocks htmlContent in
          Ok htmlContent
      end
  end.

(** [fmt.Sprintf] of the error fragment. *)
Definition errorFragment (e : gostring) : gostring :=
  str "<p>渲染错误: " ++ e ++ str "</p>".

(** What the loop of [generateHTML] stores for one file. *)
Definition documentFor (filePath : gostring) : gostring :=
  match renderMarkdownFile filePath with
  | Err e => errorFragment e
  | Ok htmlContent => htmlContent
  end.

(** The loop [for i, filePath := range mdFiles] on the map [filesData]. *)
Definition renderAll (files : list gostring)
    (filesData : gmap gostring gostring) : gmap gostring gostring :=
  foldl (fun filesData filePath => <[filePath := documentFor filePath]> filesData)
    filesData files.

(** The pieces that [Execute] writes for the shell and its two data
    segments. *)
Definition artifactChunks (tree : list FileNode)
    (filesData : gmap gostring gostring) : list gostring :=
  [shellHead; marshalTree tree; shellMiddle; marshalFiles filesData; shellTail].

(** [generateHTML(outputFile)] on the shared [fileTree.Children] and
    [mdFiles], with the destination as it is and as it becomes. *)
Definition generateHTML (f : fault) (tree : list FileNode)
    (files : list gostring) (old : disk) : list disk * bool :=
  writeArtifact f (artifactChunks tree (renderAll files ∅)) old.

End Build.

(** ** The shared state and its lock *)

(** The steps of one build that touch the lock [mu], the shared
    [fileTree] and [mdFiles], or render a document. *)
Inductive event : Type :=
  | EvLock                          (* mu.Lock() *)
  | EvUnlock                        (* the deferred mu.Unlock() *)
  | EvRLock                         (* mu.RLock() *)
  | EvRUnlock                       (* mu.RUnlock() *)
  | EvResetFiles                    (* mdFiles = []string{} *)
  | EvNewTree                       (* fileTree = &FileNode{...} *)
  | EvAppendFile (path : gostring)  (* mdFiles = append(mdFiles, path) *)
  | EvAppendChild (node : FileNode) (* fileTree.Children = append(..., node) *)
  | EvReadTree                      (* json.Marshal(fileTree.Children) *)
  | EvReadFiles                     (* range mdFiles *)
  | EvRender (path : gostring).     (* filesData[filePath] = ... *)

(** The paths of the file nodes of a tree, in the order of the scan. *)
Fixpoint nodeFiles (n : FileNode) : list gostring :=
  match n with
  | mkFileNode _ path isDir children =>
      if isDir then flat_map nodeFiles children else [path]
  end.

(** The updates of the shared variables that the scan of the root makes,
    in their order: a file path is appended to [mdFiles] when its file is
    met, a node is appended to the root when its own scan is complete. *)
Definition scanEvents (children : list FileNode) : list event :=
  flat_map (fun c => map EvAppendFile (nodeFiles c) ++ [EvAppendChild c]) children.

(** [rescanDirectory()] *)
Definition rescanEvents (children : list FileNode) : list event :=
  [EvLock; EvResetFiles; EvNewTree] ++ scanEvents children ++ [EvUnlock].

(** [generateHTML()] up to the write of the artifact. *)
Definition generateEvents (files : list gostring) : list event :=
  [EvRLock; EvReadTree; EvRUnlock; EvReadFiles] ++ map EvRender files.

(** One build, as [main] and the debounce timer run it. *)
Definition buildEvents (root : option (list entry)) : list event :=
  match rescanDirectory root with
  | Some (ScanOk st) =>
      rescanEvents (parentChildren st) ++ generateEvents (mdFiles st)
  | _ => [EvLock; EvResetFiles; EvNewTree; EvUnlock]
  end.

(** The shared memory: the lock, the tree ([None] for the nil pointer) and
    the file list. *)
Record shared : Type := mkShared {
  writer : bool;
  readers : nat;
  fileTree : option (list FileNode);
  sharedFiles : list gostring
}.

(** May a goroutine take this step now?  [Lock] waits for the lock to be
    free, [RLock] for the writer to be gone. *)
Definition enabled (e : event) (m : shared) : bool :=
  match e with
  | EvLock => negb (writer m) && (readers m =? 0)
  | EvRLock => negb (writer m)
  | _ => true
  end.

(** The effect of a step on the shared memory. *)
Definition apply (e : event) (m : shared) : shared :=
  match e with
  | EvLock => mkShared true (readers m) (fileTree m) (sharedFiles m)
  | EvUnlock => mkShared false (readers m) (fileTree m) (sharedFiles m)
  | EvRLock => mkShared (writer m) (S (readers m)) (fileTree m) (sharedFiles m)
  | EvRUnlock => mkShared (writer m) (pred (readers m)) (fileTree m) (sharedFiles m)
  | EvResetFiles => mkShared (writer m) (readers m) (fileTree m) []
  | EvNewTree => mkShared (writer m) (readers m) (Some []) (sharedFiles m)
  | EvAppendFile p => mkShared (writer m) (readers m) (fileTree m) (sharedFiles m ++ [p])
  | EvAppendChild c =>
      mkShared (writer m) (readers m) ((fun cs => cs ++ [c]) <$> fileTree m) (sharedFiles m)
  | EvReadTree | EvReadFiles | EvRender _ => m
  end.

(** A builder goroutine running a build next to a reader goroutine that
    inspects the shared state.  Each keeps the steps it still has to
    take; the reader records what it read. *)
Record system : Type := mkSystem {
  memory : shared;
  builder : list event;
  reader : list event;
  sawTree : list (option (list FileNode));
  sawFiles : list (list gostring)
}.

Inductive step : system -> system -> Prop :=
  | step_builder m e es r ts fs :
      enabled e m = true ->
      step (mkSystem m (e :: es) r ts fs) (mkSystem (apply e m) es r ts fs)
  | step_reader m b e es ts fs :
      enabled e m = true ->
      step (mkSystem m b (e :: es) ts fs)
           (mkSystem (apply e m) b es
              (match e with EvReadTree => fileTree m :: ts | _ => ts end)
              (match e with EvReadFiles => sharedFiles m :: fs | _ => fs end)).

(** Is the write lock held at each step of a sequence of steps of one
    goroutine?  The lock is held from [Lock] up to [Unlock]. *)
Fixpoint underWriteLock (held : bool) (es : list event) : list (event * bool) :=
  match es with
  | [] => []
  | EvLock :: es' => (EvLock, true) :: underWriteLock true es'
  | EvUnlock :: es' => (EvUnlock, true) :: underWriteLock false es'
  | e :: es' => (e, held) :: underWriteLock held es'
  end.

(** The steps that replace a shared reference, and the lock steps. *)
Definition isReplacement (e : event) : bool :=
  match e with
  | EvLock | EvUnlock | EvResetFiles | EvNewTree => true
  | _ => false
  end.

Definition isRender (e : event) : bool :=
  match e with EvRender _ => true | _ => false end.

Definition isMutation (e : event) : bool :=
  match e with
  | EvResetFiles | EvNewTree | EvAppendFile _ | EvAppendChild _ => true
  | _ => false
  end.

(** * The vocabulary of the claims *)

(** ** Tactics *)

Ltac by_compute := apply (bool_decide_unpack _); vm_compute; exact I.

(** ** Occurrences of a search string *)

(** No occurrence of [p] begins in [a] and ends in [b]. *)
Definition noStraddle (a b p : gostring) : Prop :=
  forall j, 0 < j < length p -> j <= length a ->
    ~ (drop (length a - j) a = take j p /\ HasPrefix b (drop j p) = true).

(** No occurrence of [p] can run into a text that begins with [pref]. *)
Definition noStraddleInto (pref p : gostring) : bool :=
  forallb (fun j => negb (HasPrefix pref (take (length pref) (drop j p))))
    (seq 1 (length p - 1)).

(** No occurrence of [p] can begin in a text that ends with [suf]. *)
Definition noStraddleFrom (suf p : gostring) : bool :=
  forallb (fun j => negb (HasPrefix (rev suf) (take (length suf) (rev (take j p)))))
    (seq 1 (length p - 1)).

(** ** Image tags *)

Definition gtByte : ascii := ">"%char.

Definition newline : gostring := [ascii_of_nat 10].

(** A complete tag: the opening, the path [P] up to its closing quote,
    the attributes [X] up to the first [>]. *)
Definition imgTag (P X : gostring) : gostring :=
  imgOpen ++ P ++ dq :: X ++ [gtByte].

(** The tag that starts at offset [n] has no closing quote, or no [>]
    after it. *)
Definition malformedAt (content : gostring) (n : nat) : Prop :=
  Index (drop (n + length imgOpen) content) quoteStr = None \/
  exists e, Index (drop (n + length imgOpen) content) quoteStr = Some e /\
            Index (drop (n + length imgOpen + e) content) tagClose = None.

(** The class and the click handler that a rewritten tag gains. *)
Definition clickAttrs : gostring :=
  Eval cbv in lit " class='preview-image' onclick='openImageModal(this.src)'".

(** The bytes that [filepath.Clean] may add to a path. *)
Definition pathByte (c : ascii) : Prop := c = "/"%char \/ c = "."%char.

(** The file of the examples of the specification. *)
Definition notesSubPage : gostring := str "notes/sub/page.md".

(** An image tag that already carries the click marker. *)
Definition finalizedTag : gostring := imgTag [] (lit " onclick='openImageModal").

Fixpoint finalizedTags (n : nat) : gostring :=
  match n with
  | 0 => []
  | S n' => finalizedTag ++ finalizedTags n'
  end.

(** ** Diagram blocks and rendered documents *)

(** The decoded and trimmed text of a block, inside its wrapper. *)
Definition mermaidDivOf (body : gostring) : gostring :=
  divOpen ++ TrimSpace (decodeEntities body) ++ divClose.

(** Which opening marker the loop takes up: the first long one if there
    is one, the first short one otherwise. *)
Definition foundAt (content marker : gostring) (start : nat) : Prop :=
  (marker = mermaidLong /\ Index content mermaidLong = Some start) \/
  (marker = mermaidShort /\ Index content mermaidLong = None /\
   Index content mermaidShort = Some start).

(** A document as the renderer produces it: stretches of HTML, each
    followed by one fenced diagram block, and a last stretch.  [itemDone]
    tells whether the block has been turned into its wrapper already. *)
Record item : Type := mkItem {
  itemText : gostring;
  itemDone : bool;
  itemLong : bool;
  itemBody : gostring
}.

Definition markerOf (long : bool) : gostring :=
  if long then mermaidLong else mermaidShort.

Definition renderFence (it : item) : gostring :=
  if itemDone it then mermaidDivOf (itemBody it)
  else markerOf (itemLong it) ++ itemBody it ++ endTag.

Fixpoint renderDoc (d : list item) (tail : gostring) : gostring :=
  match d with
  | [] => tail
  | it :: d' => itemText it ++ renderFence it ++ renderDoc d' tail
  end.

(** HTML around the blocks: it contains no opening marker. *)
Definition cleanText (t : gostring) : Prop :=
  Contains t mermaidLong = false /\ Contains t mermaidShort = false.

(** The text of a code block as the renderer writes it: [<] and the
    double quote are escaped, so these bytes do not occur. *)
Definition escaped (body : gostring) : Prop :=
  ("<"%char ∉ body) /\ (dq ∉ body).

Definition wfItem (it : item) : Prop :=
  cleanText (itemText it) /\ escaped (itemBody it).

Definition isRaw (long : bool) (it : item) : bool :=
  negb (itemDone it) && Bool.eqb (itemLong it) long.

Definition setDone (it : item) : item :=
  mkItem (itemText it) true (itemLong it) (itemBody it).

(** A block of the source, before the processor ran. *)
Definition fenced (text : gostring) (long : bool) (body : gostring) : item :=
  mkItem text false long body.

(** The blocks of a document that are still to be replaced. *)
Definition rawCount (d : list item) : nat :=
  length (filter (fun it => itemDone it = false) d).

(** ** Scanned trees *)

(** Every node of a tree, the root first. *)
Fixpoint allNodes (n : FileNode) : list FileNode :=
  match n with
  | mkFileNode _ _ _ children => n :: flat_map allNodes children
  end.

(** [a] may stand before [b] among the children of a node: no file
    before a directory, and within directories and within files the names
    do not descend in the byte-wise order. *)
Definition nodeLe (a b : FileNode) : Prop :=
  (IsDir a = false -> IsDir b = false) /\
  (IsDir a = IsDir b -> ltString (Name b) (Name a) = false).

(** The children of a node are in order. *)
Definition ordered (children : list FileNode) : Prop :=
  StronglySorted nodeLe children.

(** What holds at every node [m] of a scanned tree. *)
Definition goodNode (n : FileNode) : Prop :=
  forall m, m ∈ allNodes n ->
    (IsDir m = true -> Children m <> []) /\
    (IsDir m = false -> Children m = []) /\
    ordered (Children m).

(** What a call of the scan guarantees: on an error nothing has changed;
    otherwise children [cs] have been appended, the markdown files below
    them have been appended to [mdFiles] in the same order, the children
    are in order, all of their nodes are good, and nothing is appended
    exactly when there is no eligible markdown file below the directory. *)
Definition scanSpec (listing : option (list entry)) (st : scanState)
    (r : scanResult) : Prop :=
  match r with
  | ScanErr st' => st' = st /\ listing = None
  | ScanOk st' =>
      exists cs,
        st' = mkScanState (parentChildren st ++ cs)
                (mdFiles st ++ flat_map nodeFiles cs) /\
        ordered cs /\ Forall goodNode cs /\
        (cs = [] <-> listingHasMarkdown listing = false)
  end.

(** A small vault: notes at the root, a directory with notes, hidden and
    skipped directories, a directory that cannot be read, and directories
    without any markdown file. *)
Definition sampleVault : list entry :=
  [ File (str "b.md"); File (str "a.MD"); File (str "x.txt");
    Directory (str "zeta")
      (Some [File (str "n.md"); Directory (str "empty") (Some [File (str "q.png")])]);
    Directory (str ".git") (Some [File (str "c.md")]);
    Directory (str "alpha") (Some [Directory (str "deep") (Some [File (str "p.md")])]);
    Directory (str "locked") None;
    Directory (str "nomd") (Some [File (str "q.png")]) ].

Definition sampleScan : scanState :=
  Eval vm_compute in
  match rescanDirectory (Some sampleVault) with
  | Some (ScanOk st) => st
  | _ => mkScanState [] []
  end.

(** ** The artifact on disk *)

(** The reading of C1: every state of the destination that a reader can
    find is the previous artifact or the complete new one, and after a
    failed write the previous artifact is still there. *)
Definition artifactWriteIsAtomic : Prop :=
  forall (f : fault) (chunks : list gostring) (old : disk),
    (forall d, d ∈ (writeArtifact f chunks old).1 ->
               d = old \/ d = Some (concat chunks)) /\
    ((writeArtifact f chunks old).2 = true ->
     finalDisk old (writeArtifact f chunks old).1 = old).

(** ** The lock and the goroutines *)

Definition isLockEvent (e : event) : bool :=
  match e with EvLock | EvUnlock => true | _ => false end.

(** The effect of a step on the shared tree. *)
Definition treeStep (t : option (list FileNode)) (e : event)
    : option (list FileNode) :=
  match e with
  | EvNewTree => Some []
  | EvAppendChild c => (fun cs => cs ++ [c]) <$> t
  | _ => t
  end.

Definition treeAfter (es : list event) (t : option (list FileNode))
    : option (list FileNode) :=
  foldl treeStep t es.

(** A goroutine that inspects the tree under the read lock. *)
Definition readerProgram : list event := [EvRLock; EvReadTree; EvRUnlock].

(** A build starts next to a reader; [t0] and [f0] are the tree and the
    file list published before. *)
Definition initialSystem (t0 : option (list FileNode)) (f0 : list gostring)
    (root : option (list entry)) : system :=
  mkSystem (mkShared false 0 t0 f0) (buildEvents root) readerProgram [] [].

(** The children of the root after the scan. *)
Definition finalChildren (root : option (list entry)) : list FileNode :=
  match rescanDirectory root with
  | Some (ScanOk st) => parentChildren st
  | _ => []
  end.

(** The reading of C2 on the steps of a build: whenever the write lock is
    held, the step is the replacement of a shared reference (or the lock
    operation itself). *)
Definition writeLockOnlyForReplacement (root : option (list entry)) : Prop :=
  forall e, (e, true) ∈ underWriteLock false (buildEvents root) ->
            isReplacement e = true.

(** The steps of [generateHTML] that follow the unlock, if the build gets
    that far. *)
Definition generateSteps (withGenerate : bool) (tail : list event) : list event :=
  if withGenerate then [EvRLock; EvReadTree; EvRUnlock] ++ tail else [].

(** The shared tree after the first [k] steps of the build. *)
Definition treeAt (root : option (list entry)) (t0 : option (list FileNode))
    (k : nat) : option (list FileNode) :=
  treeAfter (take k (buildEvents root)) t0.

(** Does the build, after [k] steps, hold the read lock?  Does the
    reader, after [r] steps? *)
Definition builderReads (unlockAt k : nat) : nat :=
  if bool_decide (unlockAt + 2 <= k <= unlockAt + 3) then 1 else 0.

Definition readerReads (r : nat) : nat :=
  if bool_decide (1 <= r <= 2) then 1 else 0.

(** The state of the system, by the number of steps [k] that the build
    and [r] that the reader have taken; [crit] are the steps of the build
    between [Lock] and [Unlock]. *)
Definition inv (root : option (list entry)) (t0 : option (list FileNode))
    (crit : list event) (s : system) : Prop :=
  exists k r,
    builder s = drop k (buildEvents root) /\
    reader s = drop r readerProgram /\
    writer (memory s) = bool_decide (0 < k <= S (length crit)) /\
    readers (memory s) = builderReads (S (length crit)) k + readerReads r /\
    fileTree (memory s) = treeAt root t0 k /\
    ~ (0 < k <= S (length crit) /\ 0 < r < 3) /\
    (forall t, t ∈ sawTree s -> t = t0 \/ t = Some (finalChildren root)).

Ltac lock_crush :=
  simpl in *; unfold builderReads, readerReads in *;
  repeat case_bool_decide; try done; try lia; try congruence;
  try match goal with
      | Hw : writer ?m = _, Hen : negb (writer ?m) = true |- _ =>
          rewrite Hw in Hen; done
      end.

(** ** Documents of image tags *)

(** A document of complete image tags: each [(pre, P, X)] is a stretch of
    text followed by the tag [imgTag P X]; [tail] follows the last tag. *)
Fixpoint tagsDoc (ts : list (gostring * gostring * gostring)) (tail : gostring)
    : gostring :=
  match ts with
  | [] => tail
  | (pre, P, X) :: ts' => pre ++ imgTag P X ++ tagsDoc ts' tail
  end.

(** The tag is the first one after [pre], is complete and does not carry
    the click marker. *)
Definition plainTag (t : gostring * gostring * gostring) : Prop :=
  let '(pre, P, X) := t in
  Index (pre ++ imgOpen) imgOpen = Some (length pre) /\
  (dq ∉ P) /\ (gtByte ∉ X) /\
  Contains (imgTag P X) clickMarker = false.

(** The text and the tag as the processor leaves them. *)
Definition finalTag (mdDir : gostring) (t : gostring * gostring * gostring)
    : gostring :=
  let '(pre, P, X) := t in
  pre ++ (if isRelative P then imgTag (resolveImagePath mdDir P) (clickAttrs ++ X)
          else imgTag P (X ++ clickAttrs)).

(** ** The escaping that [decodeEntities] undoes *)

(** The escaping of the three characters that [decodeEntities] decodes,
    as an HTML renderer writes the text of a code block. *)
Definition escapeByte (c : ascii) : gostring :=
  if Ascii.eqb c "&" then str "&amp;"
  else if Ascii.eqb c "<" then str "&lt;"
  else if Ascii.eqb c ">" then str "&gt;"
  else [c].

Definition escapeHTML (s : gostring) : gostring := flat_map escapeByte s.

(** The text after the first and after the second [ReplaceAll] of
    [decodeEntities]: [<] is decoded, then [>] as well. *)
Definition escapeByte1 (c : ascii) : gostring :=
  if Ascii.eqb c "<" then [c] else escapeByte c.

Definition escapeByte2 (c : ascii) : gostring :=
  if Ascii.eqb c "&" then str "&amp;" else [c].

(** ** Names, paths and the nodes of a tree *)

(** A name that a directory entry can have: not empty, without a
    separator, and neither [.] nor [..]. *)
Definition validName (name : gostring) : Prop :=
  name <> [] /\ (FilePath.sep ∉ name) /\ name <> FilePath.dot /\ name <> FilePath.dotdot.

(** The path of the directory reached from the root by the names [trail]. *)
Definition dirOf (trail : list gostring) : gostring :=
  match trail with
  | [] => str "."
  | _ => JoinStrings trail [FilePath.sep]
  end.

(** The nodes of a tree, each with the names on the way from the root. *)
Fixpoint nodesUnder (trail : list gostring) (n : FileNode)
    : list (list gostring * FileNode) :=
  match n with
  | mkFileNode name _ _ children =>
      (trail ++ [name], n) :: flat_map (nodesUnder (trail ++ [name])) children
  end.

(** What holds of a node [n] reached by the names [tr], [W] being the
    directories under watch. *)
Definition nodeOk (W : list gostring) (p : list gostring * FileNode) : Prop :=
  let '(tr, n) := p in
  (isHidden (Name n) = false /\
   (IsDir n = true -> isSkippedDir (Name n) = false) /\
   (IsDir n = false -> isMarkdown (Name n) = true) /\
   last tr = Some (Name n)) /\
  (Forall validName tr ->
   Path n = dirOf tr /\ (IsDir n = true -> Path n ∈ W)).

(** The directories that the walk adds below [dir]. *)
Definition walkBelow (depth : nat) (dir : gostring) (entries : list entry)
    : list gostring :=
  flat_map (fun c => walk depth (FilePath.Join dir (entryName c)) c) (sortNames entries).

(** What the scan of a directory reached by [trail] guarantees for the
    nodes it appends. *)
Definition nodesOk (trail : list gostring) (W : list gostring)
    (cs : list FileNode) : Prop :=
  Forall (fun p => trail `prefix_of` p.1 /\ nodeOk W p) (flat_map (nodesUnder trail) cs).

(** The statement proved by induction on the depth. *)
Definition scanNodesAt (depth : nat) : Prop :=
  forall trail dir listing st st',
    scanDirectory depth dir listing st = Some (ScanOk st') ->
    (Forall validName trail -> dir = dirOf trail) ->
    exists entries cs,
      listing = Some entries /\
      parentChildren st' = parentChildren st ++ cs /\
      nodesOk trail (walkBelow (pred depth) dir entries) cs.

(** ** The lock at each step of a run *)

(** The state of the lock by the number of steps [k] that the build and
    [r] that the reader have taken, none of them past the end of its
    program. *)
Definition lockInv (root : option (list entry)) (crit : list event)
    (s : system) : Prop :=
  exists k r,
    k <= length (buildEvents root) /\ r <= length readerProgram /\
    builder s = drop k (buildEvents root) /\
    reader s = drop r readerProgram /\
    writer (memory s) = bool_decide (0 < k <= S (length crit)) /\
    readers (memory s) = builderReads (S (length crit)) k + readerReads r /\
    ~ (0 < k <= S (length crit) /\ 0 < r < 3).

(** Both goroutines are done and the lock is free. *)
Definition finished (s : system) : Prop :=
  builder s = [] /\ reader s = [] /\
  writer (memory s) = false /\ readers (memory s) = 0.

(** ** Listings with names as a file system gives them *)

#[global] Instance validName_dec name : Decision (validName name).
Proof. unfold validName. apply _. Defined.

(** Names as a file system gives them, at every level below an entry:
    each is a valid name, and no two entries of one directory have the
    same name. *)
Fixpoint wellNamed (e : entry) : bool :=
  bool_decide (validName (entryName e)) &&
  match e with
  | Directory _ (Some l) =>
      bool_decide (NoDup (map entryName l)) && forallb wellNamed l
  | _ => true
  end.

Definition wellNamedListing (entries : list entry) : bool :=
  bool_decide (NoDup (map entryName entries)) && forallb wellNamed entries.

(** The files that the scan of an entry [e] of the directory reached by
    [trail] adds: no path twice, and every path below [e]. *)
Definition distinctBelow (trail : list gostring) (e : entry)
    (new : list gostring) : Prop :=
  NoDup new /\
  forall p, p ∈ new ->
    exists rest, p = dirOf (trail ++ entryName e :: rest) /\ Forall validName rest.

Definition scanDistinctAt (depth : nat) : Prop :=
  forall trail dir entries st st',
    scanDirectory depth dir (Some entries) st = Some (ScanOk st') ->
    Forall validName trail -> dir = dirOf trail ->
    wellNamedListing entries = true ->
    exists new,
      mdFiles st' = mdFiles st ++ new /\ NoDup new /\
      forall p, p ∈ new -> exists e, e ∈ entries /\ (distinctBelow trail e [p]).

(** ** The files that a scan has to find *)

(** The markdown files that a scan of the directory [dir] with the
    entries [entries] has to find, by their paths: the files of the
    directory that are not hidden and end in [.md], and the files to find
    in its directories that are not hidden, not skipped and can be read. *)
Inductive reaches : gostring -> list entry -> gostring -> Prop :=
  | reaches_file dir entries name :
      File name ∈ entries ->
      isHidden name = false -> isMarkdown name = true ->
      reaches dir entries (childPath dir name)
  | reaches_dir dir entries name sub p :
      Directory name (Some sub) ∈ entries ->
      isHidden name = false -> isSkippedDir name = false ->
      reaches (childPath dir name) sub p ->
      reaches dir entries p.


(** What a scan adds to [mdFiles]. *)
Definition scanFilesAt (depth : nat) : Prop :=
  forall dir listing st st',
    scanDirectory depth dir listing st = Some (ScanOk st') ->
    exists entries new,
      listing = Some entries /\
      mdFiles st' = mdFiles st ++ new /\
      forall p, p ∈ new <-> reaches dir entries p.

(** * Facts about the Go string functions *)

Section GoStrFacts.

Implicit Types s p a x y pre post : gostring.
Implicit Types c : ascii.

Lemma HasPrefix_nil s : HasPrefix s [] = true.
Proof. by destruct s. Qed.

Lemma HasPrefix_cons c s d p :
  HasPrefix (c :: s) (d :: p) = Ascii.eqb c d && HasPrefix s p.
Proof. simpl. by destruct (Ascii.eqb c d). Qed.

Lemma HasPrefix_true s p : HasPrefix s p = true <-> exists r, s = p ++ r.
Proof.
  revert s. induction p as [|d p IH]; intros s.
  - rewrite HasPrefix_nil. split; [eauto|done].
  - destruct s as [|c s]; simpl.
    + split; [done|]. by intros [r ?].
    + destruct (Ascii.eqb_spec c d) as [->|Hne].
      * rewrite IH. split; intros [r Hr]; exists r; [by rewrite Hr|by simplify_eq].
      * split; [done|]. intros [r Hr]. simplify_eq.
Qed.

Lemma HasPrefix_app p r : HasPrefix (p ++ r) p = true.
Proof. apply HasPrefix_true. eauto. Qed.

Lemma HasPrefix_length s p : HasPrefix s p = true -> length p <= length s.
Proof.
  intros [r ->]%HasPrefix_true. rewrite length_app. lia.
Qed.

Lemma HasPrefix_app_l a x p :
  length p <= length a -> HasPrefix (a ++ x) p = HasPrefix a p.
Proof.
  revert a. induction p as [|d p IH]; intros a Hlen.
  - by rewrite !HasPrefix_nil.
  - destruct a as [|c a]; simpl in *; [lia|].
    destruct (Ascii.eqb c d); [|done]. apply IH. lia.
Qed.

Lemma HasPrefix_take s p : HasPrefix s p = true -> take (length p) s = p.
Proof.
  intros [r ->]%HasPrefix_true. by rewrite take_app_length.
Qed.

Lemma Index_nil_r s : Index s [] = Some 0.
Proof. destruct s; simpl; by rewrite ?HasPrefix_nil. Qed.

Lemma Index_cons c s p :
  Index (c :: s) p = if HasPrefix (c :: s) p then Some 0 else S <$> Index s p.
Proof. done. Qed.

Lemma Index_nil_l p : Index [] p = if HasPrefix [] p then Some 0 else None.
Proof. done. Qed.

Lemma Index_bound s p n : Index s p = Some n -> n + length p <= length s.
Proof.
  revert n. induction s as [|c s IH]; intros n.
  - rewrite Index_nil_l. destruct (HasPrefix [] p) eqn:Hp; [|done].
    intros [= <-]. apply HasPrefix_length in Hp. simpl in *. lia.
  - rewrite Index_cons. destruct (HasPrefix (c :: s) p) eqn:Hp.
    + intros [= <-]. apply HasPrefix_length in Hp. simpl in *. lia.
    + destruct (Index s p) as [m|] eqn:Hm; [|done].
      intros [= <-]. specialize (IH m eq_refl). simpl. lia.
Qed.

Lemma Index_occurs s p n : Index s p = Some n -> HasPrefix (drop n s) p = true.
Proof.
  revert n. induction s as [|c s IH]; intros n.
  - rewrite Index_nil_l. destruct (HasPrefix [] p) eqn:Hp; [|done]. by intros [= <-].
  - rewrite Index_cons. destruct (HasPrefix (c :: s) p) eqn:Hp.
    + by intros [= <-].
    + destruct (Index s p) as [m|] eqn:Hm; [|done].
      intros [= <-]. by apply IH.
Qed.

Lemma Index_first s p n k :
  Index s p = Some n -> k < n -> HasPrefix (drop k s) p = false.
Proof.
  revert n k. induction s as [|c s IH]; intros n k.
  - rewrite Index_nil_l. destruct (HasPrefix [] p) eqn:Hp; [|done]. intros [= <-]. lia.
  - rewrite Index_cons. destruct (HasPrefix (c :: s) p) eqn:Hp.
    + intros [= <-]. lia.
    + destruct (Index s p) as [m|] eqn:Hm; [|done].
      intros [= <-] Hk. destruct k as [|k]; [done|].
      simpl. apply (IH m); [done|lia].
Qed.

Lemma Index_intro s p n :
  HasPrefix (drop n s) p = true ->
  (forall k, k < n -> HasPrefix (drop k s) p = false) ->
  n <= length s ->
  Index s p = Some n.
Proof.
  revert n. induction s as [|c s IH]; intros n Hocc Hfirst Hn.
  - simpl in Hn. assert (n = 0) as -> by lia. rewrite drop_nil in Hocc.
    by rewrite Index_nil_l, Hocc.
  - rewrite Index_cons. destruct n as [|n].
    + change (drop 0 (c :: s)) with (c :: s) in Hocc. by rewrite Hocc.
    + assert (HasPrefix (c :: s) p = false) as -> by (apply (Hfirst 0); lia).
      change (drop (S n) (c :: s)) with (drop n s) in Hocc. simpl in Hn.
      rewrite (IH n); [done|done| |lia].
      intros k Hk. apply (Hfirst (S k)). lia.
Qed.

Lemma Index_None s p k :
  Index s p = None -> HasPrefix (drop k s) p = false.
Proof.
  revert k. induction s as [|c s IH]; intros k.
  - rewrite drop_nil, Index_nil_l. by destruct (HasPrefix [] p).
  - rewrite Index_cons. destruct (HasPrefix (c :: s) p) eqn:Hp; [done|].
    destruct (Index s p) eqn:Hm; [done|]. intros _.
    destruct k; [done|]. simpl. by apply IH.
Qed.

Lemma Index_None_intro s p :
  (forall k, k <= length s -> HasPrefix (drop k s) p = false) -> Index s p = None.
Proof.
  intros H. destruct (Index s p) as [n|] eqn:Hn; [|done].
  pose proof (Index_occurs _ _ _ Hn) as Hocc.
  pose proof (Index_bound _ _ _ Hn). rewrite H in Hocc; [done|lia].
Qed.

Lemma Index_split s p n :
  Index s p = Some n -> s = take n s ++ p ++ drop (n + length p) s.
Proof.
  intros Hn. pose proof (Index_occurs _ _ _ Hn) as [r Hr]%HasPrefix_true.
  rewrite <- (take_drop n s) at 1. f_equal.
  rewrite <- drop_drop, Hr. by rewrite drop_app_length.
Qed.

(** The first occurrence is decided by the bytes up to its end. *)
Lemma Index_app_indep a x y p n :
  Index (a ++ x) p = Some n -> n + length p <= length a ->
  Index (a ++ y) p = Some n.
Proof.
  revert n. induction a as [|c a IH]; intros n Hn Hlen.
  - simpl in Hlen. assert (n = 0) as -> by lia.
    destruct p; simpl in *; [|lia]. apply Index_nil_r.
  - simpl in Hlen. change ((c :: a) ++ y) with (c :: (a ++ y)).
    change ((c :: a) ++ x) with (c :: (a ++ x)) in Hn.
    rewrite Index_cons in Hn. rewrite Index_cons.
    change (c :: (a ++ y)) with ((c :: a) ++ y).
    change (c :: (a ++ x)) with ((c :: a) ++ x) in Hn.
    rewrite HasPrefix_app_l; [|simpl; lia].
    rewrite HasPrefix_app_l in Hn; [|simpl; lia].
    destruct (HasPrefix (c :: a) p); [done|].
    destruct (Index (a ++ x) p) as [m|] eqn:Hm; [|done].
    injection Hn as <-. rewrite (IH m); [done|done|lia].
Qed.

Lemma Index_app_here pre p x :
  (forall k, k < length pre -> HasPrefix (drop k (pre ++ p)) p = false) ->
  Index (pre ++ p ++ x) p = Some (length pre).
Proof.
  intros Hfirst. rewrite app_assoc.
  apply (Index_app_indep _ [] x); [|rewrite length_app; lia].
  rewrite app_nil_r. apply Index_intro.
  - rewrite drop_app_length. apply HasPrefix_true. exists []. by rewrite app_nil_r.
  - done.
  - rewrite length_app. lia.
Qed.

(** Searching one byte. *)
Lemma Index_byte_Some c s n :
  Index s [c] = Some n ->
  exists pre post, s = pre ++ c :: post /\ (c ∉ pre) /\ length pre = n.
Proof.
  revert n. induction s as [|d s IH]; intros n; [done|].
  rewrite Index_cons, HasPrefix_cons, HasPrefix_nil, andb_true_r.
  destruct (Ascii.eqb_spec d c) as [->|Hne].
  - intros [= <-]. exists [], s. split_and!; [done|apply not_elem_of_nil|done].
  - destruct (Index s [c]) as [m|] eqn:Hm; [|done]. intros [= <-].
    destruct (IH m eq_refl) as (pre & post & -> & Hpre & <-).
    exists (d :: pre), post. split_and!; [done| |done].
    apply not_elem_of_cons. eauto.
Qed.

Lemma Index_byte_None c s : Index s [c] = None -> c ∉ s.
Proof.
  induction s as [|d s IH]; [intros _; apply not_elem_of_nil|].
  rewrite Index_cons, HasPrefix_cons, HasPrefix_nil, andb_true_r.
  destruct (Ascii.eqb_spec d c) as [->|Hne]; [done|].
  destruct (Index s [c]) eqn:Hm; [done|]. intros _.
  apply not_elem_of_cons. eauto.
Qed.

Lemma Index_byte_here c pre post :
  c ∉ pre -> Index (pre ++ c :: post) [c] = Some (length pre).
Proof.
  induction pre as [|d pre IH]; intros Hpre.
  - change ([] ++ c :: post) with (c :: post).
    by rewrite Index_cons, HasPrefix_cons, Ascii.eqb_refl, HasPrefix_nil.
  - apply not_elem_of_cons in Hpre as [Hne Hpre].
    change ((d :: pre) ++ c :: post) with (d :: (pre ++ c :: post)).
    rewrite Index_cons, HasPrefix_cons, HasPrefix_nil, andb_true_r.
    destruct (Ascii.eqb_spec d c) as [->|_]; [congruence|]. by rewrite IH.
Qed.

Lemma Index_byte_absent c s : c ∉ s -> Index s [c] = None.
Proof.
  intros Hs. destruct (Index s [c]) as [n|] eqn:Hn; [|done].
  apply Index_byte_Some in Hn as (pre & post & -> & _ & _).
  exfalso. apply Hs. set_solver.
Qed.

Lemma Contains_true s p : Contains s p = true <-> exists n, Index s p = Some n.
Proof. unfold Contains. destruct (Index s p); naive_solver. Qed.

Lemma Contains_false s p : Contains s p = false <-> Index s p = None.
Proof. unfold Contains. destruct (Index s p); naive_solver. Qed.

Lemma Contains_app_mid a m b p :
  Contains m p = true -> Contains (a ++ m ++ b) p = true.
Proof.
  intros [n Hn]%Contains_true. apply Contains_true.
  destruct (Index (a ++ m ++ b) p) as [k|] eqn:Hk; [eauto|].
  apply (Index_None _ _ (length a + n)) in Hk.
  rewrite <- drop_drop, drop_app_length in Hk.
  pose proof (Index_occurs _ _ _ Hn) as Hocc.
  pose proof (Index_bound _ _ _ Hn) as Hb.
  rewrite drop_app_le in Hk; [|lia].
  rewrite HasPrefix_app_l in Hk; [congruence|]. rewrite length_drop. lia.
Qed.

(** *** Occurrences across a concatenation *)

Lemma HasPrefix_app_split a b p :
  HasPrefix (a ++ b) p = true -> length a < length p ->
  take (length a) p = a /\ HasPrefix b (drop (length a) p) = true.
Proof.
  intros [r Hr]%HasPrefix_true Hlen. split.
  - rewrite <- (take_app_le p r) by lia. rewrite <- Hr. by rewrite take_app_length.
  - apply HasPrefix_true. exists r.
    rewrite <- (drop_app_length a b), Hr. rewrite drop_app_le by lia. done.
Qed.

Lemma noStraddle_r a b p :
  (forall j, 0 < j < length p -> HasPrefix b (drop j p) = false) ->
  noStraddle a b p.
Proof. intros H j Hj _ [_ Hb]. rewrite H in Hb; done. Qed.

Lemma noStraddle_l a b p :
  (forall j, 0 < j < length p -> HasPrefix (rev a) (rev (take j p)) = false) ->
  noStraddle a b p.
Proof.
  intros H j Hj Hja [Ha _]. specialize (H j Hj).
  rewrite <- (take_drop (length a - j) a), Ha, rev_app_distr in H.
  by rewrite HasPrefix_app in H.
Qed.

Lemma HasPrefix_app_skip a b p k :
  Contains a p = false -> noStraddle a b p -> p <> [] -> k < length a ->
  HasPrefix (drop k (a ++ b)) p = false.
Proof.
  intros Ha Hno Hp Hk. apply Contains_false in Ha.
  rewrite drop_app_le by lia.
  destruct (HasPrefix (drop k a ++ b) p) eqn:Hocc; [exfalso|done].
  destruct (decide (length p <= length (drop k a))) as [Hle|Hgt].
  - rewrite HasPrefix_app_l in Hocc by done.
    by rewrite (Index_None _ _ k Ha) in Hocc.
  - apply HasPrefix_app_split in Hocc as [Ht Hb]; [|lia].
    rewrite length_drop in *.
    apply (Hno (length a - k)); [lia|lia|].
    split; [|done]. rewrite Ht. f_equal. lia.
Qed.

Lemma Index_app_skip a b p :
  Contains a p = false -> noStraddle a b p -> p <> [] ->
  Index (a ++ b) p = (fun n => length a + n) <$> Index b p.
Proof.
  intros Ha Hno Hp. destruct (Index b p) as [n|] eqn:Hb; simpl.
  - apply Index_intro.
    + rewrite <- drop_drop, drop_app_length. by apply Index_occurs.
    + intros k Hk. destruct (decide (k < length a)) as [Hlt|Hge].
      * by apply HasPrefix_app_skip.
      * rewrite drop_app_ge by lia. apply (Index_first _ _ n); [done|lia].
    + apply Index_bound in Hb. rewrite length_app. lia.
  - apply Index_None_intro. intros k _.
    destruct (decide (k < length a)) as [Hlt|Hge].
    + by apply HasPrefix_app_skip.
    + rewrite drop_app_ge by lia. by apply Index_None.
Qed.

(** A pattern with a byte that [s] lacks does not occur in [s]. *)
Lemma Contains_missing_byte s p c :
  c ∈ p -> c ∉ s -> Contains s p = false.
Proof.
  intros Hp Hs. apply Contains_false.
  destruct (Index s p) as [n|] eqn:Hn; [exfalso|done].
  apply Index_split in Hn. apply Hs. rewrite Hn.
  apply elem_of_app. right. apply elem_of_app. by left.
Qed.

End GoStrFacts.

(** * The image-path processor *)

Section FixImagePaths.

Implicit Types content result pre rest P X T mdDir : gostring.

Lemma drop_app_len {A} (a b : list A) n : n = length a -> drop n (a ++ b) = b.
Proof. intros ->. apply drop_app_length. Qed.

Lemma take_app_len {A} (a b : list A) n : n = length a -> take n (a ++ b) = a.
Proof. intros ->. apply take_app_length. Qed.

Lemma slice_app (a b c : gostring) lo hi :
  lo = length a -> hi = lo + length b -> slice (a ++ b ++ c) lo hi = b.
Proof.
  intros -> ->. unfold slice. rewrite drop_app_length.
  apply take_app_len. lia.
Qed.

Lemma fixImageLoop_unfold fuel mdDir content result processed :
  fixImageLoop (S fuel) mdDir content result processed =
  if negb (processed <? maxIterations) then Some (result, processed)
  else
    match Index content imgOpen with
    | None => Some (result ++ content, processed)
    | Some start0 =>
        match Index (drop (start0 + length imgOpen) content) quoteStr with
        | None =>
            Some ((result ++ take start0 content)
                    ++ drop (start0 + length imgOpen - length imgOpen) content,
                  processed)
        | Some end_ =>
            match Index (drop (start0 + length imgOpen + end_) content) tagClose with
            | None =>
                Some ((result ++ take start0 content)
                        ++ drop (start0 + length imgOpen - length imgOpen) content,
                      processed)
            | Some tagEnd =>
                let originalImgTag :=
                  slice content (start0 + length imgOpen - length imgOpen)
                    (start0 + length imgOpen + end_ + tagEnd + 1) in
                let imgPath :=
                  slice content (start0 + length imgOpen)
                    (start0 + length imgOpen + end_) in
                let rest := drop (start0 + length imgOpen + end_ + tagEnd + 1) content in
                if Contains originalImgTag clickMarker then
                  fixImageLoop fuel mdDir rest
                    ((result ++ take start0 content) ++ originalImgTag) processed
                else
                  fixImageLoop fuel mdDir rest
                    ((result ++ take start0 content)
                       ++ rewriteTag mdDir originalImgTag imgPath)
                    (S processed)
            end
        end
    end.
Proof. reflexivity. Qed.

(** The guard fails: the loop is left with the builder as it is. *)
Lemma fixImageLoop_ceiling fuel mdDir content result processed :
  maxIterations <= processed ->
  fixImageLoop (S fuel) mdDir content result processed = Some (result, processed).
Proof.
  intros H. rewrite fixImageLoop_unfold.
  destruct (processed <? maxIterations) eqn:E; [|done].
  apply Nat.ltb_lt in E. lia.
Qed.

(** No image tag is left: the rest of the input is written out. *)
Lemma fixImageLoop_done fuel mdDir content result processed :
  processed < maxIterations ->
  Index content imgOpen = None ->
  fixImageLoop (S fuel) mdDir content result processed
  = Some (result ++ content, processed).
Proof.
  intros H%Nat.ltb_lt Hi. rewrite fixImageLoop_unfold. by rewrite H, Hi.
Qed.

Lemma fixImageLoop_malformed fuel mdDir content n result processed :
  processed < maxIterations ->
  Index content imgOpen = Some n ->
  malformedAt content n ->
  fixImageLoop (S fuel) mdDir content result processed
  = Some (result ++ content, processed).
Proof.
  intros H%Nat.ltb_lt Hi Hm. rewrite fixImageLoop_unfold, H, Hi. simpl negb. cbv iota.
  replace (n + length imgOpen - length imgOpen) with n by lia.
  assert (Hout : (result ++ take n content) ++ drop n content = result ++ content)
    by (by rewrite <- app_assoc, take_drop).
  destruct Hm as [Hq|(e & Hq & Ht)].
  - rewrite Hq. by rewrite Hout.
  - rewrite Hq, Ht. by rewrite Hout.
Qed.

Lemma length_imgTag P X : length (imgTag P X) = 12 + length P + length X.
Proof.
  unfold imgTag. rewrite !length_app. simpl. rewrite length_app. simpl. lia.
Qed.

Lemma fixImageLoop_tag fuel mdDir pre P X rest result processed :
  processed < maxIterations ->
  Index (pre ++ imgOpen) imgOpen = Some (length pre) ->
  dq ∉ P -> gtByte ∉ X ->
  fixImageLoop (S fuel) mdDir (pre ++ imgTag P X ++ rest) result processed =
    if Contains (imgTag P X) clickMarker then
      fixImageLoop fuel mdDir rest (result ++ pre ++ imgTag P X) processed
    else
      fixImageLoop fuel mdDir rest
        (result ++ pre ++ rewriteTag mdDir (imgTag P X) P) (S processed).
Proof.
  intros H%Nat.ltb_lt Hi HP HX.
  set (content := pre ++ imgTag P X ++ rest).
  assert (Hc1 : content = (pre ++ imgOpen) ++ (P ++ dq :: X ++ gtByte :: rest)).
  { unfold content, imgTag. rewrite <- ?app_assoc. simpl.
    by rewrite <- ?app_assoc. }
  assert (Hstart : Index content imgOpen = Some (length pre)).
  { rewrite Hc1. apply (Index_app_indep _ []); [by rewrite app_nil_r|].
    rewrite length_app. lia. }
  assert (Hd1 : drop (length pre + length imgOpen) content
                = P ++ dq :: X ++ gtByte :: rest).
  { rewrite Hc1. apply drop_app_len. by rewrite length_app. }
  assert (Hq : Index (drop (length pre + length imgOpen) content) quoteStr
               = Some (length P)).
  { rewrite Hd1. by apply Index_byte_here. }
  assert (Hd2 : drop (length pre + length imgOpen + length P) content
                = (dq :: X) ++ gtByte :: rest).
  { rewrite <- drop_drop, Hd1. by apply drop_app_len. }
  assert (Ht : Index (drop (length pre + length imgOpen + length P) content) tagClose
               = Some (S (length X))).
  { rewrite Hd2. apply (Index_byte_here gtByte (dq :: X)).
    apply not_elem_of_cons. split; [done|done]. }
  assert (Hpath : slice content (length pre + length imgOpen)
                    (length pre + length imgOpen + length P) = P).
  { unfold slice. rewrite Hd1. apply take_app_len. lia. }
  assert (Htag : slice content (length pre + length imgOpen - length imgOpen)
                   (length pre + length imgOpen + length P + S (length X) + 1)
                 = imgTag P X).
  { unfold content. apply slice_app; [lia|].
    unfold imgTag. rewrite !length_app. simpl. rewrite length_app. simpl. lia. }
  assert (Hrest : drop (length pre + length imgOpen + length P + S (length X) + 1) content
                  = rest).
  { unfold content. rewrite app_assoc. apply drop_app_len.
    unfold imgTag. rewrite !length_app. simpl. rewrite length_app. simpl. lia. }
  rewrite fixImageLoop_unfold, H. simpl negb. cbv iota.
  rewrite Hstart. cbv iota beta zeta. rewrite Hq. cbv iota beta zeta.
  rewrite Ht. cbv iota beta zeta. rewrite Hpath, Htag, Hrest.
  assert (Hpre : take (length pre) content = pre).
  { unfold content. by apply take_app_len. }
  rewrite Hpre. by rewrite <- ?app_assoc.
Qed.

(** Every input is of one of three kinds: without an image tag, with a
    malformed first tag, or with a complete first tag. *)
Lemma content_cases content :
  Index content imgOpen = None \/
  (exists n, Index content imgOpen = Some n /\ malformedAt content n) \/
  (exists pre P X rest,
      content = pre ++ imgTag P X ++ rest /\
      Index (pre ++ imgOpen) imgOpen = Some (length pre) /\
      (dq ∉ P) /\ (gtByte ∉ X)).
Proof.
  destruct (Index content imgOpen) as [n|] eqn:Hn; [right|by left].
  pose proof (Index_split _ _ _ Hn) as Hs.
  pose proof (Index_bound _ _ _ Hn) as Hb.
  set (m := drop (n + length imgOpen) content) in *.
  destruct (Index m quoteStr) as [e|] eqn:He;
    [|left; exists n; split; [done|by left]].
  destruct (Index (drop (n + length imgOpen + e) content) tagClose) as [t|] eqn:Ht;
    [right|left; exists n; split; [done|right; eauto]].
  apply Index_byte_Some in He as (P & r & Hm & HP & <-).
  assert (Hd : drop (n + length imgOpen + length P) content = dq :: r).
  { rewrite <- drop_drop. fold m. rewrite Hm. by apply drop_app_len. }
  rewrite Hd in Ht.
  apply Index_byte_Some in Ht as (X' & rest & Hr & HX & <-).
  destruct X' as [|d X]; [simpl in Hr; simplify_eq|].
  simpl in Hr. injection Hr as Hdq Hr. subst d r.
  apply not_elem_of_cons in HX as [_ HX].
  exists (take n content), P, X, rest. split_and!; [| |done|done].
  - rewrite Hs at 1. rewrite Hm. unfold imgTag. rewrite <- ?app_assoc. simpl.
    by rewrite <- ?app_assoc.
  - rewrite length_take_le by lia.
    rewrite Hs in Hn. rewrite app_assoc in Hn.
    apply (Index_app_indep _ _ []) in Hn.
    + by rewrite app_nil_r in Hn.
    + rewrite length_app, length_take_le by lia. lia.
Qed.

(** The loop ends: each pass consumes a whole tag. *)
Lemma fixImageLoop_total fuel mdDir content result processed :
  length content < fuel ->
  is_Some (fixImageLoop fuel mdDir content result processed).
Proof.
  revert content result processed.
  induction fuel as [|fuel IH]; intros content result processed Hlen; [lia|].
  destruct (decide (processed < maxIterations)) as [Hp|Hp].
  - destruct (content_cases content)
      as [Hnone|[(n & Hn & Hm)|(pre & P & X & rest & -> & Hi & HP & HX)]].
    + by rewrite fixImageLoop_done.
    + by rewrite (fixImageLoop_malformed _ _ _ n).
    + rewrite fixImageLoop_tag by done.
      rewrite !length_app, length_imgTag in Hlen.
      destruct (Contains (imgTag P X) clickMarker); apply IH; lia.
  - rewrite fixImageLoop_ceiling by lia. done.
Qed.

(** *** The bytes of a resolved path *)

Lemma elem_of_splitOn sep s e c :
  e ∈ splitOn sep s -> c ∈ e -> c ∈ s.
Proof.
  revert e. induction s as [|d s IH]; intros e He Hc; simpl in He.
  - apply list_elem_of_singleton in He as ->. done.
  - destruct (Ascii.eqb d sep).
    + apply elem_of_cons in He as [->|He]; [by apply elem_of_nil in Hc|].
      right. by apply (IH e).
    + destruct (splitOn sep s) as [|e0 es] eqn:Hsp.
      * apply list_elem_of_singleton in He as ->.
        apply list_elem_of_singleton in Hc as ->. left.
      * apply elem_of_cons in He as [->|He].
        -- apply elem_of_cons in Hc as [->|Hc]; [left|right].
           apply (IH e0); [left|done].
        -- right. apply (IH e); [by right|done].
Qed.

Lemma elem_of_cleanElems rooted elems ups kept e :
  e ∈ (FilePath.cleanElems rooted elems ups kept).2 -> e ∈ elems \/ e ∈ kept.
Proof.
  revert ups kept. induction elems as [|x elems IH]; intros ups kept; simpl.
  - by right.
  - destruct (bool_decide (x = []) || bool_decide (x = FilePath.dot)).
    { intros [?|?]%IH; [left; by right|by right]. }
    destruct (bool_decide (x = FilePath.dotdot)).
    { destruct kept as [|k kept].
      - intros [?|?]%IH; [left; by right|by right].
      - intros [?|?]%IH; [left; by right|right; by right]. }
    intros [?|[->|?]%elem_of_cons]%IH; [left; by right|left; left|by right].
Qed.

Lemma elem_of_JoinStrings elems sep c :
  c ∈ JoinStrings elems sep -> c ∈ sep \/ exists e, e ∈ elems /\ c ∈ e.
Proof.
  induction elems as [|e elems IH]; simpl.
  - by intros ?%elem_of_nil.
  - destruct elems as [|e' elems'].
    + intros Hc. right. exists e. split; [left|done].
    + intros [Hc|[Hc|Hc]%elem_of_app]%elem_of_app.
      * right. exists e. split; [left|done].
      * by left.
      * destruct (IH Hc) as [?|(e0 & He0 & ?)]; [by left|].
        right. exists e0. split; [by right|done].
Qed.

Lemma elem_of_Clean path c : c ∈ FilePath.Clean path -> c ∈ path \/ pathByte c.
Proof.
  unfold FilePath.Clean. destruct path as [|d path].
  { intros ->%list_elem_of_singleton. right. by right. }
  set (rooted := Ascii.eqb d FilePath.sep).
  destruct (FilePath.cleanElems rooted (splitOn FilePath.sep (d :: path)) 0 []) as [ups kept] eqn:Hce.
  assert (Hbody : c ∈ JoinStrings (repeat FilePath.dotdot ups ++ rev kept) [FilePath.sep]
                  -> c ∈ d :: path \/ pathByte c).
  { intros [->%list_elem_of_singleton|(e & He & Hc)]%elem_of_JoinStrings.
    { right. by left. }
    apply elem_of_app in He as [He|He].
    - apply list_elem_of_In, repeat_spec in He. subst e. right. right.
      unfold FilePath.dotdot in Hc. simpl in Hc.
      apply elem_of_cons in Hc as [->|Hc]; [done|].
      by apply list_elem_of_singleton in Hc as ->.
    - apply list_elem_of_In, in_rev, list_elem_of_In in He.
      assert (Hk : e ∈ (FilePath.cleanElems rooted (splitOn FilePath.sep (d :: path)) 0 []).2)
        by (by rewrite Hce).
      apply elem_of_cleanElems in Hk as [Hk|Hk]; [|by apply elem_of_nil in Hk].
      left. by apply (elem_of_splitOn FilePath.sep _ e). }
  destruct rooted.
  - intros [->|Hc]%elem_of_cons; [right; by left|by apply Hbody].
  - destruct (JoinStrings _ _) eqn:Hj.
    + intros ->%list_elem_of_singleton. right. by right.
    + done.
Qed.

Lemma elem_of_Join a b c :
  c ∈ FilePath.Join a b -> c ∈ a \/ c ∈ b \/ pathByte c.
Proof.
  unfold FilePath.Join. destruct a as [|x a].
  - destruct b as [|y b]; [by intros ?%elem_of_nil|].
    intros [?|?]%elem_of_Clean; eauto.
  - intros [Hc|?]%elem_of_Clean; [|eauto].
    apply elem_of_app in Hc as [?|[Hc|?]%elem_of_app]; [eauto| |eauto].
    apply list_elem_of_singleton in Hc as ->. right. right. by left.
Qed.

Lemma elem_of_replaceAllFrom fuel s old new c :
  c ∈ replaceAllFrom fuel s old new -> c ∈ s \/ c ∈ new.
Proof.
  revert s. induction fuel as [|fuel IH]; intros s; simpl; [eauto|].
  destruct (Index s old) as [j|]; [|eauto].
  intros [Hc|[Hc|Hc]%elem_of_app]%elem_of_app.
  - left. by apply (subseteq_take j).
  - by right.
  - destruct (IH _ Hc) as [?|?]; [|by right].
    left. by eapply subseteq_drop.
Qed.

Lemma elem_of_ReplaceAll s old new c :
  c ∈ ReplaceAll s old new -> c ∈ s \/ c ∈ new.
Proof.
  unfold ReplaceAll. destruct old; [eauto|]. apply elem_of_replaceAllFrom.
Qed.

Lemma elem_of_resolveImagePath mdDir P c :
  c ∈ resolveImagePath mdDir P -> c ∈ mdDir \/ c ∈ P \/ pathByte c.
Proof.
  unfold resolveImagePath.
  match goal with |- context [FilePath.Clean ?f] => set (fullPath := f) end.
  assert (Hfull : c ∈ fullPath -> c ∈ mdDir \/ c ∈ P \/ pathByte c).
  { unfold fullPath.
    destruct (_ || _); [apply elem_of_Join|].
    destruct (negb _); [apply elem_of_Join|eauto]. }
  assert (Hrep : c ∈ ReplaceAll (FilePath.Clean fullPath) (str "\") (str "/")
                 -> c ∈ mdDir \/ c ∈ P \/ pathByte c).
  { intros [[?|?]%elem_of_Clean|Hc]%elem_of_ReplaceAll; [eauto|eauto|].
    apply list_elem_of_singleton in Hc as ->. right. right. by left. }
  destruct (HasPrefix (ReplaceAll _ _ _) _); [|exact Hrep].
  intros Hc. apply Hrep. by eapply subseteq_drop.
Qed.

(** *** The rewritten tag *)

Lemma relativeSuffix_eq : relativeSuffix = dq :: clickAttrs.
Proof. reflexivity. Qed.

Lemma absoluteSuffix_eq : absoluteSuffix = clickAttrs ++ [gtByte].
Proof. reflexivity. Qed.

Lemma clickAttrs_marker : Contains clickAttrs clickMarker = true.
Proof. reflexivity. Qed.

Lemma clickAttrs_no_gt : gtByte ∉ clickAttrs.
Proof. apply (bool_decide_unpack _). vm_compute. exact I. Qed.

(** A relative reference: the path is replaced by the resolved one and the
    click attributes follow it. *)
Lemma rewriteTag_relative mdDir P X :
  isRelative P = true ->
  rewriteTag mdDir (imgTag P X) P
  = imgTag (resolveImagePath mdDir P) (clickAttrs ++ X).
Proof.
  intros Hrel. unfold rewriteTag. rewrite Hrel.
  set (old := str "src=" ++ quoteStr ++ P ++ quoteStr).
  assert (HT : imgTag P X = (str "<img " ++ old) ++ (X ++ [gtByte])).
  { unfold imgTag, old. simpl. by rewrite <- ?app_assoc. }
  assert (Hi : Index (imgTag P X) old = Some 5).
  { rewrite HT, <- app_assoc. apply (Index_app_here (str "<img ")).
    intros k Hk. simpl in Hk.
    destruct k as [|[|[|[|[|k]]]]]; try lia; reflexivity. }
  unfold Replace1. rewrite Hi.
  assert (Hlen : 5 + length old = length (str "<img " ++ old))
    by (by rewrite length_app).
  rewrite Hlen, HT, drop_app_length.
  rewrite <- app_assoc, (take_app_len (str "<img ")) by done.
  unfold imgTag. rewrite relativeSuffix_eq. simpl. by rewrite <- ?app_assoc.
Qed.

(** An absolute, remote or data reference: the click attributes are put
    before the closing [>], the path is kept. *)
Lemma rewriteTag_absolute mdDir P X :
  isRelative P = false ->
  rewriteTag mdDir (imgTag P X) P = imgTag P (X ++ clickAttrs).
Proof.
  intros Hrel. unfold rewriteTag. rewrite Hrel.
  assert (HT : imgTag P X = (imgOpen ++ P ++ dq :: X) ++ [gtByte]).
  { unfold imgTag. rewrite <- ?app_assoc. simpl. by rewrite <- ?app_assoc. }
  rewrite HT at 2. rewrite take_app_len
    by (rewrite length_imgTag, ?length_app; simpl; rewrite ?length_app; simpl; lia).
  rewrite absoluteSuffix_eq. unfold imgTag. rewrite <- ?app_assoc. simpl.
  by rewrite <- ?app_assoc.
Qed.

Lemma imgTag_clickAttrs_l P X :
  Contains (imgTag P (clickAttrs ++ X)) clickMarker = true.
Proof.
  replace (imgTag P (clickAttrs ++ X))
    with ((imgOpen ++ P ++ [dq]) ++ clickAttrs ++ (X ++ [gtByte])).
  - apply Contains_app_mid, clickAttrs_marker.
  - unfold imgTag. rewrite <- ?app_assoc. simpl. by rewrite <- ?app_assoc.
Qed.

Lemma imgTag_clickAttrs_r P X :
  Contains (imgTag P (X ++ clickAttrs)) clickMarker = true.
Proof.
  replace (imgTag P (X ++ clickAttrs))
    with ((imgOpen ++ P ++ dq :: X) ++ clickAttrs ++ [gtByte]).
  - apply Contains_app_mid, clickAttrs_marker.
  - unfold imgTag. rewrite <- ?app_assoc. simpl. by rewrite <- ?app_assoc.
Qed.

Lemma resolveImagePath_no_quote mdDir P :
  dq ∉ mdDir -> dq ∉ P -> dq ∉ resolveImagePath mdDir P.
Proof.
  intros Hd HP [?|[?|[?|?]]]%elem_of_resolveImagePath; done.
Qed.

(** What the rewrite makes of a complete tag is again a complete tag, and
    it carries the click marker. *)
Lemma rewriteTag_final mdDir P X :
  dq ∉ mdDir -> dq ∉ P -> gtByte ∉ X ->
  exists P' X', rewriteTag mdDir (imgTag P X) P = imgTag P' X' /\
                (dq ∉ P') /\ (gtByte ∉ X') /\
                Contains (imgTag P' X') clickMarker = true.
Proof.
  intros Hd HP HX. destruct (isRelative P) eqn:Hrel.
  - exists (resolveImagePath mdDir P), (clickAttrs ++ X).
    split_and!; [by apply rewriteTag_relative|by apply resolveImagePath_no_quote
                | |apply imgTag_clickAttrs_l].
    intros [?|?]%elem_of_app; [by apply clickAttrs_no_gt|done].
  - exists P, (X ++ clickAttrs).
    split_and!; [by apply rewriteTag_absolute|done| |apply imgTag_clickAttrs_r].
    intros [?|?]%elem_of_app; [done|by apply clickAttrs_no_gt].
Qed.

(** *** The output of the loop is a fixed point of the loop *)

Lemma fixImageLoop_fixed fuel mdDir content result processed out p :
  dq ∉ mdDir ->
  fixImageLoop fuel mdDir content result processed = Some (out, p) ->
  exists o, out = result ++ o /\
    forall fuel2 mdDir2 r2, length o < fuel2 ->
      fixImageLoop fuel2 mdDir2 o r2 0 = Some (r2 ++ o, 0).
Proof.
  intros Hd. revert content result processed.
  induction fuel as [|fuel IH]; intros content result processed Hrun; [done|].
  assert (Hz : 0 < maxIterations) by (unfold maxIterations; lia).
  destruct (decide (processed < maxIterations)) as [Hp|Hp]; cycle 1.
  { rewrite fixImageLoop_ceiling in Hrun by lia. injection Hrun as <- <-.
    exists []. split; [by rewrite app_nil_r|].
    intros [|f2] md2 r2 Hf; [simpl in Hf; lia|].
    by rewrite fixImageLoop_done. }
  destruct (content_cases content)
    as [Hnone|[(n & Hn & Hm)|(pre & P & X & rest & -> & Hi & HP & HX)]].
  - rewrite fixImageLoop_done in Hrun by done. injection Hrun as <- <-.
    exists content. split; [done|].
    intros [|f2] md2 r2 Hf; [lia|]. by rewrite fixImageLoop_done.
  - rewrite (fixImageLoop_malformed _ _ _ n) in Hrun by done.
    injection Hrun as <- <-. exists content. split; [done|].
    intros [|f2] md2 r2 Hf; [lia|]. by rewrite (fixImageLoop_malformed _ _ _ n).
  - rewrite fixImageLoop_tag in Hrun by done.
    assert (Hpass : forall P' X' (k : nat),
      dq ∉ P' -> gtByte ∉ X' -> Contains (imgTag P' X') clickMarker = true ->
      fixImageLoop fuel mdDir rest (result ++ pre ++ imgTag P' X') k = Some (out, p) ->
      exists o, out = result ++ o /\
        forall fuel2 mdDir2 r2, length o < fuel2 ->
          fixImageLoop fuel2 mdDir2 o r2 0 = Some (r2 ++ o, 0)).
    { intros P' X' k HP' HX' Hmark Hrec.
      destruct (IH _ _ _ Hrec) as (o' & -> & Hfix).
      exists (pre ++ imgTag P' X' ++ o'). split; [by rewrite <- ?app_assoc|].
      intros [|f2] md2 r2 Hf; [lia|].
      rewrite fixImageLoop_tag, Hmark by done.
      rewrite !length_app, length_imgTag in Hf.
      rewrite Hfix by lia. by rewrite <- ?app_assoc. }
    destruct (Contains (imgTag P X) clickMarker) eqn:Hmark.
    + by apply (Hpass P X processed).
    + destruct (rewriteTag_final mdDir P X Hd HP HX) as (P' & X' & Hrw & ? & ? & ?).
      rewrite Hrw in Hrun. by apply (Hpass P' X' (S processed)).
Qed.

(** The counter never passes the ceiling. *)
Lemma fixImageLoop_processed fuel mdDir content result processed out p :
  processed <= maxIterations ->
  fixImageLoop fuel mdDir content result processed = Some (out, p) ->
  p <= maxIterations.
Proof.
  revert content result processed.
  induction fuel as [|fuel IH]; intros content result processed Hle Hrun; [done|].
  destruct (decide (processed < maxIterations)) as [Hp|Hp]; cycle 1.
  { rewrite fixImageLoop_ceiling in Hrun by lia. by injection Hrun as <- <-. }
  destruct (content_cases content)
    as [Hnone|[(n & Hn & Hm)|(pre & P & X & rest & -> & Hi & HP & HX)]].
  - rewrite fixImageLoop_done in Hrun by done. by injection Hrun as <- <-.
  - rewrite (fixImageLoop_malformed _ _ _ n) in Hrun by done.
    by injection Hrun as <- <-.
  - rewrite fixImageLoop_tag in Hrun by done.
    destruct (Contains (imgTag P X) clickMarker); eapply IH; [|done| |done]; lia.
Qed.

(** [fixImagePaths] by the final state of its loop. *)
Lemma fixImagePaths_run htmlContent mdFilePath :
  exists out p,
    fixImageLoop (S (length htmlContent)) (mdDirOf mdFilePath) htmlContent [] 0
      = Some (out, p) /\
    fixImagePaths htmlContent mdFilePath
      = if p <? maxIterations then out else htmlContent.
Proof.
  destruct (fixImageLoop_total (S (length htmlContent)) (mdDirOf mdFilePath)
              htmlContent [] 0) as [[out p] Hrun]; [lia|].
  exists out, p. split; [done|].
  unfold fixImagePaths, fixImagePathsWithin. rewrite Hrun. simpl.
  unfold fixImageResult. simpl. by destruct (p <? maxIterations).
Qed.

(** A document whose only image tag is complete and not yet marked. *)
Lemma fixImagePaths_one_tag pre P X rest mdFilePath :
  Index (pre ++ imgOpen) imgOpen = Some (length pre) ->
  dq ∉ P -> gtByte ∉ X ->
  Contains (imgTag P X) clickMarker = false ->
  Index rest imgOpen = None ->
  fixImagePaths (pre ++ imgTag P X ++ rest) mdFilePath
  = pre ++ rewriteTag (mdDirOf mdFilePath) (imgTag P X) P ++ rest.
Proof.
  intros Hi HP HX Hm Hrest.
  destruct (fixImagePaths_run (pre ++ imgTag P X ++ rest) mdFilePath)
    as (out & p & Hrun & ->).
  assert (Hz : 0 < maxIterations) by (unfold maxIterations; lia).
  rewrite fixImageLoop_tag, Hm in Hrun by done.
  rewrite !length_app, length_imgTag in Hrun.
  replace (length pre + (12 + length P + length X + length rest))
    with (S (length pre + (11 + length P + length X + length rest))) in Hrun by lia.
  rewrite fixImageLoop_done in Hrun by (done || (unfold maxIterations; lia)).
  injection Hrun as <- <-. simpl. by rewrite <- ?app_assoc.
Qed.

End FixImagePaths.

(** ** Claims about [fixImagePaths] *)

Lemma HasPrefix_snoc (X m : gostring) c :
  c ∉ m -> HasPrefix (X ++ [c]) m = HasPrefix X m.
Proof.
  revert m. induction X as [|x X IH]; intros m Hc.
  - destruct m as [|d m]; [done|]. apply not_elem_of_cons in Hc as [Hne _].
    change ([] ++ [c]) with [c]. rewrite HasPrefix_cons.
    destruct (Ascii.eqb_spec c d); [done|]. by destruct m.
  - destruct m as [|d m]; [done|]. apply not_elem_of_cons in Hc as [_ Hc].
    change ((x :: X) ++ [c]) with (x :: (X ++ [c])).
    by rewrite !HasPrefix_cons, IH.
Qed.

Lemma Index_snoc (X m : gostring) c :
  c ∉ m -> m <> [] -> Index (X ++ [c]) m = Index X m.
Proof.
  intros Hc Hm. induction X as [|x X IH].
  - change ([] ++ [c]) with [c]. rewrite Index_cons, Index_nil_l.
    change [c] with ([] ++ [c]). rewrite HasPrefix_snoc by done.
    by destruct m.
  - change ((x :: X) ++ [c]) with (x :: (X ++ [c])). rewrite !Index_cons.
    change (x :: (X ++ [c])) with ((x :: X) ++ [c]).
    by rewrite HasPrefix_snoc, IH.
Qed.

Lemma Index_app_skip_first (A s m : gostring) c0 :
  c0 ∉ A -> Index (A ++ s) (c0 :: m) = (fun n => length A + n) <$> Index s (c0 :: m).
Proof.
  induction A as [|a A IH]; intros Hc.
  - simpl. by destruct (Index s (c0 :: m)).
  - apply not_elem_of_cons in Hc as [Hne Hc].
    change ((a :: A) ++ s) with (a :: (A ++ s)).
    rewrite Index_cons, HasPrefix_cons.
    destruct (Ascii.eqb_spec a c0); [congruence|]. simpl andb. cbv iota.
    rewrite IH by done. by destruct (Index s (c0 :: m)).
Qed.

(** A tag whose path has no [o] and whose attributes do not contain the
    click marker does not contain it. *)
Lemma imgTag_unmarked (P X : gostring) :
  "o"%char ∉ P -> Contains X clickMarker = false ->
  Contains (imgTag P X) clickMarker = false.
Proof.
  intros HP HX. apply Contains_false. apply Contains_false in HX.
  replace (imgTag P X) with ((imgOpen ++ P ++ [dq]) ++ (X ++ [gtByte]))
    by (unfold imgTag; rewrite <- ?app_assoc; simpl; by rewrite <- ?app_assoc).
  unfold clickMarker. rewrite Index_app_skip_first.
  - fold clickMarker. rewrite Index_snoc, HX; [done| |done].
    apply (bool_decide_unpack _). vm_compute. exact I.
  - intros [Ho|[Ho|Ho]%elem_of_app]%elem_of_app; [|done|].
    + revert Ho. apply (bool_decide_unpack _). vm_compute. exact I.
    + revert Ho. apply (bool_decide_unpack _). vm_compute. exact I.
Qed.

(** C3.  Image path resolution.  In a document whose image element
    [<img src="P"X>] is the only one, is complete and does not carry the
    click marker yet, processed for the file [notes/sub/page.md]: the
    reference [img/a.png] becomes [notes/sub/img/a.png], [../img/a.png]
    becomes [notes/img/a.png], and [/assets/a.png] and [https://x/a.png]
    keep their path; in all four cases the element gains the class and
    the click handler [clickAttrs]. *)
Theorem image_path_resolution pre X rest :
  Index (pre ++ imgOpen) imgOpen = Some (length pre) ->
  gtByte ∉ X ->
  Contains X clickMarker = false ->
  Index rest imgOpen = None ->
  fixImagePaths (pre ++ imgTag (str "img/a.png") X ++ rest) notesSubPage
    = pre ++ imgTag (str "notes/sub/img/a.png") (clickAttrs ++ X) ++ rest /\
  fixImagePaths (pre ++ imgTag (str "../img/a.png") X ++ rest) notesSubPage
    = pre ++ imgTag (str "notes/img/a.png") (clickAttrs ++ X) ++ rest /\
  fixImagePaths (pre ++ imgTag (str "/assets/a.png") X ++ rest) notesSubPage
    = pre ++ imgTag (str "/assets/a.png") (X ++ clickAttrs) ++ rest /\
  fixImagePaths (pre ++ imgTag (str "https://x/a.png") X ++ rest) notesSubPage
    = pre ++ imgTag (str "https://x/a.png") (X ++ clickAttrs) ++ rest.
Proof.
  intros Hi HX Hm Hrest.
  assert (Hz : forall P : gostring, bool_decide (dq ∉ P) = true -> dq ∉ P)
    by (intros P; apply bool_decide_eq_true_1).
  assert (Ho : forall P : gostring, bool_decide ("o"%char ∉ P) = true -> "o"%char ∉ P)
    by (intros P; apply bool_decide_eq_true_1).
  split_and!.
  - rewrite fixImagePaths_one_tag; [|done|by apply Hz|done| |done];
      [|apply imgTag_unmarked; [by apply Ho|done]].
    by rewrite rewriteTag_relative.
  - rewrite fixImagePaths_one_tag; [|done|by apply Hz|done| |done];
      [|apply imgTag_unmarked; [by apply Ho|done]].
    by rewrite rewriteTag_relative.
  - rewrite fixImagePaths_one_tag; [|done|by apply Hz|done| |done];
      [|apply imgTag_unmarked; [by apply Ho|done]].
    by rewrite rewriteTag_absolute.
  - rewrite fixImagePaths_one_tag; [|done|by apply Hz|done| |done];
      [|apply imgTag_unmarked; [by apply Ho|done]].
    by rewrite rewriteTag_absolute.
Qed.

Lemma image_path_resolution_witness :
  let pre := lit "<p>" in
  let X := lit " alt='x' /" in
  let rest := str "</p>" in
  fixImagePaths (pre ++ imgTag (str "img/a.png") X ++ rest) notesSubPage
    = lit "<p><img src='notes/sub/img/a.png' class='preview-image' onclick='openImageModal(this.src)' alt='x' /></p>" /\
  fixImagePaths (pre ++ imgTag (str "../img/a.png") X ++ rest) notesSubPage
    = lit "<p><img src='notes/img/a.png' class='preview-image' onclick='openImageModal(this.src)' alt='x' /></p>" /\
  fixImagePaths (pre ++ imgTag (str "/assets/a.png") X ++ rest) notesSubPage
    = lit "<p><img src='/assets/a.png' alt='x' / class='preview-image' onclick='openImageModal(this.src)'></p>" /\
  fixImagePaths (pre ++ imgTag (str "https://x/a.png") X ++ rest) notesSubPage
    = lit "<p><img src='https://x/a.png' alt='x' / class='preview-image' onclick='openImageModal(this.src)'></p>".
Proof.
  apply (image_path_resolution (lit "<p>") (lit " alt='x' /") (str "</p>")).
  - reflexivity.
  - by_compute.
  - reflexivity.
  - reflexivity.
Defined.

(** C5, as stated, fails: for a markdown file in a directory whose name
    contains a double quote followed by [>], the rewritten tag ends early
    at the second pass and is rewritten again. *)
Lemma idempotence_fails_for_quoted_directory :
  let html := lit "<img src='a.png'>" in
  let path := lit "q'>/page.md" in
  fixImagePaths (fixImagePaths html path) path <> fixImagePaths html path.
Proof. vm_compute. discriminate. Qed.

Lemma mdDirOf_no_quote mdFilePath :
  dq ∉ FilePath.Dir mdFilePath -> dq ∉ mdDirOf mdFilePath.
Proof.
  intros H. unfold mdDirOf. case_bool_decide; [apply not_elem_of_nil|done].
Qed.

(** C5, amended.  For every HTML fragment and every source path whose
    directory contains no double quote, processing the output of the
    processor again gives the same bytes; and a complete image tag that
    carries the click marker is copied to the output unchanged, without
    being counted as processed. *)
Theorem fixImagePaths_idempotent htmlContent mdFilePath :
  dq ∉ FilePath.Dir mdFilePath ->
  fixImagePaths (fixImagePaths htmlContent mdFilePath) mdFilePath
    = fixImagePaths htmlContent mdFilePath /\
  (forall fuel pre P X rest result processed,
      processed < maxIterations ->
      Index (pre ++ imgOpen) imgOpen = Some (length pre) ->
      dq ∉ P -> gtByte ∉ X ->
      Contains (imgTag P X) clickMarker = true ->
      fixImageLoop (S fuel) (mdDirOf mdFilePath) (pre ++ imgTag P X ++ rest)
        result processed
      = fixImageLoop fuel (mdDirOf mdFilePath) rest
          (result ++ pre ++ imgTag P X) processed).
Proof.
  intros Hd%mdDirOf_no_quote. split.
  - destruct (fixImagePaths_run htmlContent mdFilePath) as (out & p & Hrun & Hf).
    rewrite Hf. destruct (p <? maxIterations) eqn:Hp; [|rewrite Hf; by rewrite ?Hp].
    destruct (fixImageLoop_fixed _ _ _ _ _ _ _ Hd Hrun) as (o & -> & Hfix).
    simpl. unfold fixImagePaths, fixImagePathsWithin.
    rewrite Hfix by lia. reflexivity.
  - intros fuel pre P X rest result processed Hp Hi HP HX Hm.
    by rewrite fixImageLoop_tag, Hm.
Qed.

Lemma fixImagePaths_idempotent_witness :
  let html := lit "<p><img src='img/a.png' alt='x' /><img src='/b.png'></p><img src='c" in
  fixImagePaths (fixImagePaths html notesSubPage) notesSubPage
    = fixImagePaths html notesSubPage.
Proof.
  refine (proj1 (fixImagePaths_idempotent _ notesSubPage _)).
  by_compute.
Defined.

(** *** The iteration ceiling *)

(** A document of [n] finalized tags keeps the loop running for [n + 1]
    evaluations of its guard, whatever [n]: the counter stays at 0. *)
Lemma fixImageLoop_finalizedTags n fuel mdDir result :
  fixImageLoop fuel mdDir (finalizedTags n) result 0 =
    if fuel <=? n then None else Some (result ++ finalizedTags n, 0).
Proof.
  revert fuel result. induction n as [|n IH]; intros [|fuel] result; try done.
  change (S fuel <=? S n) with (fuel <=? n).
  change (finalizedTags (S n))
    with ([] ++ imgTag [] (lit " onclick='openImageModal") ++ finalizedTags n).
  rewrite fixImageLoop_tag; [|unfold maxIterations; lia|done|by_compute|by_compute].
  change (Contains (imgTag [] (lit " onclick='openImageModal")) clickMarker) with true.
  cbv iota. rewrite IH. destruct (fuel <=? n); [done|].
  simpl. by rewrite <- ?app_assoc.
Qed.

(** C4, as stated, fails in one part: the loop is not bounded by the
    ceiling.  On 1001 finalized tags it is still running after
    [maxIterations + 1] evaluations of its guard. *)
Lemma ceiling_does_not_bound_the_loop :
  ~ (forall htmlContent mdFilePath,
       is_Some (fixImagePathsWithin (S maxIterations) htmlContent mdFilePath)).
Proof.
  intros H. destruct (H (finalizedTags 1001) []) as [r Hr].
  unfold fixImagePathsWithin in Hr.
  rewrite fixImageLoop_finalizedTags in Hr. done.
Qed.

(** C4, amended.  The processor ends on every input, within one pass per
    byte; the ceiling bounds the number of tags it rewrites (passes over
    tags that carry the click marker are not counted); when the ceiling is
    reached the result is the original HTML, otherwise it is the builder;
    and a malformed tag, met in any state of the loop, makes the loop
    append the whole rest of the input unchanged and stop. *)
Theorem fixImagePaths_bounded_fallback htmlContent mdFilePath :
  exists out p,
    fixImageLoop (S (length htmlContent)) (mdDirOf mdFilePath) htmlContent [] 0
      = Some (out, p) /\
    p <= maxIterations /\
    fixImagePaths htmlContent mdFilePath
      = (if p <? maxIterations then out else htmlContent) /\
    (forall fuel mdDir content n result processed,
        processed < maxIterations ->
        Index content imgOpen = Some n ->
        malformedAt content n ->
        fixImageLoop (S fuel) mdDir content result processed
        = Some (result ++ content, processed)).
Proof.
  destruct (fixImagePaths_run htmlContent mdFilePath) as (out & p & Hrun & Hf).
  exists out, p. split_and!; [done| |done|].
  - eapply fixImageLoop_processed; [|done]. lia.
  - intros. by eapply fixImageLoop_malformed.
Qed.

(** * The diagram-block processor *)

Section Mermaid.

Implicit Types content pre marker body post : gostring.

Lemma mermaidStep_unfold content :
  mermaidStep content =
  match (match Index content mermaidLong with
         | Some start => Some start
         | None => Index content mermaidShort
         end) with
  | None => None
  | Some start =>
      match Index (drop start content) endTag with
      | None => None
      | Some end0 =>
          let end_ := end0 + (start + length endTag) in
          let codeStart :=
            if Contains (slice content start (start + length mermaidLong)) mermaidClass
            then start + length mermaidShort else start + length mermaidLong in
          Some (take start content
                  ++ mermaidDivOf (slice content codeStart (end_ - length endTag))
                  ++ drop end_ content)
      end
  end.
Proof. reflexivity. Qed.

(** The closing tag does not begin inside an opening marker. *)
Lemma endTag_after_marker marker rest end0 :
  marker = mermaidLong \/ marker = mermaidShort ->
  Index (marker ++ rest) endTag = Some end0 -> length marker <= end0.
Proof.
  intros Hm Hi. destruct (decide (length marker <= end0)) as [|Hlt]; [done|].
  apply Index_occurs in Hi. exfalso. revert Hi.
  destruct Hm as [-> | ->].
  - do 36 (destruct end0 as [|end0]; [done|]). simpl in Hlt. lia.
  - do 27 (destruct end0 as [|end0]; [done|]). simpl in Hlt. lia.
Qed.

Lemma codeStart_marker marker rest :
  marker = mermaidLong \/ marker = mermaidShort ->
  (if Contains (take (length mermaidLong) (marker ++ rest)) mermaidClass
   then length mermaidShort else length mermaidLong) = length marker.
Proof.
  intros [-> | ->].
  - by rewrite take_app_length.
  - replace (take (length mermaidLong) (mermaidShort ++ rest))
      with ([] ++ mermaidShort ++ take 9 rest).
    + by rewrite Contains_app_mid.
    + simpl. reflexivity.
Qed.

(** One pass on a block: the block is replaced by its wrapper. *)
Lemma mermaidStep_block pre marker body post :
  foundAt (pre ++ marker ++ body ++ endTag ++ post) marker (length pre) ->
  Index (marker ++ body ++ endTag ++ post) endTag
    = Some (length marker + length body) ->
  mermaidStep (pre ++ marker ++ body ++ endTag ++ post)
  = Some (pre ++ mermaidDivOf body ++ post).
Proof.
  intros Hfound Hend.
  set (content := pre ++ marker ++ body ++ endTag ++ post) in *.
  assert (Hm : marker = mermaidLong \/ marker = mermaidShort)
    by (destruct Hfound as [[? _]|[? _]]; eauto).
  rewrite mermaidStep_unfold.
  assert (Hstart : match Index content mermaidLong with
                   | Some start => Some start
                   | None => Index content mermaidShort
                   end = Some (length pre)).
  { destruct Hfound as [[_ ->]|(_ & -> & ->)]; done. }
  rewrite Hstart.
  assert (Hd : drop (length pre) content = marker ++ body ++ endTag ++ post)
    by (unfold content; by rewrite drop_app_length).
  rewrite Hd, Hend. cbv zeta.
  assert (Hs : slice content (length pre) (length pre + length mermaidLong)
               = take (length mermaidLong) (marker ++ body ++ endTag ++ post)).
  { unfold slice. rewrite Hd. f_equal. lia. }
  rewrite Hs.
  assert (Hcs : (if Contains (take (length mermaidLong) (marker ++ body ++ endTag ++ post))
                      mermaidClass
                 then length pre + length mermaidShort
                 else length pre + length mermaidLong)
                = length pre + length marker).
  { rewrite <- (codeStart_marker marker (body ++ endTag ++ post) Hm).
    by destruct (Contains _ _). }
  rewrite Hcs.
  assert (Hbody : slice content (length pre + length marker)
                    (length marker + length body + (length pre + length endTag)
                     - length endTag) = body).
  { unfold content. rewrite app_assoc. rewrite slice_app; [done| |lia].
    by rewrite length_app. }
  assert (Hpost : drop (length marker + length body + (length pre + length endTag)) content
                  = post).
  { unfold content. rewrite !app_assoc. apply drop_app_len.
    rewrite !length_app. lia. }
  rewrite Hbody, Hpost. do 2 f_equal.
  unfold content. by apply take_app_len.
Qed.

(** Every pass of the loop is of that kind. *)
Lemma mermaidStep_spec content content' :
  mermaidStep content = Some content' ->
  exists pre marker body post,
    content = pre ++ marker ++ body ++ endTag ++ post /\
    foundAt content marker (length pre) /\
    Index (marker ++ body ++ endTag ++ post) endTag
      = Some (length marker + length body) /\
    content' = pre ++ mermaidDivOf body ++ post.
Proof.
  intros Hstep. pose proof Hstep as Hstep0.
  rewrite mermaidStep_unfold in Hstep.
  destruct (match Index content mermaidLong with
            | Some start => Some start
            | None => Index content mermaidShort
            end) as [start|] eqn:Hstart; [|done].
  destruct (Index (drop start content) endTag) as [end0|] eqn:Hend; [|done].
  assert (exists marker, foundAt content marker start) as [marker Hfound].
  { destruct (Index content mermaidLong) as [s0|] eqn:Hl.
    - injection Hstart as ->. exists mermaidLong. by left.
    - exists mermaidShort. by right. }
  assert (Hm : marker = mermaidLong \/ marker = mermaidShort)
    by (destruct Hfound as [[? _]|[? _]]; eauto).
  assert (Hmi : Index content marker = Some start)
    by (destruct Hfound as [[-> ?]|(-> & _ & ?)]; done).
  pose proof (Index_split _ _ _ Hmi) as Hc.
  pose proof (Index_bound _ _ _ Hmi) as Hb.
  set (rest := drop (start + length marker) content) in *.
  assert (Hd : drop start content = marker ++ rest).
  { rewrite Hc at 1. apply drop_app_len. rewrite length_take_le; lia. }
  rewrite Hd in Hend.
  pose proof (endTag_after_marker _ _ _ Hm Hend) as Hge.
  pose proof (Index_split _ _ _ Hend) as He.
  pose proof (Index_bound _ _ _ Hend) as Hbe.
  rewrite take_app_ge, drop_app_ge in He by lia.
  set (body := take (end0 - length marker) rest) in *.
  set (post := drop (end0 + length endTag - length marker) rest) in *.
  assert (Hr : rest = body ++ endTag ++ post).
  { apply (app_inv_head marker). rewrite He at 1. by rewrite <- app_assoc. }
  assert (Hlb : length body = end0 - length marker).
  { unfold body. rewrite length_take_le; [done|].
    rewrite length_app in Hbe. lia. }
  assert (Hlp : length (take start content) = start)
    by (rewrite length_take_le; lia).
  exists (take start content), marker, body, post.
  assert (Hcontent : content = take start content ++ marker ++ body ++ endTag ++ post)
    by (rewrite Hc at 1; by rewrite Hr).
  assert (Hend' : Index (marker ++ body ++ endTag ++ post) endTag
                  = Some (length marker + length body)).
  { rewrite <- Hr, Hend. f_equal. lia. }
  split_and!; [done|by rewrite Hlp|done|].
  rewrite Hcontent in Hstep0. rewrite mermaidStep_block in Hstep0.
  - by injection Hstep0 as <-.
  - rewrite <- Hcontent. by rewrite Hlp.
  - done.
Qed.

(** *** Lengths *)

Lemma length_replaceAllFrom fuel (s old new : gostring) :
  length new <= length old ->
  length (replaceAllFrom fuel s old new) <= length s.
Proof.
  intros Hlen. revert s. induction fuel as [|fuel IH]; intros s; simpl; [done|].
  destruct (Index s old) as [j|] eqn:Hj; [|done].
  apply Index_bound in Hj. specialize (IH (drop (j + length old) s)).
  rewrite !length_app, length_take_le by lia.
  rewrite length_drop in IH. lia.
Qed.

Lemma length_ReplaceAll (s old new : gostring) :
  length new <= length old -> length (ReplaceAll s old new) <= length s.
Proof.
  intros H. unfold ReplaceAll. destruct old; [done|].
  by apply length_replaceAllFrom.
Qed.

Lemma length_decodeEntities body : length (decodeEntities body) <= length body.
Proof.
  unfold decodeEntities.
  etrans; [apply length_ReplaceAll; simpl; lia|].
  etrans; [apply length_ReplaceAll; simpl; lia|].
  apply length_ReplaceAll; simpl; lia.
Qed.

Lemma length_trimLeftFrom fuel (s : gostring) :
  length (trimLeftFrom fuel s) <= length s.
Proof.
  revert s. induction fuel as [|fuel IH]; intros s; simpl; [done|].
  destruct (leadingSpace s) as [w|]; [|done].
  etrans; [apply IH|]. rewrite length_drop. lia.
Qed.

Lemma length_trimRightFrom fuel (s : gostring) :
  length (trimRightFrom fuel s) <= length s.
Proof.
  revert s. induction fuel as [|fuel IH]; intros s; simpl; [done|].
  destruct (trailingSpace s) as [w|]; [|done].
  etrans; [apply IH|]. rewrite length_take. lia.
Qed.

Lemma length_TrimSpace (s : gostring) : length (TrimSpace s) <= length s.
Proof.
  unfold TrimSpace, TrimRightSpace, TrimLeftSpace.
  etrans; [apply length_trimRightFrom|]. apply length_trimLeftFrom.
Qed.

Lemma length_mermaidDivOf body :
  length (mermaidDivOf body) <= length divOpen + length body + length divClose.
Proof.
  unfold mermaidDivOf. rewrite !length_app.
  pose proof (length_TrimSpace (decodeEntities body)).
  pose proof (length_decodeEntities body). lia.
Qed.

(** Every pass makes the content shorter. *)
Lemma mermaidStep_shrinks content content' :
  mermaidStep content = Some content' -> length content' < length content.
Proof.
  intros (pre & marker & body & post & -> & Hfound & _ & ->)%mermaidStep_spec.
  rewrite !length_app. pose proof (length_mermaidDivOf body) as Hdiv.
  assert (27 <= length marker)
    by (destruct Hfound as [[-> _]|[-> _]]; simpl; lia).
  simpl in Hdiv |- *. lia.
Qed.

Lemma mermaidLoop_total fuel content :
  length content < fuel -> is_Some (mermaidLoop fuel content).
Proof.
  revert content. induction fuel as [|fuel IH]; intros content Hlen; [lia|].
  simpl. destruct (mermaidStep content) as [content'|] eqn:Hstep; [|done].
  apply IH. apply mermaidStep_shrinks in Hstep. lia.
Qed.

(** More passes than needed change nothing. *)
Lemma mermaidLoop_more fuel fuel' content r :
  mermaidLoop fuel content = Some r -> fuel <= fuel' ->
  mermaidLoop fuel' content = Some r.
Proof.
  revert fuel' content. induction fuel as [|fuel IH]; intros fuel' content; [done|].
  intros Hrun Hle. destruct fuel' as [|fuel']; [lia|]. simpl in *.
  destruct (mermaidStep content); [|done]. apply IH; [done|lia].
Qed.

(** [processMermaidBlocks] by its loop. *)
Lemma processMermaidBlocks_step content :
  processMermaidBlocks content =
    match mermaidStep content with
    | None => content
    | Some content' => processMermaidBlocks content'
    end.
Proof.
  unfold processMermaidBlocks.
  change (mermaidLoop (S (length content)) content)
    with (match mermaidStep content with
          | None => Some content
          | Some c' => mermaidLoop (length content) c'
          end).
  destruct (mermaidStep content) as [content'|] eqn:Hstep; [|done].
  destruct (mermaidLoop_total (S (length content')) content') as [r Hr]; [lia|].
  rewrite Hr. apply mermaidStep_shrinks in Hstep.
  rewrite (mermaidLoop_more _ (length content) _ _ Hr) by lia. done.
Qed.

End Mermaid.

(** ** Claims about [processMermaidBlocks] *)

(** C10.  The diagram-block processor ends on every input although its
    loop has no ceiling: the decoded and trimmed text of a block is no
    longer than its body, the delimiters of the wrapper are shorter than
    those of the block, so every pass makes the content strictly shorter,
    and [length htmlContent + 1] passes are always enough. *)
Theorem processMermaidBlocks_terminates htmlContent :
  (forall body, length (TrimSpace (decodeEntities body)) <= length body) /\
  length divOpen + length divClose < length mermaidShort + length endTag /\
  length divOpen + length divClose < length mermaidLong + length endTag /\
  (forall content content',
      mermaidStep content = Some content' -> length content' < length content) /\
  exists r, mermaidLoop (S (length htmlContent)) htmlContent = Some r /\
            processMermaidBlocks htmlContent = r.
Proof.
  split_and!.
  - intros body. etrans; [apply length_TrimSpace|apply length_decodeEntities].
  - simpl. lia.
  - simpl. lia.
  - apply mermaidStep_shrinks.
  - destruct (mermaidLoop_total (S (length htmlContent)) htmlContent) as [r Hr]; [lia|].
    exists r. split; [done|]. unfold processMermaidBlocks. by rewrite Hr.
Qed.

(** ** Rendered documents with diagram blocks *)

Section Documents.

Implicit Types a b p t Y body tail : gostring.
Implicit Types it : item.
Implicit Types d : list item.

Lemma HasPrefix_known_prefix pref Y q :
  HasPrefix (pref ++ Y) q = true ->
  HasPrefix pref (take (length pref) q) = true.
Proof.
  intros H. destruct (decide (length q <= length pref)) as [Hle|Hgt].
  - rewrite take_ge by done. by rewrite HasPrefix_app_l in H.
  - apply HasPrefix_app_split in H as [Ht _]; [|lia]. rewrite Ht.
    apply HasPrefix_true. exists []. by rewrite app_nil_r.
Qed.

Lemma noStraddle_prefix a pref Y p :
  noStraddleInto pref p = true -> noStraddle a (pref ++ Y) p.
Proof.
  intros H. apply noStraddle_r. intros j Hj.
  unfold noStraddleInto in H. rewrite forallb_forall in H.
  specialize (H j). rewrite in_seq in H.
  destruct (HasPrefix (pref ++ Y) (drop j p)) eqn:E; [|done].
  apply HasPrefix_known_prefix in E. rewrite E in H.
  discriminate H. lia.
Qed.

Lemma noStraddle_suffix X suf b p :
  noStraddleFrom suf p = true -> noStraddle (X ++ suf) b p.
Proof.
  intros H. apply noStraddle_l. intros j Hj.
  unfold noStraddleFrom in H. rewrite forallb_forall in H.
  specialize (H j). rewrite in_seq in H.
  rewrite rev_app_distr.
  destruct (HasPrefix (rev suf ++ rev X) (rev (take j p))) eqn:E; [|done].
  apply HasPrefix_known_prefix in E. rewrite length_rev in E. rewrite E in H.
  discriminate H. lia.
Qed.

Lemma Index_skip_known_suffix suf b p :
  Contains suf p = false -> noStraddleFrom suf p = true -> p <> [] ->
  Index (suf ++ b) p = (fun n => length suf + n) <$> Index b p.
Proof.
  intros Hc Hs Hp. apply Index_app_skip; [done| |done].
  rewrite <- (app_nil_l suf). by apply noStraddle_suffix.
Qed.

Lemma Index_skip_known_prefix a pref Y p :
  Contains a p = false -> noStraddleInto pref p = true -> p <> [] ->
  Index (a ++ pref ++ Y) p = (fun n => length a + n) <$> Index (pref ++ Y) p.
Proof.
  intros Hc Hs Hp. apply Index_app_skip; [done| |done].
  by apply noStraddle_prefix.
Qed.

Lemma markerOf_nonempty long : markerOf long <> [].
Proof. by destruct long. Qed.

Lemma lt_in_markerOf long : "<"%char ∈ markerOf long.
Proof. destruct long; left. Qed.

Lemma dq_in_markerOf long : dq ∈ markerOf long.
Proof. destruct long; by_compute. Qed.

Lemma fmap_add_add (k1 k2 : nat) (o : option nat) :
  (fun n => k1 + n) <$> ((fun n => k2 + n) <$> o) = (fun n => k1 + k2 + n) <$> o.
Proof. destruct o; simpl; f_equal; lia. Qed.

(** The closing tag of a block is the first one after its opening. *)
Lemma endTag_first long body post :
  escaped body ->
  Index (markerOf long ++ body ++ endTag ++ post) endTag
  = Some (length (markerOf long) + length body).
Proof.
  intros [Hlt _].
  rewrite Index_skip_known_suffix; [|by destruct long|by destruct long|done].
  rewrite (Index_skip_known_prefix body endTag post);
    [|by apply (Contains_missing_byte _ _ "<"%char); [left|]|done|done].
  rewrite fmap_add_add.
  assert (Index (endTag ++ post) endTag = Some 0) as ->.
  { apply (Index_app_here []). simpl. intros; lia. }
  simpl. f_equal. lia.
Qed.

Lemma elem_of_TrimSpace (s : gostring) c : c ∈ TrimSpace s -> c ∈ s.
Proof.
  assert (Hl : forall fuel (s : gostring), c ∈ trimLeftFrom fuel s -> c ∈ s).
  { induction fuel as [|fuel IH]; intros s0; simpl; [done|].
    destruct (leadingSpace s0); [|done]. intros H%IH. by eapply subseteq_drop. }
  assert (Hr : forall fuel (s : gostring), c ∈ trimRightFrom fuel s -> c ∈ s).
  { induction fuel as [|fuel IH]; intros s0; simpl; [done|].
    destruct (trailingSpace s0); [|done]. intros H%IH. by eapply subseteq_take. }
  unfold TrimSpace, TrimRightSpace, TrimLeftSpace. intros H%Hr. by apply Hl in H.
Qed.

Lemma decoded_no_quote body : dq ∉ body -> dq ∉ TrimSpace (decodeEntities body).
Proof.
  intros Hb H%elem_of_TrimSpace. unfold decodeEntities in H.
  apply elem_of_ReplaceAll in H as [H|H]; [|revert H; by_compute].
  apply elem_of_ReplaceAll in H as [H|H]; [|revert H; by_compute].
  apply elem_of_ReplaceAll in H as [H|H]; [done|revert H; by_compute].
Qed.

(** A wrapper, or a block of the other kind, holds no occurrence of the
    marker searched for. *)
Lemma Index_fence_skip long it Y :
  escaped (itemBody it) -> isRaw long it = false ->
  Index (renderFence it ++ Y) (markerOf long)
  = (fun n => length (renderFence it) + n) <$> Index Y (markerOf long).
Proof.
  intros [Hlt Hdq] Hraw. unfold renderFence, isRaw in *.
  destruct (itemDone it); simpl in Hraw.
  - unfold mermaidDivOf. rewrite <- !app_assoc.
    rewrite Index_skip_known_suffix;
      [|by destruct long|by destruct long|apply markerOf_nonempty].
    rewrite (Index_skip_known_prefix _ divClose Y);
      [|apply (Contains_missing_byte _ _ dq);
          [apply dq_in_markerOf|by apply decoded_no_quote]
       |by destruct long|apply markerOf_nonempty].
    rewrite Index_skip_known_suffix;
      [|by destruct long|by destruct long|apply markerOf_nonempty].
    rewrite !fmap_add_add. rewrite !length_app.
    destruct (Index Y (markerOf long)); simpl; f_equal; lia.
  - rewrite <- !app_assoc.
    rewrite Index_skip_known_suffix;
      [|by destruct long, (itemLong it)|by destruct long, (itemLong it)
       |apply markerOf_nonempty].
    rewrite (Index_skip_known_prefix _ endTag Y);
      [|apply (Contains_missing_byte _ _ "<"%char); [apply lt_in_markerOf|done]
       |by destruct long|apply markerOf_nonempty].
    rewrite Index_skip_known_suffix;
      [|by destruct long|by destruct long|apply markerOf_nonempty].
    rewrite !fmap_add_add. rewrite !length_app.
    destruct (Index Y (markerOf long)); simpl; f_equal; lia.
Qed.

Lemma Index_fence_hit long it Y :
  isRaw long it = true ->
  Index (renderFence it ++ Y) (markerOf long) = Some 0.
Proof.
  unfold isRaw, renderFence. destruct (itemDone it); [done|]. simpl.
  intros ->%Bool.eqb_prop. rewrite <- app_assoc.
  apply (Index_app_here []). simpl. intros; lia.
Qed.

(** The HTML before a block holds no occurrence, and none runs from it
    into the block or the wrapper. *)
Lemma Index_text_skip long t it Y :
  cleanText t ->
  Index (t ++ renderFence it ++ Y) (markerOf long)
  = (fun n => length t + n) <$> Index (renderFence it ++ Y) (markerOf long).
Proof.
  intros [Hl Hs]. unfold renderFence.
  assert (Hc : Contains t (markerOf long) = false) by (by destruct long).
  destruct (itemDone it).
  - unfold mermaidDivOf. rewrite <- !app_assoc.
    apply Index_skip_known_prefix; [done|by destruct long|apply markerOf_nonempty].
  - rewrite <- !app_assoc.
    apply Index_skip_known_prefix;
      [done|by destruct long, (itemLong it)|apply markerOf_nonempty].
Qed.

Lemma Index_renderDoc_none long d tail :
  Forall wfItem d -> cleanText tail ->
  (forall it, it ∈ d -> isRaw long it = false) ->
  Index (renderDoc d tail) (markerOf long) = None.
Proof.
  intros Hwf Htail. induction Hwf as [|it d [Ht Hb] Hwf IH]; intros Hraw; simpl.
  - apply Contains_false. destruct Htail. by destruct long.
  - rewrite Index_text_skip by done.
    rewrite Index_fence_skip; [|done|apply Hraw; left].
    rewrite IH; [done|]. intros it' ?. apply Hraw. by right.
Qed.

Lemma renderDoc_app d1 it d2 tail :
  renderDoc (d1 ++ it :: d2) tail
  = renderDoc d1 (itemText it) ++ renderFence it ++ renderDoc d2 tail.
Proof.
  induction d1 as [|x d1 IH]; simpl; [done|].
  by rewrite IH, <- !app_assoc.
Qed.

Lemma Index_renderDoc_first long d1 it d2 tail :
  Forall wfItem d1 -> wfItem it ->
  (forall x, x ∈ d1 -> isRaw long x = false) ->
  isRaw long it = true ->
  Index (renderDoc (d1 ++ it :: d2) tail) (markerOf long)
  = Some (length (renderDoc d1 (itemText it))).
Proof.
  intros Hwf [Ht _] Hraw Hit.
  induction Hwf as [|x d1 [Hxt Hxb] Hwf IH]; simpl.
  - rewrite Index_text_skip, Index_fence_hit by done. simpl. f_equal. lia.
  - rewrite Index_text_skip by done.
    rewrite Index_fence_skip; [|done|apply Hraw; left].
    rewrite IH; [|intros y ?; apply Hraw; by right].
    simpl. rewrite !length_app. f_equal; lia.
Qed.

(** One pass on a document: the block that the loop takes up becomes its
    wrapper. *)
Lemma mermaidStep_renderDoc long d1 it d2 tail :
  Forall wfItem (d1 ++ it :: d2) -> cleanText tail ->
  isRaw long it = true ->
  (forall x, x ∈ d1 -> isRaw long x = false) ->
  (long = false -> forall x, x ∈ d1 ++ it :: d2 -> isRaw true x = false) ->
  mermaidStep (renderDoc (d1 ++ it :: d2) tail)
  = Some (renderDoc (d1 ++ setDone it :: d2) tail).
Proof.
  intros Hwf Htail Hit Hd1 Hlong.
  pose proof Hwf as Hwf0.
  apply Forall_app in Hwf as [Hwf1 Hwf2].
  apply Forall_cons in Hwf2 as [Hwfit Hwf2].
  assert (Hfence : renderFence it = markerOf long ++ itemBody it ++ endTag).
  { unfold isRaw in Hit. unfold renderFence.
    destruct (itemDone it); [done|]. simpl in Hit.
    by apply Bool.eqb_prop in Hit as ->. }
  assert (Hdone : renderFence (setDone it) = mermaidDivOf (itemBody it)) by done.
  pose proof (Index_renderDoc_first long d1 it d2 tail Hwf1 Hwfit Hd1 Hit) as Hidx.
  rewrite !renderDoc_app in *. rewrite Hdone. rewrite Hfence in *.
  rewrite <- !app_assoc in *. simpl itemText.
  apply mermaidStep_block.
  - destruct long.
    + left. split; [done|]. exact Hidx.
    + right. split; [done|]. split; [|exact Hidx].
      specialize (Hlong eq_refl).
      pose proof (Index_renderDoc_none true _ tail Hwf0 Htail Hlong) as Hnone.
      rewrite renderDoc_app, Hfence in Hnone.
      by rewrite <- !app_assoc in Hnone.
  - apply endTag_first. by destruct Hwfit.
Qed.

Lemma mermaidStep_renderDoc_none d tail :
  Forall wfItem d -> cleanText tail ->
  (forall x, x ∈ d -> itemDone x = true) ->
  mermaidStep (renderDoc d tail) = None.
Proof.
  intros Hwf Htail Hdone. rewrite mermaidStep_unfold.
  rewrite (Index_renderDoc_none true), (Index_renderDoc_none false); try done.
  - intros x Hx. unfold isRaw. by rewrite (Hdone x Hx).
  - intros x Hx. unfold isRaw. by rewrite (Hdone x Hx).
Qed.

(** The first element with a property. *)
Lemma list_first_split {A} (P : A -> bool) (l : list A) :
  existsb P l = true ->
  exists l1 x l2, l = l1 ++ x :: l2 /\ P x = true /\
                  forall y, y ∈ l1 -> P y = false.
Proof.
  induction l as [|a l IH]; [done|]. simpl.
  destruct (P a) eqn:Ha.
  - intros _. exists [], a, l. split_and!; [done|done|].
    intros y Hy. by apply elem_of_nil in Hy.
  - simpl. intros (l1 & x & l2 & -> & Hx & Hl1)%IH.
    exists (a :: l1), x, l2. split_and!; [done|done|].
    intros y [->|Hy]%elem_of_cons; [done|by apply Hl1].
Qed.

Lemma existsb_false {A} (P : A -> bool) (l : list A) :
  existsb P l = false -> forall y, y ∈ l -> P y = false.
Proof.
  induction l as [|a l IH]; simpl.
  - intros _ y Hy. by apply elem_of_nil in Hy.
  - intros [Ha Hl]%orb_false_elim y [->|Hy]%elem_of_cons; [done|by apply IH].
Qed.

Lemma rawCount_setDone d1 it d2 :
  itemDone it = false ->
  rawCount (d1 ++ setDone it :: d2) < rawCount (d1 ++ it :: d2).
Proof.
  intros Hit. unfold rawCount. rewrite !filter_app, !filter_cons.
  simpl. rewrite Hit. rewrite !length_app.
  destruct (decide (true = false)); [done|].
  destruct (decide (false = false)); [|done]. simpl. lia.
Qed.

Lemma wfItem_setDone it : wfItem it -> wfItem (setDone it).
Proof. done. Qed.

Lemma map_setDone_app d1 it d2 :
  map setDone (d1 ++ setDone it :: d2) = map setDone (d1 ++ it :: d2).
Proof. by rewrite !map_app. Qed.

(** The processor turns every block of a document into its wrapper. *)
Lemma processMermaidBlocks_renderDoc d tail :
  Forall wfItem d -> cleanText tail ->
  processMermaidBlocks (renderDoc d tail) = renderDoc (map setDone d) tail.
Proof.
  remember (rawCount d) as n eqn:Hn. revert d Hn.
  induction (lt_wf n) as [n _ IH]. intros d -> Hwf Htail.
  rewrite processMermaidBlocks_step.
  destruct (existsb (isRaw true) d) eqn:Hlong.
  { apply list_first_split in Hlong as (d1 & it & d2 & -> & Hit & Hd1).
    rewrite (mermaidStep_renderDoc true) by done.
    assert (Hraw : itemDone it = false)
      by (unfold isRaw in Hit; by destruct (itemDone it)).
    rewrite (IH _ (rawCount_setDone d1 it d2 Hraw) _ eq_refl); [| |done].
    - by rewrite map_setDone_app.
    - apply Forall_app in Hwf as [? [? ?]%Forall_cons].
      apply Forall_app. split; [done|]. by apply Forall_cons. }
  pose proof (existsb_false _ _ Hlong) as Hnolong.
  destruct (existsb (isRaw false) d) eqn:Hshort.
  { apply list_first_split in Hshort as (d1 & it & d2 & -> & Hit & Hd1).
    rewrite (mermaidStep_renderDoc false) by done.
    assert (Hraw : itemDone it = false)
      by (unfold isRaw in Hit; by destruct (itemDone it)).
    rewrite (IH _ (rawCount_setDone d1 it d2 Hraw) _ eq_refl); [| |done].
    - by rewrite map_setDone_app.
    - apply Forall_app in Hwf as [? [? ?]%Forall_cons].
      apply Forall_app. split; [done|]. by apply Forall_cons. }
  pose proof (existsb_false _ _ Hshort) as Hnoshort.
  assert (Hall : forall x, x ∈ d -> itemDone x = true).
  { intros x Hx. specialize (Hnolong x Hx). specialize (Hnoshort x Hx).
    unfold isRaw in *. destruct (itemDone x), (itemLong x); done. }
  rewrite mermaidStep_renderDoc_none by done.
  f_equal. clear -Hall. induction d as [|x d IH]; [done|]. simpl.
  rewrite <- IH by (intros y ?; apply Hall; by right).
  f_equal. destruct x as [t dn l b]. simpl.
  assert (Hx : itemDone (mkItem t dn l b) = true) by (apply Hall; left).
  simpl in Hx. by subst.
Qed.

End Documents.

(** * The tree scanner *)

Section Scanner.

Implicit Types a b c : gostring.
Implicit Types e : entry.
Implicit Types st : scanState.

Lemma ltString_asym a b : ltString a b = true -> ltString b a = false.
Proof.
  revert b. induction a as [|x a IH]; intros [|y b]; simpl; try done.
  destruct (Nat.ltb_spec (nat_of_ascii x) (nat_of_ascii y)),
           (Nat.ltb_spec (nat_of_ascii y) (nat_of_ascii x)); try done; try lia.
  apply IH.
Qed.

Lemma ltString_neg_trans a b c :
  ltString b a = false -> ltString c b = false -> ltString c a = false.
Proof.
  revert b c. induction a as [|y a IH]; intros [|z b] [|x c]; simpl; try done.
  destruct (Nat.ltb_spec (nat_of_ascii z) (nat_of_ascii y)); [done|].
  destruct (Nat.ltb_spec (nat_of_ascii x) (nat_of_ascii z)); [done|].
  destruct (Nat.ltb_spec (nat_of_ascii x) (nat_of_ascii y)); [lia|].
  destruct (Nat.ltb_spec (nat_of_ascii y) (nat_of_ascii x)); [done|].
  destruct (Nat.ltb_spec (nat_of_ascii y) (nat_of_ascii z)); [lia|].
  destruct (Nat.ltb_spec (nat_of_ascii z) (nat_of_ascii x)); [lia|].
  apply IH.
Qed.

Lemma entryLe_total : Total entryLe.
Proof.
  intros x y. unfold entryLe, entryLess.
  destruct (entryIsDir x), (entryIsDir y); simpl; eauto.
  - destruct (ltString (entryName y) (entryName x)) eqn:E; [|by left].
    right. by apply ltString_asym.
  - destruct (ltString (entryName y) (entryName x)) eqn:E; [|by left].
    right. by apply ltString_asym.
Qed.

Lemma entryLe_trans : Transitive entryLe.
Proof.
  intros x y z. unfold entryLe, entryLess.
  destruct (entryIsDir x), (entryIsDir y), (entryIsDir z); simpl; try done.
  - intros ??. by eapply ltString_neg_trans.
  - intros ??. by eapply ltString_neg_trans.
Qed.

Lemma sortEntries_sorted entries : StronglySorted entryLe (sortEntries entries).
Proof.
  apply (@StronglySorted_merge_sort _ entryLe _ entryLe_trans entryLe_total).
Qed.

Lemma elem_of_sortEntries entries e : e ∈ sortEntries entries <-> e ∈ entries.
Proof. unfold sortEntries. by rewrite merge_sort_Permutation. Qed.

Lemma existsb_sortEntries (f : entry -> bool) entries :
  existsb f (sortEntries entries) = existsb f entries.
Proof.
  apply eq_true_iff_eq. rewrite !existsb_exists.
  split; intros (e & He & Hf); exists e; (split; [|done]).
  - apply list_elem_of_In. apply (proj1 (elem_of_sortEntries entries e)).
    by apply list_elem_of_In.
  - apply list_elem_of_In. apply (proj2 (elem_of_sortEntries entries e)).
    by apply list_elem_of_In.
Qed.

Lemma entryLe_nodeLe e1 e2 n1 n2 :
  entryLe e1 e2 ->
  IsDir n1 = entryIsDir e1 -> Name n1 = entryName e1 ->
  IsDir n2 = entryIsDir e2 -> Name n2 = entryName e2 ->
  nodeLe n1 n2.
Proof.
  unfold entryLe, entryLess, nodeLe. intros H -> -> -> ->.
  destruct (entryIsDir e1), (entryIsDir e2); simpl in *; done.
Qed.

Lemma visitAll_nil scan dir st : visitAll scan dir [] st = Some st.
Proof. done. Qed.

Lemma visitAll_cons scan dir e es st :
  visitAll scan dir (e :: es) st
  = visitEntry scan dir st e ≫= visitAll scan dir es.
Proof.
  unfold visitAll. simpl. destruct (visitEntry scan dir st e) as [st'|]; [done|].
  simpl. induction es as [|e' es IH]; [done|]. apply IH.
Qed.

Lemma goodNode_file name path : goodNode (mkFileNode name path false []).
Proof.
  intros m Hm. simpl in Hm. apply list_elem_of_singleton in Hm as ->.
  simpl. split_and!; [done|done|constructor].
Qed.

Lemma goodNode_dir name path cs :
  cs <> [] -> ordered cs -> Forall goodNode cs ->
  goodNode (mkFileNode name path true cs).
Proof.
  intros Hne Hord Hgood m Hm. simpl in Hm.
  apply elem_of_cons in Hm as [->|Hm]; [done|].
  apply list_elem_of_In, in_flat_map in Hm as (c & Hc & Hm).
  rewrite Forall_forall in Hgood. apply (Hgood c).
  - by apply list_elem_of_In.
  - by apply list_elem_of_In.
Qed.

Section Visit.

Variable scan : gostring -> option (list entry) -> scanState -> option scanResult.
Hypothesis scan_spec :
  forall path sub st r, scan path sub st = Some r -> scanSpec sub st r.

(** One entry appends at most one node, which is named after the entry,
    and it appends none exactly when nothing eligible is below it. *)
Lemma visitEntry_spec dir st e st' :
  visitEntry scan dir st e = Some st' ->
  exists cs,
    st' = mkScanState (parentChildren st ++ cs)
            (mdFiles st ++ flat_map nodeFiles cs) /\
    Forall goodNode cs /\
    Forall (fun n => IsDir n = entryIsDir e /\ Name n = entryName e) cs /\
    length cs <= 1 /\
    (cs = [] <-> hasMarkdown e = false).
Proof.
  destruct st as [pc mf].
  set (st := mkScanState pc mf).
  assert (Hsame : forall b : bool, b = false -> exists cs,
    st = mkScanState (parentChildren st ++ cs)
           (mdFiles st ++ flat_map nodeFiles cs) /\
    Forall goodNode cs /\
    Forall (fun n => IsDir n = entryIsDir e /\ Name n = entryName e) cs /\
    length cs <= 1 /\
    (cs = [] <-> b = false)).
  { intros b ->. exists []. simpl. rewrite !app_nil_r.
    split_and!; [done|constructor|constructor|lia|done]. }
  unfold visitEntry. destruct e as [name|name sub]; simpl.
  - destruct (isHidden name); simpl; [intros [= <-]; by apply Hsame|].
    destruct (isMarkdown name); [|intros [= <-]; by apply Hsame].
    intros [= <-].
    exists [mkFileNode name (childPath dir name) false []]. simpl.
    split_and!; [done| | |lia|done].
    + constructor; [apply goodNode_file|constructor].
    + by constructor.
  - destruct (isHidden name); simpl; [intros [= <-]; by apply Hsame|].
    destruct (isSkippedDir name); simpl; [intros [= <-]; by apply Hsame|].
    destruct (scan (childPath dir name) sub (mkScanState [] mf))
      as [r|] eqn:Hscan; [|done]. simpl.
    apply scan_spec in Hscan. destruct r as [st1|st1]; simpl in Hscan.
    + destruct Hscan as [_ ->]. intros [= <-]; by apply Hsame.
    + destruct Hscan as (cs1 & -> & Hord & Hgood & Hempty). simpl.
      unfold listingHasMarkdown in Hempty.
      destruct cs1 as [|c1 cs1]; simpl.
      * rewrite app_nil_r. intros [= <-]. apply Hsame. by apply Hempty.
      * intros [= <-].
        exists [mkFileNode name (childPath dir name) true (c1 :: cs1)].
        simpl. rewrite app_nil_r. split_and!; [done| | |lia|].
        -- constructor; [by apply goodNode_dir|constructor].
        -- by constructor.
        -- split; [done|]. intros Hno. by apply Hempty in Hno.
Qed.

Lemma visitAll_spec dir es st st' :
  StronglySorted entryLe es ->
  visitAll scan dir es st = Some st' ->
  exists cs,
    st' = mkScanState (parentChildren st ++ cs)
            (mdFiles st ++ flat_map nodeFiles cs) /\
    ordered cs /\ Forall goodNode cs /\
    Forall (fun n => exists e, e ∈ es /\ IsDir n = entryIsDir e /\ Name n = entryName e) cs /\
    (cs = [] <-> existsb hasMarkdown es = false).
Proof.
  intros Hsorted. revert st st'.
  induction Hsorted as [|e es Hsorted IH Hle]; intros st st'.
  - intros [= <-]. exists []. simpl. rewrite !app_nil_r.
    split_and!; [by destruct st|constructor|done|done|done].
  - rewrite visitAll_cons.
    destruct (visitEntry scan dir st e) as [st1|] eqn:Hvisit; [|done]. simpl.
    apply visitEntry_spec in Hvisit as (cs1 & -> & Hgood1 & Hkey1 & Hlen1 & Hno1).
    intros (cs2 & -> & Hord2 & Hgood2 & Hkey2 & Hno2)%IH. simpl.
    exists (cs1 ++ cs2). rewrite flat_map_app, <- !app_assoc.
    split_and!; [done| |by apply Forall_app| |].
    + apply StronglySorted_app_2; [|by destruct cs1 as [|? [|]]; repeat constructor; simpl in *; lia|done].
      intros n1 n2 Hn1 Hn2.
      rewrite Forall_forall in Hkey1, Hkey2.
      destruct (Hkey1 _ Hn1) as [? ?].
      destruct (Hkey2 _ Hn2) as (e2 & He2 & ? & ?).
      rewrite Forall_forall in Hle.
      apply (entryLe_nodeLe e e2); [by apply Hle|done..].
    + apply Forall_app. split.
      * eapply Forall_impl; [exact Hkey1|]. intros n [? ?]. exists e.
        split; [left|done].
      * eapply Forall_impl; [exact Hkey2|]. intros n (e2 & ? & ?). exists e2.
        split; [by right|done].
    + simpl. rewrite orb_false_iff, <- Hno1, <- Hno2. split.
      * by intros [-> ->]%app_eq_nil.
      * by intros [-> ->].
Qed.

End Visit.

Lemma scanDirectory_spec depth dir listing st r :
  scanDirectory depth dir listing st = Some r -> scanSpec listing st r.
Proof.
  revert dir listing st r.
  induction depth as [|depth IH]; intros dir listing st r; [done|]. simpl.
  destruct listing as [entries|]; [|by intros [= <-]].
  destruct (visitAll _ _ _ _) as [st'|] eqn:Hvisit; [|done]. intros [= <-].
  destruct (visitAll_spec (scanDirectory depth) IH dir (sortEntries entries) st st'
              (sortEntries_sorted entries) Hvisit)
    as (cs & -> & Hord & Hgood & _ & Hno).
  exists cs. split_and!; [done|done|done|].
  simpl. by rewrite <- existsb_sortEntries.
Qed.

(** *** The scan returns *)

Lemma entryDepth_le_max e (l : list entry) :
  e ∈ l -> entryDepth e <= foldr (fun e d => max (entryDepth e) d) 0 l.
Proof.
  induction l as [|x l IH]; [by intros ?%elem_of_nil|].
  intros [->|He]%elem_of_cons; simpl; [lia|]. specialize (IH He). lia.
Qed.

Lemma visitEntry_total scan dir st e :
  (forall name sub path st0, e = Directory name sub -> is_Some (scan path sub st0)) ->
  is_Some (visitEntry scan dir st e).
Proof.
  intros Hscan. unfold visitEntry.
  destruct (isHidden (entryName e)); [done|].
  destruct (entryIsDir e && isSkippedDir (entryName e)); [done|].
  destruct e as [name|name sub]; simpl.
  - by destruct (isMarkdown name).
  - destruct (Hscan name sub (childPath dir name) (mkScanState [] (mdFiles st)) eq_refl)
      as [r ->]. simpl. destruct r as [?|st1]; [done|].
    by destruct (0 <? length (parentChildren st1)).
Qed.

Lemma visitAll_total scan dir es st :
  (forall e name sub path st0,
      e ∈ es -> e = Directory name sub -> is_Some (scan path sub st0)) ->
  is_Some (visitAll scan dir es st).
Proof.
  revert st. induction es as [|e es IH]; intros st Hscan; [done|].
  rewrite visitAll_cons.
  destruct (visitEntry_total scan dir st e) as [st1 ->].
  { intros name sub path st0 He. apply (Hscan e name sub); [left|done]. }
  simpl. apply IH. intros e' name sub path st0 He'.
  apply (Hscan e'). by right.
Qed.

Lemma scanDirectory_total depth dir listing st :
  listingDepth listing <= depth -> is_Some (scanDirectory depth dir listing st).
Proof.
  revert dir listing st. induction depth as [|depth IH]; intros dir listing st Hd.
  { unfold listingDepth in Hd. destruct listing; simpl in Hd; lia. }
  simpl. destruct listing as [entries|]; [|done].
  unfold listingDepth in Hd.
  destruct (visitAll_total (scanDirectory depth) dir (sortEntries entries) st)
    as [st' ->]; [|done].
  intros e name sub path st0 He ->. apply IH.
  apply (proj1 (elem_of_sortEntries _ _)) in He.
  apply entryDepth_le_max in He. simpl in Hd, He. unfold listingDepth. simpl. lia.
Qed.

Lemma rescanDirectory_total root : is_Some (rescanDirectory root).
Proof. by apply scanDirectory_total. Qed.

(** The list of markdown files is the list of the file nodes of the tree. *)
Lemma rescanDirectory_files root st :
  rescanDirectory root = Some (ScanOk st) ->
  mdFiles st = flat_map nodeFiles (parentChildren st).
Proof.
  intros (cs & -> & _)%scanDirectory_spec. done.
Qed.

End Scanner.

(** ** Claims about the tree scanner *)

(** C8.  Empty-branch pruning.  The scan of the root always returns.  A
    directory with no eligible markdown file anywhere below it is passed
    by the loop of its parent without a node or a file being added, while
    a directory with one gets its node; and in the tree of every scan a
    directory node has at least one child. *)
Theorem empty_branch_pruning root :
  is_Some (rescanDirectory root) /\
  (forall depth dir name sub st,
      entryDepth (Directory name sub) <= depth ->
      hasMarkdown (Directory name sub) = false ->
      visitEntry (scanDirectory depth) dir st (Directory name sub) = Some st) /\
  (forall depth dir name sub st,
      entryDepth (Directory name sub) <= depth ->
      hasMarkdown (Directory name sub) = true ->
      exists node st',
        visitEntry (scanDirectory depth) dir st (Directory name sub) = Some st' /\
        parentChildren st' = parentChildren st ++ [node] /\
        IsDir node = true /\ Name node = name /\ Children node <> []) /\
  (forall st n,
      rescanDirectory root = Some (ScanOk st) ->
      n ∈ flat_map allNodes (parentChildren st) ->
      IsDir n = true -> Children n <> []).
Proof.
  assert (Hrun : forall depth dir name sub st,
             entryDepth (Directory name sub) <= depth ->
             is_Some (visitEntry (scanDirectory depth) dir st (Directory name sub))).
  { intros depth dir name sub st Hd. apply visitEntry_total.
    intros ? ? path st0 [= <- <-]. by apply scanDirectory_total. }
  split_and!.
  - apply rescanDirectory_total.
  - intros depth dir name sub st Hd Hmd.
    destruct (Hrun depth dir name sub st Hd) as [st' Hv].
    rewrite Hv. f_equal.
    apply (visitEntry_spec _ (scanDirectory_spec depth)) in Hv
      as (cs & -> & _ & _ & _ & Hno).
    rewrite (proj2 Hno Hmd). simpl. rewrite !app_nil_r. by destruct st.
  - intros depth dir name sub st Hd Hmd.
    destruct (Hrun depth dir name sub st Hd) as [st' Hv].
    destruct (visitEntry_spec _ (scanDirectory_spec depth) _ _ _ _ Hv)
      as (cs & -> & Hgood & Hkey & Hlen & Hno).
    destruct cs as [|node [|? ?]]; [|clear Hno|simpl in Hlen; lia].
    { rewrite (proj1 Hno eq_refl) in Hmd. discriminate Hmd. }
    exists node. eexists. split; [exact Hv|]. simpl.
    apply Forall_inv in Hkey as [Hdir Hname], Hgood.
    split_and!; [done|done|done|].
    apply (Hgood node); [destruct node; left|done].
  - intros st n (cs & -> & _ & Hgood & _)%scanDirectory_spec Hn Hdir.
    simpl in Hn. apply list_elem_of_In, in_flat_map in Hn as (c & Hc & Hn).
    rewrite Forall_forall in Hgood.
    apply (proj2 (list_elem_of_In _ _)) in Hc, Hn.
    by apply (Hgood c Hc n Hn).
Qed.

(** C9.  Child ordering.  In the tree of every scan, at the root and at
    every node, the children are in order: no file stands before a
    directory, and among the directories and among the files the names do
    not descend in the byte-wise order. *)
Theorem children_ordered root st :
  rescanDirectory root = Some (ScanOk st) ->
  ordered (parentChildren st) /\
  (forall n, n ∈ flat_map allNodes (parentChildren st) -> ordered (Children n)).
Proof.
  intros (cs & -> & Hord & Hgood & _)%scanDirectory_spec. simpl. split; [done|].
  intros n Hn. apply list_elem_of_In, in_flat_map in Hn as (c & Hc & Hn).
  rewrite Forall_forall in Hgood.
  apply (proj2 (list_elem_of_In _ _)) in Hc, Hn.
  by apply (Hgood c Hc n Hn).
Qed.

(** * The build *)

Section BuildFacts.

Variable readFile : gostring -> result gostring.
Variable convert : gostring -> result gostring.

Lemma renderAll_lookup (files : list gostring) (filesData : gmap gostring gostring)
    (filePath : gostring) :
  renderAll readFile convert files filesData !! filePath =
    if decide (filePath ∈ files) then Some (documentFor readFile convert filePath)
    else filesData !! filePath.
Proof.
  revert filesData. induction files as [|f files IH]; intros filesData.
  - destruct (decide (filePath ∈ [])) as [H|H]; [by apply elem_of_nil in H|done].
  - change (renderAll readFile convert (f :: files) filesData)
      with (renderAll readFile convert files
              (<[f := documentFor readFile convert f]> filesData)).
    rewrite IH. destruct (decide (filePath ∈ files)) as [Hin|Hnin].
    + destruct (decide (filePath ∈ f :: files)) as [|Hn]; [done|].
      exfalso. apply Hn. by right.
    + destruct (decide (filePath = f)) as [->|Hne].
      * rewrite lookup_insert_eq.
        destruct (decide (f ∈ f :: files)) as [|Hn]; [done|].
        exfalso. apply Hn. left.
      * rewrite lookup_insert_ne by done.
        destruct (decide (filePath ∈ f :: files)) as [[?|?]%elem_of_cons|]; done.
Qed.

Lemma renderAll_dom (files : list gostring) :
  dom (renderAll readFile convert files ∅) = list_to_set files.
Proof.
  apply set_eq. intros f. rewrite elem_of_dom, renderAll_lookup, elem_of_list_to_set.
  destruct (decide (f ∈ files)); [by split; eauto|].
  rewrite lookup_empty. split; [by intros [? ?]|done].
Qed.

End BuildFacts.

(** Whether [Execute] returns an error depends on where a [Write] fails
    and on the number of pieces only. *)
Lemma executeWrites_error failAt chunks d :
  (executeWrites failAt chunks d).2
  = match failAt with Some k => k <? length chunks | None => false end.
Proof.
  revert failAt d. induction chunks as [|chunk chunks IH]; intros failAt d.
  { by destruct failAt. }
  simpl. destruct failAt as [[|k]|]; [done| |].
  - specialize (IH (Some k) (fileWrite chunk d)). simpl in *.
    destruct (executeWrites (Some k) chunks (fileWrite chunk d)). simpl in *. done.
  - specialize (IH None (fileWrite chunk d)). simpl in *.
    destruct (executeWrites None chunks (fileWrite chunk d)). simpl in *. done.
Qed.

(** C7.  Every markdown file of the list of the scanner has its entry in
    the map of rendered documents, the map has no other entries, and one
    entry per file.  A file that cannot be read, and a file that the
    renderer rejects, gets the error fragment with the message of its own
    error as its entry; every other file gets the HTML of the renderer
    after [fixImagePaths] and [processMermaidBlocks], whatever happens to
    the other files.  [generateHTML] returns an error only when creating
    or writing the artifact fails, never because of a file; when nothing
    fails there, the artifact holds the map with all these entries. *)
Theorem every_file_has_one_document
    (readFile convert : gostring -> result gostring)
    (marshalTree : list FileNode -> gostring)
    (marshalFiles : gmap gostring gostring -> gostring)
    (shellHead shellMiddle shellTail : gostring)
    (tree : list FileNode) (files : list gostring) (old : disk) :
  let filesData := renderAll readFile convert files ∅ in
  let build f := generateHTML readFile convert marshalTree marshalFiles
                   shellHead shellMiddle shellTail f tree files old in
  (forall filePath, filePath ∈ files ->
      filesData !! filePath = Some (documentFor readFile convert filePath)) /\
  dom filesData = list_to_set files /\
  (NoDup files -> size filesData = length files) /\
  (forall filePath e, filePath ∈ files ->
      renderMarkdownFile readFile convert filePath = Err e ->
      filesData !! filePath = Some (errorFragment e)) /\
  (forall filePath html, filePath ∈ files ->
      renderMarkdownFile readFile convert filePath = Ok html ->
      filesData !! filePath = Some html) /\
  (forall filePath e, filePath ∈ files ->
      readFile filePath = Err e ->
      filesData !! filePath = Some (str "<p>渲染错误: " ++ e ++ str "</p>")) /\
  (forall filePath content e, filePath ∈ files ->
      readFile filePath = Ok content -> convert content = Err e ->
      filesData !! filePath = Some (str "<p>渲染错误: " ++ e ++ str "</p>")) /\
  (forall filePath content buf, filePath ∈ files ->
      readFile filePath = Ok content -> convert content = Ok buf ->
      filesData !! filePath
      = Some (processMermaidBlocks (fixImagePaths buf filePath))) /\
  (forall f, (build f).2
             = match f with
               | NoFault => false
               | CreateFails => true
               | WriteFails k => k <? 5
               end) /\
  finalDisk old (build NoFault).1
  = Some (shellHead ++ marshalTree tree ++ shellMiddle
            ++ marshalFiles filesData ++ shellTail).
Proof.
  intros filesData build. unfold build, filesData.
  assert (Hdoc : forall f, f ∈ files ->
            renderAll readFile convert files ∅ !! f
            = Some (documentFor readFile convert f)).
  { intros f Hf. rewrite renderAll_lookup. by destruct (decide (f ∈ files)). }
  split_and!.
  - exact Hdoc.
  - apply renderAll_dom.
  - intros Hnd. rewrite <- size_dom, renderAll_dom. by apply size_list_to_set.
  - intros f e Hf Hr. rewrite Hdoc by done. unfold documentFor. by rewrite Hr.
  - intros f html Hf Hr. rewrite Hdoc by done. unfold documentFor. by rewrite Hr.
  - intros f e Hf Hr. rewrite Hdoc by done.
    unfold documentFor, renderMarkdownFile. by rewrite Hr.
  - intros f content e Hf Hr Hc. rewrite Hdoc by done.
    unfold documentFor, renderMarkdownFile. by rewrite Hr, Hc.
  - intros f content buf Hf Hr Hc. rewrite Hdoc by done.
    unfold documentFor, renderMarkdownFile. by rewrite Hr, Hc.
  - intros f. unfold generateHTML, writeArtifact.
    destruct f as [| |k]; [| done |].
    + pose proof (executeWrites_error None
        (artifactChunks marshalTree marshalFiles shellHead shellMiddle shellTail tree
           (renderAll readFile convert files ∅)) (osCreate old)) as He.
      by destruct (executeWrites None _ _).
    + pose proof (executeWrites_error (Some k)
        (artifactChunks marshalTree marshalFiles shellHead shellMiddle shellTail tree
           (renderAll readFile convert files ∅)) (osCreate old)) as He.
      by destruct (executeWrites (Some k) _ _).
  - unfold generateHTML, artifactChunks, finalDisk. simpl.
    unfold fileWrite. simpl. by rewrite <- !app_assoc.
Qed.

(** ** Writing the artifact *)

Section Artifact.

Implicit Types chunks : list gostring.
Implicit Types acc : gostring.

Lemma executeWrites_prefix failAt chunks acc states err :
  executeWrites failAt chunks (Some acc) = (states, err) ->
  forall d, d ∈ states ->
    exists p, d = Some (acc ++ p) /\ p `prefix_of` concat chunks.
Proof.
  revert failAt acc states err.
  induction chunks as [|chunk chunks IH]; intros failAt acc states err; simpl.
  { intros [= <- <-] d Hd. by apply elem_of_nil in Hd. }
  assert (Hgo : forall failAt',
    (let '(states0, err0) := executeWrites failAt' chunks (fileWrite chunk (Some acc)) in
     (fileWrite chunk (Some acc) :: states0, err0)) = (states, err) ->
    forall d, d ∈ states ->
      exists p, d = Some (acc ++ p) /\ p `prefix_of` chunk ++ concat chunks).
  { intros failAt'. unfold fileWrite. simpl.
    destruct (executeWrites failAt' chunks (Some (acc ++ chunk)))
      as [states0 err0] eqn:Hrest.
    intros [= <- <-] d [->|Hd]%elem_of_cons.
    - exists chunk. split; [done|]. by apply prefix_app_r.
    - destruct (IH _ _ _ _ Hrest d Hd) as (p & -> & Hp).
      exists (chunk ++ p). split; [by rewrite app_assoc|].
      by apply prefix_app.
  }
  destruct failAt as [[|k]|].
  - intros [= <- <-] d Hd. by apply elem_of_nil in Hd.
  - apply Hgo.
  - apply Hgo.
Qed.

Lemma executeWrites_complete chunks acc :
  exists states,
    executeWrites None chunks (Some acc) = (states, false) /\
    default (Some acc) (last states) = Some (acc ++ concat chunks).
Proof.
  revert acc. induction chunks as [|chunk chunks IH]; intros acc; simpl.
  - exists []. by rewrite app_nil_r.
  - unfold fileWrite. simpl. destruct (IH (acc ++ chunk)) as (states & -> & Hlast).
    exists (Some (acc ++ chunk) :: states). split; [done|].
    rewrite last_cons. destruct (last states) as [d|]; simpl in *.
    + by rewrite Hlast, <- app_assoc.
    + by rewrite Hlast, <- app_assoc.
Qed.

End Artifact.

(** C1, as stated, fails: [os.Create] empties the destination before
    anything is written, and a [Write] that fails leaves the beginning of
    the new artifact in place of the previous one. *)
Lemma artifact_write_is_not_atomic : ~ artifactWriteIsAtomic.
Proof.
  intros H.
  destruct (H (WriteFails 1) [str "<html>"; str "[]"; str "</html>"]
              (Some (str "previous artifact"))) as [_ Hfail].
  specialize (Hfail eq_refl). vm_compute in Hfail. discriminate Hfail.
Qed.

(** C1, amended.  When [os.Create] fails the destination is untouched.
    Otherwise the destination is emptied first and then filled piece by
    piece: every state that a reader can find holds a beginning of the new
    artifact, the first of them the empty one, and when no write fails the
    destination ends with the complete new artifact. *)
Theorem artifact_write_truncates_then_fills (f : fault)
    (chunks : list gostring) (old : disk) :
  let states := (writeArtifact f chunks old).1 in
  let err := (writeArtifact f chunks old).2 in
  (f = CreateFails -> err = true /\ finalDisk old states = old) /\
  (f <> CreateFails -> head states = Some (Some [])) /\
  (forall d, d ∈ states -> exists p, d = Some p /\ p `prefix_of` concat chunks) /\
  (f = NoFault -> err = false /\ finalDisk old states = Some (concat chunks)).
Proof.
  simpl. split_and!.
  - by intros ->.
  - intros Hf. destruct f as [| |k]; [|done|]; simpl; unfold osCreate.
    + by destruct (executeWrites None chunks (Some [])).
    + by destruct (executeWrites (Some k) chunks (Some [])).
  - intros d. destruct f as [| |k]; simpl; unfold osCreate.
    + destruct (executeWrites None chunks (Some [])) as [states err] eqn:Hw.
      simpl. intros [->|Hd]%elem_of_cons.
      * exists []. split; [done|]. apply prefix_nil.
      * destruct (executeWrites_prefix _ _ _ _ _ Hw d Hd) as (p & -> & Hp). eauto.
    + by intros ?%elem_of_nil.
    + destruct (executeWrites (Some k) chunks (Some [])) as [states err] eqn:Hw.
      simpl. intros [->|Hd]%elem_of_cons.
      * exists []. split; [done|]. apply prefix_nil.
      * destruct (executeWrites_prefix _ _ _ _ _ Hw d Hd) as (p & -> & Hp). eauto.
  - intros ->. simpl. unfold osCreate.
    destruct (executeWrites_complete chunks []) as (states & -> & Hlast). simpl.
    split; [done|]. unfold finalDisk. rewrite last_cons.
    destruct (last states); simpl in *; done.
Qed.

(** * The lock *)

Section Lock.

Implicit Types es crit post : list event.
Implicit Types m : shared.

Lemma underWriteLock_app held es es' :
  Forall (fun e => isLockEvent e = false) es ->
  underWriteLock held (es ++ es')
  = map (fun e => (e, held)) es ++ underWriteLock held es'.
Proof.
  induction 1 as [|e es He Hes IH]; [done|]. simpl.
  rewrite <- IH. by destruct e.
Qed.

Lemma underWriteLock_nolock held es :
  Forall (fun e => isLockEvent e = false) es ->
  underWriteLock held es = map (fun e => (e, held)) es.
Proof.
  intros H. rewrite <- (app_nil_r es) at 1.
  rewrite underWriteLock_app by done. simpl. by rewrite app_nil_r.
Qed.

Lemma scanEvents_mutations cs :
  Forall (fun e => isMutation e = true) (scanEvents cs).
Proof.
  unfold scanEvents. induction cs as [|c cs IH]; simpl; [constructor|].
  rewrite <- app_assoc. apply Forall_app. split; [|apply Forall_cons; by split].
  apply Forall_forall. intros e (p & -> & _)%list_elem_of_fmap. done.
Qed.

Lemma treeAfter_scanEvents cs pre :
  treeAfter (scanEvents cs) (Some pre) = Some (pre ++ cs).
Proof.
  unfold treeAfter, scanEvents. revert pre.
  induction cs as [|c cs IH]; intros pre; simpl; [by rewrite app_nil_r|].
  rewrite <- app_assoc, foldl_app.
  assert (Hfiles : forall ps t, foldl treeStep t (map EvAppendFile ps) = t).
  { induction ps as [|p ps IHp]; intros t; simpl; [done|apply IHp]. }
  rewrite Hfiles. simpl. rewrite IH. by rewrite <- app_assoc.
Qed.

(** The steps of a build: the lock, the critical section made of updates
    of the shared variables, the unlock, and then either nothing or the
    read of the tree under the read lock followed by steps that neither
    lock nor update. *)
Lemma buildEvents_shape root :
  exists crit tail,
    (buildEvents root = EvLock :: crit ++ [EvUnlock] \/
     buildEvents root
       = EvLock :: crit ++ [EvUnlock] ++ [EvRLock; EvReadTree; EvRUnlock] ++ tail) /\
    Forall (fun e => isMutation e = true) crit /\
    Forall (fun e => e = EvReadFiles \/ exists p, e = EvRender p) tail /\
    forall t, treeAfter crit t = Some (finalChildren root).
Proof.
  unfold buildEvents, finalChildren.
  destruct (rescanDirectory root) as [[st|st]|].
  - exists [EvResetFiles; EvNewTree], []. split_and!; [by left|by repeat constructor|done|done].
  - exists ([EvResetFiles; EvNewTree] ++ scanEvents (parentChildren st)),
           (EvReadFiles :: map EvRender (mdFiles st)).
    split_and!.
    + right. unfold rescanEvents, generateEvents. simpl. by rewrite <- !app_assoc.
    + apply Forall_app. split; [by repeat constructor|apply scanEvents_mutations].
    + constructor; [by left|]. apply Forall_forall.
      intros e (p & -> & _)%list_elem_of_fmap. eauto.
    + intros t. unfold treeAfter. rewrite foldl_app. simpl.
      apply (treeAfter_scanEvents _ []).
  - exists [EvResetFiles; EvNewTree], []. split_and!; [by left|by repeat constructor|done|done].
Qed.

Lemma treeAfter_no_mutation es t :
  Forall (fun e => isMutation e = false) es -> treeAfter es t = t.
Proof.
  unfold treeAfter. intros H. revert t.
  induction H as [|e es He Hes IH]; intros t; simpl; [done|].
  rewrite IH. by destruct e.
Qed.

Lemma fileTree_apply e m : fileTree (apply e m) = treeStep (fileTree m) e.
Proof. by destruct e. Qed.

(** *** A build next to a reader *)

Section Interleaving.

Variable root : option (list entry).
Variable t0 : option (list FileNode).
Variable crit tail : list event.

Local Abbreviation cs := (finalChildren root).
Local Abbreviation unlockAt := (S (length crit)).

(** [withGenerate] tells whether the build goes on to [generateHTML]. *)
Variable withGenerate : bool.

Local Abbreviation post := (generateSteps withGenerate tail).

Hypothesis prog_eq : buildEvents root = EvLock :: crit ++ [EvUnlock] ++ post.
Hypothesis crit_mut : Forall (fun e => isMutation e = true) crit.
Hypothesis tail_plain :
  Forall (fun e => e = EvReadFiles \/ exists p, e = EvRender p) tail.
Hypothesis crit_tree : forall t, treeAfter crit t = Some cs.

(** What stands at each position of the program of the build. *)
Lemma prog_lookup k e :
  buildEvents root !! k = Some e ->
  (k = 0 /\ e = EvLock) \/
  (0 < k < unlockAt /\ isMutation e = true) \/
  (k = unlockAt /\ e = EvUnlock) \/
  (k = unlockAt + 1 /\ e = EvRLock) \/
  (k = unlockAt + 2 /\ e = EvReadTree) \/
  (k = unlockAt + 3 /\ e = EvRUnlock) \/
  (unlockAt + 3 < k /\ (e = EvReadFiles \/ exists p, e = EvRender p)).
Proof.
  rewrite prog_eq. destruct k as [|k]; simpl.
  { intros [= <-]. by left. }
  intros Hk. apply lookup_app_Some in Hk as [Hk|[Hlen Hk]].
  { right. left. split; [apply lookup_lt_Some in Hk; lia|].
    rewrite Forall_forall in crit_mut. apply crit_mut.
    by eapply list_elem_of_lookup_2. }
  destruct (k - length crit) as [|j] eqn:Hj; simpl in Hk.
  { injection Hk as <-. right. right. left. split; [lia|done]. }
  unfold generateSteps in Hk. destruct withGenerate; [|done].
  destruct j as [|[|[|j]]]; simpl in Hk.
  - injection Hk as <-. do 3 right. left. split; [lia|done].
  - injection Hk as <-. do 4 right. left. split; [lia|done].
  - injection Hk as <-. do 5 right. left. split; [lia|done].
  - do 6 right. split; [lia|].
    rewrite Forall_forall in tail_plain. apply tail_plain.
    by eapply list_elem_of_lookup_2.
Qed.

Lemma treeAt_S k e :
  buildEvents root !! k = Some e -> treeAt root t0 (S k) = treeStep (treeAt root t0 k) e.
Proof.
  intros Hk. unfold treeAt, treeAfter.
  rewrite (take_S_r _ _ _ Hk), foldl_app. done.
Qed.

Lemma treeAt_final k : unlockAt < k -> treeAt root t0 k = Some cs.
Proof.
  intros Hk. unfold treeAt. rewrite prog_eq.
  replace (EvLock :: crit ++ [EvUnlock] ++ post)
    with ((EvLock :: crit ++ [EvUnlock]) ++ post)
    by (simpl; by rewrite <- app_assoc).
  rewrite take_app_ge by (simpl; rewrite length_app; simpl; lia).
  unfold treeAfter. rewrite foldl_app. simpl. rewrite foldl_app. simpl.
  fold (treeAfter crit t0). rewrite crit_tree.
  apply treeAfter_no_mutation. apply Forall_take.
  unfold generateSteps. destruct withGenerate; [|constructor].
  repeat (constructor; [done|]).
  eapply Forall_impl; [exact tail_plain|]. by intros e [->|[p ->]].
Qed.

Lemma drop_cons_lookup {A} (l : list A) k x xs :
  drop k l = x :: xs -> l !! k = Some x /\ xs = drop (S k) l.
Proof.
  revert k. induction l as [|y l IH]; intros k; [by rewrite drop_nil|].
  destruct k as [|k]; simpl; [by intros [= -> ->]|]. apply IH.
Qed.

Lemma inv_step s s' : inv root t0 crit s -> step s s' -> inv root t0 crit s'.
Proof.
  intros (k & r & Hb & Hr & Hw & Hn & Ht & Hex & Hsaw) Hstep.
  inversion Hstep as [m e es rd ts fs Hen|m b e es ts fs Hen]; subst; simpl in *.
  - symmetry in Hb. apply drop_cons_lookup in Hb as [Hk ->].
    exists (S k), r. cbn [memory builder reader sawTree sawFiles].
    rewrite fileTree_apply, Ht, <- (treeAt_S _ _ Hk).
    destruct (prog_lookup _ _ Hk)
      as [[-> ->]|[[? He]|[[-> ->]|[[-> ->]|[[-> ->]|[[-> ->]|[? He]]]]]]].
    + apply andb_true_iff in Hen as [_ Hen]. apply Nat.eqb_eq in Hen.
      split_and!; lock_crush.
    + destruct e; try done; split_and!; lock_crush.
    + split_and!; lock_crush.
    + split_and!; lock_crush.
    + split_and!; lock_crush.
    + split_and!; lock_crush.
    + destruct He as [->|[p ->]]; split_and!; lock_crush.
  - symmetry in Hr. apply drop_cons_lookup in Hr as [Hk ->].
    exists k, (S r). cbn [memory builder reader sawTree sawFiles].
    destruct r as [|[|[|r]]]; simpl in Hk; try done; injection Hk as <-.
    + split_and!; lock_crush.
    + assert (Hsaw' : forall t, t ∈ fileTree m :: ts -> t = t0 \/ t = Some cs).
      { intros t [->|Hin]%elem_of_cons; [|by apply Hsaw].
        rewrite Ht. destruct (decide (k = 0)) as [->|Hk0]; [by left|].
        right. apply treeAt_final. lia. }
      split_and!; lock_crush.
    + split_and!; lock_crush.
Qed.

Lemma inv_initial f0 : inv root t0 crit (initialSystem t0 f0 root).
Proof.
  exists 0, 0. unfold builderReads, readerReads. simpl.
  split_and!; [done|done|done| |done|lia|].
  - repeat case_bool_decide; lia.
  - by intros t ?%elem_of_nil.
Qed.

Lemma inv_reachable f0 s : rtc step (initialSystem t0 f0 root) s -> inv root t0 crit s.
Proof.
  intros H.
  apply (rtc_ind_r (R := step) (fun s => inv root t0 crit s) (initialSystem t0 f0 root));
    [apply inv_initial| |done].
  intros ? ? _ Hstep Hinv. by eapply inv_step.
Qed.

End Interleaving.

End Lock.

(** ** Claims about the lock *)

(** C2, as stated, fails in one part: the write lock is not held for the
    replacement of the references only.  [rescanDirectory] takes it before
    the scan and releases it when the scan has returned, so that every
    update that the scan makes of the tree and of the file list happens
    under it. *)
Lemma write_lock_spans_the_scan :
  ~ (forall root, writeLockOnlyForReplacement root).
Proof.
  intros H.
  specialize (H (Some [File (str "a.md")]) (EvAppendFile (str "a.md"))).
  assert (Hin : (EvAppendFile (str "a.md"), true)
                ∈ underWriteLock false (buildEvents (Some [File (str "a.md")]))).
  { vm_compute. do 3 right. left. }
  specialize (H Hin). discriminate H.
Qed.

(** C2, amended.  In every build the shared tree and file list are
    updated only while the write lock is held, and the lock is held for
    the whole scan; no document is rendered while it is held.  A
    goroutine that reads the tree under the read lock while a build runs
    finds the tree published before the build or the complete tree of the
    scan, never a tree under construction. *)
Theorem lock_discipline root :
  (forall e held,
      (e, held) ∈ underWriteLock false (buildEvents root) ->
      (isMutation e = true -> held = true) /\
      (isRender e = true -> held = false)) /\
  (forall t0 f0 s,
      rtc step (initialSystem t0 f0 root) s ->
      forall t, t ∈ sawTree s -> t = t0 \/ t = Some (finalChildren root)).
Proof.
  destruct (buildEvents_shape root) as (crit & tail & Hshape & Hcrit & Htail & Htree).
  assert (Hcl : Forall (fun e => isLockEvent e = false) crit).
  { eapply Forall_impl; [exact Hcrit|]. by intros [] ?. }
  assert (Hpl : Forall (fun e => isLockEvent e = false)
                  ([EvRLock; EvReadTree; EvRUnlock] ++ tail)).
  { repeat (constructor; [done|]).
    eapply Forall_impl; [exact Htail|]. by intros e [->|[p ->]]. }
  split.
  - intros e held Hin.
    assert (Hcases : (e = EvLock /\ held = true) \/
                     (e ∈ crit /\ held = true) \/
                     (e = EvUnlock /\ held = true) \/
                     (e ∈ [EvRLock; EvReadTree; EvRUnlock] ++ tail /\ held = false)).
    { destruct Hshape as [Hs|Hs]; rewrite Hs in Hin; simpl in Hin;
        apply elem_of_cons in Hin as [[= -> ->]|Hin]; eauto;
        rewrite underWriteLock_app in Hin by done;
        apply elem_of_app in Hin as [Hin|Hin].
      - apply list_elem_of_fmap in Hin as (e' & [= -> ->] & ?). eauto.
      - simpl in Hin. apply list_elem_of_singleton in Hin as [= -> ->]. eauto.
      - apply list_elem_of_fmap in Hin as (e' & [= -> ->] & ?). eauto.
      - change ([EvUnlock] ++ [EvRLock; EvReadTree; EvRUnlock] ++ tail)
          with (EvUnlock :: ([EvRLock; EvReadTree; EvRUnlock] ++ tail)) in Hin.
        cbn [underWriteLock] in Hin.
        apply elem_of_cons in Hin as [[= -> ->]|Hin]; [eauto|].
        assert (Htl : Forall (fun e => isLockEvent e = false) tail)
          by (eapply Forall_impl; [exact Htail|]; by intros ? [->|[p ->]]).
        rewrite underWriteLock_nolock in Hin by exact Htl.
        do 3 right. simpl.
        repeat (apply elem_of_cons in Hin as [[= -> ->]|Hin];
                [split; [set_solver|done]|]).
        apply list_elem_of_fmap in Hin as (e' & [= -> ->] & ?).
        split; [set_solver|done]. }
    destruct Hcases as [[-> ->]|[[He ->]|[[-> ->]|[He ->]]]]; try done.
    + split; [done|]. rewrite Forall_forall in Hcrit.
      specialize (Hcrit e He). by destruct e.
    + split; [|done]. simpl in He.
      repeat (apply elem_of_cons in He as [->|He]; [done|]).
      rewrite Forall_forall in Htail. by destruct (Htail e He) as [->|[p ->]].
  - intros t0 f0 s Hrun.
    destruct Hshape as [Hs|Hs].
    + apply (inv_reachable root t0 crit tail false) in Hrun;
        [|by rewrite Hs|done|done|done].
      destruct Hrun as (k & r & _ & _ & _ & _ & _ & _ & Hsaw). exact Hsaw.
    + apply (inv_reachable root t0 crit tail true) in Hrun;
        [|by rewrite Hs|done|done|done].
      destruct Hrun as (k & r & _ & _ & _ & _ & _ & _ & Hsaw). exact Hsaw.
Qed.

(** ** Claims about the diagram blocks of a document *)

(** C6.  In a rendered document (stretches of HTML that contain no opening
    marker, diagram blocks whose text has [<] and the double quote
    escaped), every block [<pre><code class="language-mermaid">...</code></pre>]
    or [<pre><code class="mermaid">...</code></pre>] is replaced by
    [<div class="mermaid">...</div>] around the text of the block with
    [&lt;], [&gt;] and [&amp;] decoded and the white space around it
    trimmed, the rest of the document being kept; the block rendered from
    [A --> B] becomes the wrapper of the unescaped [A --> B]. *)
Theorem diagram_blocks_replaced (d : list item) (tail : gostring) :
  Forall wfItem d -> cleanText tail ->
  processMermaidBlocks (renderDoc d tail) = renderDoc (map setDone d) tail /\
  (forall it, renderFence (setDone it)
              = divOpen ++ TrimSpace (decodeEntities (itemBody it)) ++ divClose) /\
  processMermaidBlocks
    (lit "<pre><code class='language-mermaid'>A --&gt; B" ++ newline
       ++ lit "</code></pre>" ++ newline)
  = lit "<div class='mermaid'>A --> B</div>" ++ newline.
Proof.
  intros Hwf Htail. split_and!.
  - by apply processMermaidBlocks_renderDoc.
  - done.
  - vm_compute. reflexivity.
Qed.

Lemma diagram_blocks_replaced_witness :
  processMermaidBlocks
    (lit "<p>x</p>"
       ++ lit "<pre><code class='language-mermaid'>graph TD" ++ newline
       ++ str "A --&gt; B &amp;amp; C" ++ newline ++ str "</code></pre>"
       ++ newline
       ++ lit "<pre><code class='mermaid'> D </code></pre>"
       ++ lit "<p>end</p>")
  = lit "<p>x</p>"
       ++ lit "<div class='mermaid'>graph TD" ++ newline
       ++ str "A --> B &amp; C</div>"
       ++ newline
       ++ lit "<div class='mermaid'>D</div>"
       ++ lit "<p>end</p>".
Proof.
  refine (proj1 (diagram_blocks_replaced
    [ fenced (lit "<p>x</p>") true
        (str "graph TD" ++ newline ++ str "A --&gt; B &amp;amp; C" ++ newline);
      fenced newline false (str " D ") ]
    (lit "<p>end</p>") _ _)).
  - repeat constructor; by_compute.
  - split; reflexivity.
Defined.

(** ** Witnesses for the scanner *)

Lemma children_ordered_witness :
  ordered (parentChildren sampleScan) /\
  (forall n, n ∈ flat_map allNodes (parentChildren sampleScan) -> ordered (Children n)).
Proof.
  apply (children_ordered (Some sampleVault) sampleScan).
  vm_compute. reflexivity.
Defined.

(** * Further properties of the post-processor *)

(** ** Documents of many image tags *)

Section TagsDoc.

Implicit Types ts : list (gostring * gostring * gostring).

Lemma length_tagsDoc ts tail : length ts <= length (tagsDoc ts tail).
Proof.
  induction ts as [|[[pre P] X] ts IH]; [simpl; lia|]. cbn [tagsDoc length].
  rewrite !length_app, length_imgTag. lia.
Qed.

Lemma rewriteTag_finalTag mdDir pre P X :
  pre ++ rewriteTag mdDir (imgTag P X) P = finalTag mdDir (pre, P, X).
Proof.
  simpl. destruct (isRelative P) eqn:Hr.
  - by rewrite rewriteTag_relative.
  - by rewrite rewriteTag_absolute.
Qed.

(** The loop on the first [n] tags of a document of plain tags. *)
Lemma fixImageLoop_tagsDoc n fuel mdDir ts tail result processed :
  Forall plainTag ts -> n <= length ts -> processed + n <= maxIterations ->
  fixImageLoop (n + fuel) mdDir (tagsDoc ts tail) result processed
  = fixImageLoop fuel mdDir (tagsDoc (drop n ts) tail)
      (result ++ concat (map (finalTag mdDir) (take n ts))) (processed + n).
Proof.
  revert ts result processed.
  induction n as [|n IH]; intros ts result processed Hts Hn Hp.
  { simpl. by rewrite ?drop_0, ?app_nil_r, ?Nat.add_0_r. }
  destruct ts as [|[[pre P] X] ts]; [simpl in Hn; lia|].
  apply Forall_cons in Hts as [(Hi & HP & HX & Hm) Hts].
  change (S n + fuel) with (S (n + fuel)).
  change (tagsDoc ((pre, P, X) :: ts) tail) with (pre ++ imgTag P X ++ tagsDoc ts tail).
  rewrite fixImageLoop_tag by (done || lia). rewrite Hm.
  rewrite IH by (done || simpl in Hn; lia).
  rewrite rewriteTag_finalTag.
  change (take (S n) ((pre, P, X) :: ts)) with ((pre, P, X) :: take n ts).
  change (drop (S n) ((pre, P, X) :: ts)) with (drop n ts).
  rewrite fmap_cons. change (concat (?a :: ?l)) with (a ++ concat l).
  f_equal; [|lia].
  cbn [concat]. by rewrite <- !app_assoc.
Qed.

End TagsDoc.

(** X1.  In a document of fewer than 1000 complete image tags that do not
    carry the click marker, every tag is rewritten: a relative path is
    resolved against the directory of the file, every tag gains the class
    and the click handler, and the text between the tags is kept. *)
Theorem fixImagePaths_rewrites_every_tag ts tail mdFilePath :
  Forall plainTag ts -> length ts < maxIterations ->
  Index tail imgOpen = None ->
  fixImagePaths (tagsDoc ts tail) mdFilePath
  = concat (map (finalTag (mdDirOf mdFilePath)) ts) ++ tail.
Proof.
  intros Hts Hlen Htail.
  unfold fixImagePaths, fixImagePathsWithin.
  pose proof (length_tagsDoc ts tail) as Hl.
  replace (S (length (tagsDoc ts tail)))
    with (length ts + S (length (tagsDoc ts tail) - length ts)) by lia.
  rewrite fixImageLoop_tagsDoc by (done || lia).
  rewrite drop_all, take_ge by lia. simpl tagsDoc.
  rewrite fixImageLoop_done by (done || lia). simpl.
  unfold fixImageResult. simpl.
  destruct (Nat.ltb_spec (length ts) maxIterations); [done|lia].
Qed.

Lemma fixImagePaths_rewrites_every_tag_witness :
  let ts := [ (lit "<p>", str "a.png", []);
              (str " and ", str "/b.png", lit " alt='b'") ] in
  fixImagePaths (tagsDoc ts (str "</p>")) notesSubPage
  = concat (map (finalTag (mdDirOf notesSubPage)) ts) ++ str "</p>".
Proof.
  apply (fixImagePaths_rewrites_every_tag
           [ (lit "<p>", str "a.png", []);
             (str " and ", str "/b.png", lit " alt='b'") ]
           (str "</p>") notesSubPage).
  - repeat (apply Forall_cons; split;
              [split_and!; [reflexivity|by_compute|by_compute|reflexivity]|]).
    apply Forall_nil_2.
  - unfold maxIterations. simpl. lia.
  - reflexivity.
Defined.

(** X2.  A document of 1000 or more such tags comes back as it was: the
    loop stops at the ceiling and the function returns its input, with no
    tag rewritten. *)
Theorem fixImagePaths_gives_up_at_ceiling ts tail mdFilePath :
  Forall plainTag ts -> maxIterations <= length ts ->
  fixImagePaths (tagsDoc ts tail) mdFilePath = tagsDoc ts tail.
Proof.
  intros Hts Hlen.
  unfold fixImagePaths, fixImagePathsWithin.
  pose proof (length_tagsDoc ts tail) as Hl.
  replace (S (length (tagsDoc ts tail)))
    with (maxIterations + S (length (tagsDoc ts tail) - maxIterations)) by lia.
  rewrite fixImageLoop_tagsDoc by (done || lia).
  rewrite fixImageLoop_ceiling by lia. simpl.
  unfold fixImageResult. simpl. done.
Qed.

Lemma fixImagePaths_gives_up_at_ceiling_witness :
  let ts := replicate 1000 (lit "<p>", str "a.png", lit " alt='a'") in
  fixImagePaths (tagsDoc ts (str "</p>")) notesSubPage = tagsDoc ts (str "</p>").
Proof.
  apply (fixImagePaths_gives_up_at_ceiling
           (replicate 1000 (lit "<p>", str "a.png", lit " alt='a'"))
           (str "</p>") notesSubPage).
  - apply Forall_replicate.
    split_and!; [reflexivity|by_compute|by_compute|reflexivity].
  - rewrite length_replicate. unfold maxIterations. lia.
Defined.

(** ** The resolved path *)

Section Backslash.

Lemma replaceAllFrom_byte_gone fuel (s new : gostring) c :
  length s <= fuel -> c ∉ new -> c ∉ replaceAllFrom fuel s [c] new.
Proof.
  revert s. induction fuel as [|fuel IH]; intros s Hlen Hnew.
  { destruct s; [apply not_elem_of_nil|simpl in Hlen; lia]. }
  simpl. destruct (Index s [c]) as [j|] eqn:Hj.
  - apply Index_byte_Some in Hj as (pre & post & -> & Hpre & <-).
    rewrite take_app_length.
    replace (drop (length pre + 1) (pre ++ c :: post)) with post
      by (rewrite (cons_middle c pre post), app_assoc;
          symmetry; apply drop_app_len; rewrite length_app; simpl; lia).
    rewrite !not_elem_of_app. split_and!; [done|done|].
    apply IH; [|done]. rewrite length_app in Hlen. simpl in Hlen. lia.
  - by apply Index_byte_None.
Qed.

End Backslash.

(** X3.  The path written into a relative image reference holds no
    backslash, whatever the directory and the reference are. *)
Theorem resolveImagePath_no_backslash mdDir imgPath :
  "\"%char ∉ resolveImagePath mdDir imgPath.
Proof.
  unfold resolveImagePath.
  match goal with |- context [ReplaceAll ?f _ _] => set (fullPath := f) end.
  assert (H : "\"%char ∉ ReplaceAll fullPath (str "\") (str "/")).
  { unfold ReplaceAll. change (str "\") with ["\"%char].
    apply replaceAllFrom_byte_gone; [lia|]. by_compute. }
  cbv zeta. fold fullPath.
  destruct (HasPrefix (ReplaceAll _ _ _) _); [|exact H].
  intros Hin. apply H. eapply subseteq_drop, Hin.
Qed.

(** ** The diagram-block processor, once more *)

Section MermaidMore.

Lemma mermaidLoop_stable fuel content r :
  mermaidLoop fuel content = Some r -> mermaidStep r = None.
Proof.
  revert content. induction fuel as [|fuel IH]; intros content; [done|].
  simpl. destruct (mermaidStep content) as [content'|] eqn:E; [apply IH|].
  by intros [= <-].
Qed.

Lemma processMermaidBlocks_stable htmlContent :
  mermaidStep (processMermaidBlocks htmlContent) = None.
Proof.
  unfold processMermaidBlocks.
  destruct (mermaidLoop_total (S (length htmlContent)) htmlContent) as [r Hr]; [lia|].
  rewrite Hr. simpl. by eapply mermaidLoop_stable.
Qed.

End MermaidMore.

Lemma ReplaceAll_nonempty (s old new : gostring) :
  old <> [] -> ReplaceAll s old new = replaceAllFrom (length s) s old new.
Proof. by destruct old. Qed.

Section ReplaceAllEncoded.

Variables enc dec : ascii -> gostring.
Variables old new : gostring.
Hypothesis old_nonempty : old <> [].
Hypothesis enc_cases : forall c (b : gostring),
  (enc c = old /\ dec c = new) \/
  (dec c = enc c /\
   Index (enc c ++ b) old = (fun n => length (enc c) + n) <$> Index b old).

Lemma replaceAllFrom_skip fuel (a b : gostring) :
  Index (a ++ b) old = (fun n => length a + n) <$> Index b old ->
  replaceAllFrom fuel (a ++ b) old new = a ++ replaceAllFrom fuel b old new.
Proof.
  intros Hi. destruct fuel as [|fuel]; [done|]. simpl. rewrite Hi.
  destruct (Index b old) as [j|]; [|done]. simpl.
  rewrite take_app_add, <- Nat.add_assoc, drop_app_add. by rewrite <- app_assoc.
Qed.

Lemma replaceAllFrom_hit fuel (b : gostring) :
  replaceAllFrom (S fuel) (old ++ b) old new = new ++ replaceAllFrom fuel b old new.
Proof.
  simpl.
  assert (Index (old ++ b) old = Some 0) as ->.
  { apply (Index_app_here [] old b). intros k Hk. simpl in Hk. lia. }
  simpl. by rewrite drop_app_length.
Qed.

Lemma replaceAllFrom_flat_map fuel (s : gostring) :
  length s <= fuel ->
  replaceAllFrom fuel (flat_map enc s) old new = flat_map dec s.
Proof.
  revert fuel. induction s as [|c s IH]; intros fuel Hlen.
  { simpl. destruct fuel; [done|]. simpl.
    destruct old; [done|]. done. }
  destruct fuel as [|fuel]; [simpl in Hlen; lia|]. cbn [flat_map].
  destruct (enc_cases c (flat_map enc s)) as [[-> ->]|[-> Hskip]].
  - rewrite replaceAllFrom_hit, IH by (simpl in Hlen; lia). done.
  - rewrite replaceAllFrom_skip by done. rewrite IH by (simpl in Hlen; lia). done.
Qed.

Lemma length_flat_map_enc (s : gostring) :
  (forall c, 0 < length (enc c)) -> length s <= length (flat_map enc s).
Proof.
  intros H. induction s as [|c s IH]; simpl; [lia|].
  rewrite length_app. specialize (H c). lia.
Qed.

Lemma ReplaceAll_flat_map (s : gostring) :
  (forall c, 0 < length (enc c)) ->
  ReplaceAll (flat_map enc s) old new = flat_map dec s.
Proof.
  intros H. rewrite ReplaceAll_nonempty by done.
  apply replaceAllFrom_flat_map. by apply length_flat_map_enc.
Qed.

End ReplaceAllEncoded.

Section Decode.

(** A chunk that begins like [old] but differs from it before its end,
    and a chunk of one other byte, hold no beginning of [old]. *)
Lemma Index_skip_entity (o : ascii) (rest m b : gostring) :
  o ∉ rest -> HasPrefix (o :: rest ++ b) (o :: m) = false ->
  Index ((o :: rest) ++ b) (o :: m)
  = (fun n => length (o :: rest) + n) <$> Index b (o :: m).
Proof.
  intros Ho Hp. change ((o :: rest) ++ b) with (o :: rest ++ b).
  rewrite Index_cons, Hp, Index_app_skip_first by done.
  by destruct (Index b (o :: m)).
Qed.

Lemma Index_skip_byte (c o : ascii) (m b : gostring) :
  c <> o ->
  Index ([c] ++ b) (o :: m) = (fun n => length [c] + n) <$> Index b (o :: m).
Proof.
  intros Hc. apply Index_app_skip_first.
  intros ->%list_elem_of_singleton. done.
Qed.

Lemma escapeByte_nonempty c : 0 < length (escapeByte c).
Proof.
  unfold escapeByte. repeat (destruct (Ascii.eqb _ _); [simpl; lia|]). simpl. lia.
Qed.

Lemma escapeByte1_nonempty c : 0 < length (escapeByte1 c).
Proof.
  unfold escapeByte1. destruct (Ascii.eqb _ _); [simpl; lia|].
  apply escapeByte_nonempty.
Qed.

Lemma escapeByte2_nonempty c : 0 < length (escapeByte2 c).
Proof. unfold escapeByte2. destruct (Ascii.eqb _ _); simpl; lia. Qed.

Lemma decode_lt (s : gostring) :
  ReplaceAll (escapeHTML s) (str "&lt;") (str "<") = flat_map escapeByte1 s.
Proof.
  apply ReplaceAll_flat_map; [done| |apply escapeByte_nonempty].
  intros c b. unfold escapeByte1, escapeByte.
  destruct (Ascii.eqb_spec c "&") as [->|Hamp].
  { right. split; [done|].
    apply (Index_skip_entity "&" (str "amp;") (str "lt;") b); [by_compute|done]. }
  destruct (Ascii.eqb_spec c "<") as [->|Hlt]; [by left|].
  destruct (Ascii.eqb_spec c ">") as [->|Hgt].
  { right. split; [done|].
    apply (Index_skip_entity "&" (str "gt;") (str "lt;") b); [by_compute|done]. }
  right. split; [done|]. by apply (Index_skip_byte c "&" (str "lt;") b).
Qed.

Lemma decode_gt (s : gostring) :
  ReplaceAll (flat_map escapeByte1 s) (str "&gt;") (str ">") = flat_map escapeByte2 s.
Proof.
  apply ReplaceAll_flat_map; [done| |apply escapeByte1_nonempty].
  intros c b. unfold escapeByte2, escapeByte1, escapeByte.
  destruct (Ascii.eqb_spec c "<") as [->|Hlt].
  { right. split; [done|]. by apply (Index_skip_byte "<" "&" (str "gt;") b). }
  destruct (Ascii.eqb_spec c "&") as [->|Hamp].
  { right. split; [done|].
    apply (Index_skip_entity "&" (str "amp;") (str "gt;") b); [by_compute|done]. }
  destruct (Ascii.eqb_spec c ">") as [->|Hgt]; [by left|].
  right. split; [done|]. by apply (Index_skip_byte c "&" (str "gt;") b).
Qed.

Lemma decode_amp (s : gostring) :
  ReplaceAll (flat_map escapeByte2 s) (str "&amp;") (str "&") = s.
Proof.
  rewrite (ReplaceAll_flat_map escapeByte2 (fun c => [c]));
    [|done| |apply escapeByte2_nonempty].
  - induction s as [|c s IH]; simpl; [done|]. by rewrite IH.
  - intros c b. unfold escapeByte2.
    destruct (Ascii.eqb_spec c "&") as [->|Hamp]; [by left|].
    right. split; [done|]. by apply (Index_skip_byte c "&" (str "amp;") b).
Qed.

End Decode.

(** X4.  Running the diagram-block processor on its own output changes
    nothing, and no block that the loop would take up is left in the
    output: an opening marker that it finds has no closing tag after it. *)
Theorem processMermaidBlocks_idempotent (htmlContent : gostring) :
  let out := processMermaidBlocks htmlContent in
  processMermaidBlocks out = out /\
  (forall start, Index out mermaidLong = Some start ->
                 Index (drop start out) endTag = None) /\
  (Index out mermaidLong = None ->
   forall start, Index out mermaidShort = Some start ->
                 Index (drop start out) endTag = None).
Proof.
  intros out. pose proof (processMermaidBlocks_stable htmlContent) as Hs.
  fold out in Hs. split_and!.
  - by rewrite processMermaidBlocks_step, Hs.
  - intros start Hl. rewrite mermaidStep_unfold, Hl in Hs.
    by destruct (Index (drop start out) endTag).
  - intros Hl start Hsh. rewrite mermaidStep_unfold, Hl, Hsh in Hs.
    by destruct (Index (drop start out) endTag).
Qed.

(** X5.  An opening marker without [</code></pre>] after it ends the loop
    at once: when the first long marker is not closed, the document comes
    back unchanged, complete short blocks before it included. *)
Theorem processMermaidBlocks_unclosed_block (content : gostring) (start : nat) :
  Index content mermaidLong = Some start ->
  Index (drop start content) endTag = None ->
  processMermaidBlocks content = content.
Proof.
  intros Hl He. by rewrite processMermaidBlocks_step, mermaidStep_unfold, Hl, He.
Qed.

Lemma processMermaidBlocks_unclosed_block_witness :
  let content :=
    lit "<pre><code class='mermaid'>graph TD</code></pre><pre><code class='language-mermaid'>A" in
  processMermaidBlocks content = content.
Proof.
  apply (processMermaidBlocks_unclosed_block _ 48); reflexivity.
Defined.

(** X6.  [decodeEntities] undoes the escaping of [&], [<] and [>], once:
    decoding [&amp;] last keeps an escaped entity such as [&amp;lt;] from
    being decoded twice. *)
Theorem decodeEntities_escapeHTML (s : gostring) :
  decodeEntities (escapeHTML s) = s.
Proof. unfold decodeEntities. by rewrite decode_lt, decode_gt, decode_amp. Qed.

Lemma not_elem_of_escapeHTML (s : gostring) c :
  (forall x, x ∈ s -> c ∉ escapeByte x) -> c ∉ escapeHTML s.
Proof.
  intros H Hin. apply list_elem_of_In, in_flat_map in Hin as (x & Hx & Hin).
  apply (proj2 (list_elem_of_In _ _)) in Hx, Hin. by apply (H x).
Qed.

Lemma escapeHTML_escaped (s : gostring) : dq ∉ s -> escaped (escapeHTML s).
Proof.
  intros Hs. split.
  - apply not_elem_of_escapeHTML. intros x _. unfold escapeByte.
    destruct (Ascii.eqb_spec x "&"); [by_compute|].
    destruct (Ascii.eqb_spec x "<"); [by_compute|].
    destruct (Ascii.eqb_spec x ">"); [by_compute|].
    intros Heq%list_elem_of_singleton. congruence.
  - apply not_elem_of_escapeHTML. intros x Hx. unfold escapeByte.
    destruct (Ascii.eqb_spec x "&"); [by_compute|].
    destruct (Ascii.eqb_spec x "<"); [by_compute|].
    destruct (Ascii.eqb_spec x ">"); [by_compute|].
    intros Heq%list_elem_of_singleton. by subst x.
Qed.

(** X7.  A diagram block whose text [s] (without double quotes) was
    escaped by the renderer becomes the wrapper around [s] with the white
    space around it trimmed, between the unchanged rest of the document. *)
Theorem escaped_diagram_restored (text tail s : gostring) (long : bool) :
  cleanText text -> cleanText tail -> dq ∉ s ->
  processMermaidBlocks (text ++ (markerOf long ++ escapeHTML s ++ endTag) ++ tail)
  = text ++ (divOpen ++ TrimSpace s ++ divClose) ++ tail.
Proof.
  intros Htext Htail Hs.
  pose proof (processMermaidBlocks_renderDoc
                [fenced text long (escapeHTML s)] tail) as H.
  simpl in H. unfold renderFence, mermaidDivOf in H. simpl in H.
  rewrite decodeEntities_escapeHTML in H. apply H; [|done].
  constructor; [|constructor]. split; [done|]. by apply escapeHTML_escaped.
Qed.

Lemma escaped_diagram_restored_witness :
  processMermaidBlocks
    (lit "<h1>Flow</h1>"
       ++ (markerOf true ++ escapeHTML (str "A --> B & C") ++ endTag)
       ++ str "<p>end</p>")
  = lit "<h1>Flow</h1>"
      ++ (divOpen ++ TrimSpace (str "A --> B & C") ++ divClose)
      ++ str "<p>end</p>".
Proof.
  apply (escaped_diagram_restored (lit "<h1>Flow</h1>") (str "<p>end</p>")
           (str "A --> B & C") true).
  - split; reflexivity.
  - split; reflexivity.
  - by_compute.
Defined.

(** * Further properties of the scanner and the watcher *)

Section Paths.

Implicit Types name e dir : gostring.
Implicit Types ns trail : list gostring.

Lemma splitOn_nosep e : FilePath.sep ∉ e -> splitOn FilePath.sep e = [e].
Proof.
  induction e as [|c e IH]; [done|]. intros [Hc He]%not_elem_of_cons.
  simpl. destruct (Ascii.eqb_spec c FilePath.sep); [done|]. by rewrite IH.
Qed.

Lemma splitOn_app_nosep e s :
  FilePath.sep ∉ e ->
  splitOn FilePath.sep (e ++ FilePath.sep :: s) = e :: splitOn FilePath.sep s.
Proof.
  induction e as [|c e IH]; intros He.
  - done.
  - apply not_elem_of_cons in He as [Hc He]. simpl.
    destruct (Ascii.eqb_spec c FilePath.sep); [done|]. by rewrite IH.
Qed.

Lemma splitOn_JoinStrings ns :
  ns <> [] -> Forall validName ns ->
  splitOn FilePath.sep (JoinStrings ns [FilePath.sep]) = ns.
Proof.
  induction ns as [|e ns IH]; [done|]. intros _ [(_ & He & _) Hns]%Forall_cons.
  destruct ns as [|e' ns]; [by apply splitOn_nosep|].
  change (JoinStrings (e :: e' :: ns) [FilePath.sep])
    with (e ++ FilePath.sep :: JoinStrings (e' :: ns) [FilePath.sep]).
  rewrite splitOn_app_nosep by done. by rewrite IH.
Qed.

Lemma cleanElems_valid rooted ns ups kept :
  Forall validName ns ->
  FilePath.cleanElems rooted ns ups kept = (ups, rev ns ++ kept).
Proof.
  revert kept. induction ns as [|e ns IH]; intros kept; [done|].
  intros [(He & _ & Hd & Hdd) Hns]%Forall_cons. simpl.
  rewrite !bool_decide_eq_false_2 by done. simpl.
  rewrite IH by done. by rewrite <- app_assoc.
Qed.

Lemma JoinStrings_nonempty ns :
  ns <> [] -> Forall validName ns ->
  exists c s, JoinStrings ns [FilePath.sep] = c :: s /\ c <> FilePath.sep.
Proof.
  destruct ns as [|e ns]; [done|]. intros _ [(He & Hs & _) _]%Forall_cons.
  destruct e as [|c e]; [done|]. apply not_elem_of_cons in Hs as [Hc _].
  destruct ns; simpl; eauto.
Qed.

Lemma Clean_JoinStrings ns :
  ns <> [] -> Forall validName ns ->
  FilePath.Clean (JoinStrings ns [FilePath.sep]) = JoinStrings ns [FilePath.sep].
Proof.
  intros Hne Hns. unfold FilePath.Clean.
  destruct (JoinStrings_nonempty ns Hne Hns) as (c & s & E & Hc).
  rewrite splitOn_JoinStrings by done. rewrite E.
  rewrite (proj2 (Ascii.eqb_neq _ _)) by done.
  rewrite cleanElems_valid by done. simpl. rewrite app_nil_r, rev_involutive, E.
  done.
Qed.

Lemma JoinStrings_cons e ns (sep : gostring) :
  ns <> [] -> JoinStrings (e :: ns) sep = e ++ sep ++ JoinStrings ns sep.
Proof. by destruct ns. Qed.

Lemma JoinStrings_snoc ns name :
  ns <> [] ->
  JoinStrings (ns ++ [name]) [FilePath.sep]
  = JoinStrings ns [FilePath.sep] ++ [FilePath.sep] ++ name.
Proof.
  induction ns as [|e ns IH]; [done|]. intros _.
  destruct ns as [|e' ns]; [done|].
  rewrite <- app_comm_cons.
  rewrite (JoinStrings_cons e ((e' :: ns) ++ [name])) by done.
  rewrite IH by done.
  rewrite (JoinStrings_cons e (e' :: ns)) by done.
  by rewrite <- !app_assoc.
Qed.

Lemma dirOf_not_dot trail :
  trail <> [] -> Forall validName trail -> dirOf trail <> str ".".
Proof.
  intros Hne Hv. destruct trail as [|e [|e' ns]]; [done| |].
  - apply Forall_cons in Hv as [(_ & _ & Hd & _) _]. done.
  - unfold dirOf. rewrite JoinStrings_cons by done.
    apply Forall_cons in Hv as [(He & _) _].
    intros H%(f_equal length). rewrite !length_app in H. simpl in H.
    destruct e; [done|simpl in H; lia].
Qed.

(** The path that the scanner gives to a child is the joined names. *)
Lemma childPath_dirOf trail name :
  Forall validName (trail ++ [name]) ->
  childPath (dirOf trail) name = dirOf (trail ++ [name]).
Proof.
  intros Hv. pose proof Hv as [Ht Hn]%Forall_app. unfold childPath.
  destruct trail as [|e ns].
  - rewrite bool_decide_eq_true_2 by done. done.
  - rewrite bool_decide_eq_false_2 by (by apply dirOf_not_dot).
    assert (dirOf ((e :: ns) ++ [name]) = JoinStrings ((e :: ns) ++ [name]) [FilePath.sep])
      as -> by done.
    rewrite <- (Clean_JoinStrings ((e :: ns) ++ [name])) by done.
    rewrite JoinStrings_snoc by done.
    unfold FilePath.Join, dirOf.
    destruct (JoinStrings_nonempty (e :: ns)) as (c & s & -> & _); done.
Qed.

End Paths.

Section PathsMore.

Implicit Types name e dir : gostring.
Implicit Types ns trail : list gostring.

Lemma afterLastSep_nosep name :
  FilePath.sep ∉ name -> FilePath.afterLastSep name = 0.
Proof.
  induction name as [|c name IH]; [done|]. intros [Hc Hn]%not_elem_of_cons.
  simpl. rewrite IH by done. simpl.
  by rewrite (proj2 (Ascii.eqb_neq _ _)).
Qed.

Lemma afterLastSep_app pre name :
  FilePath.sep ∉ name ->
  FilePath.afterLastSep (pre ++ FilePath.sep :: name) = S (length pre).
Proof.
  intros Hn. induction pre as [|c pre IH].
  - simpl. by rewrite afterLastSep_nosep.
  - simpl. rewrite IH. done.
Qed.

Lemma stripTrailingSeps_id fuel (path : gostring) c :
  last path = Some c -> c <> FilePath.sep ->
  FilePath.stripTrailingSeps fuel path = path.
Proof.
  intros Hl Hc. destruct fuel; [done|]. simpl. rewrite Hl.
  by rewrite (proj2 (Ascii.eqb_neq _ _)).
Qed.

Lemma last_valid name :
  name <> [] -> FilePath.sep ∉ name ->
  exists c, last name = Some c /\ c <> FilePath.sep.
Proof.
  intros Hne Hs. destruct (last name) as [c|] eqn:Hl.
  - exists c. split; [done|]. intros ->. apply Hs.
    apply last_Some in Hl as [l' ->]. apply elem_of_app. right. left.
  - by apply last_None in Hl.
Qed.

Lemma Base_name name : validName name -> FilePath.Base name = name.
Proof.
  intros (Hne & Hs & _). unfold FilePath.Base.
  destruct (last_valid name Hne Hs) as (c & Hl & Hc).
  destruct name as [|x name]; [done|].
  rewrite (stripTrailingSeps_id _ _ c) by done.
  rewrite afterLastSep_nosep by done. done.
Qed.

Lemma Base_snoc pre name :
  validName name -> FilePath.Base (pre ++ FilePath.sep :: name) = name.
Proof.
  intros (Hne & Hs & _). unfold FilePath.Base.
  destruct (last_valid name Hne Hs) as (c & Hl & Hc).
  destruct (pre ++ FilePath.sep :: name) as [|x p] eqn:E;
    [by destruct pre|]. rewrite <- E.
  rewrite (stripTrailingSeps_id _ _ c);
    [|by rewrite last_app, last_cons, Hl|done].
  rewrite afterLastSep_app by done.
  rewrite (cons_middle FilePath.sep pre name), app_assoc.
  rewrite drop_app_len by (rewrite length_app; simpl; lia).
  by destruct name.
Qed.

Lemma Base_dirOf trail name :
  Forall validName (trail ++ [name]) ->
  FilePath.Base (dirOf (trail ++ [name])) = name.
Proof.
  intros [Ht [Hn _]%Forall_cons]%Forall_app.
  destruct trail as [|e ns]; [by apply Base_name|].
  assert (dirOf ((e :: ns) ++ [name]) = JoinStrings ((e :: ns) ++ [name]) [FilePath.sep])
    as -> by done.
  rewrite JoinStrings_snoc by done. by apply Base_snoc.
Qed.

Lemma cleanElems_dot rooted ns ups kept :
  FilePath.cleanElems rooted (FilePath.dot :: ns) ups kept
  = FilePath.cleanElems rooted ns ups kept.
Proof.
  cbn [FilePath.cleanElems].
  rewrite (bool_decide_eq_true_2 (FilePath.dot = FilePath.dot)) by done.
  by rewrite orb_true_r.
Qed.

Lemma Clean_dot_slash name :
  validName name -> FilePath.Clean (str "." ++ FilePath.sep :: name) = name.
Proof.
  intros Hn. pose proof Hn as (Hne & Hs & Hd & Hdd). unfold FilePath.Clean.
  rewrite splitOn_app_nosep by by_compute. rewrite splitOn_nosep by done.
  change (str "." ++ FilePath.sep :: name) with ("."%char :: FilePath.sep :: name).
  change (Ascii.eqb "." FilePath.sep) with false. cbv iota.
  rewrite (cleanElems_dot false [name]).
  rewrite cleanElems_valid by (constructor; [exact Hn|constructor]). simpl.
  by destruct name.
Qed.

Lemma Join_dirOf trail name :
  Forall validName (trail ++ [name]) ->
  FilePath.Join (dirOf trail) name = dirOf (trail ++ [name]).
Proof.
  intros Hv. pose proof Hv as [Ht [Hn _]%Forall_cons]%Forall_app.
  destruct trail as [|e ns].
  - change (dirOf ([] ++ [name])) with name.
    change (FilePath.Join (dirOf []) name)
      with (FilePath.Clean (str "." ++ FilePath.sep :: name)).
    by apply Clean_dot_slash.
  - assert (dirOf ((e :: ns) ++ [name]) = JoinStrings ((e :: ns) ++ [name]) [FilePath.sep])
      as -> by done.
    rewrite <- (Clean_JoinStrings ((e :: ns) ++ [name])) by done.
    rewrite JoinStrings_snoc by done.
    unfold FilePath.Join, dirOf.
    destruct (JoinStrings_nonempty (e :: ns)) as (c & s & -> & _); done.
Qed.

End PathsMore.

Section ScanNodes.

Implicit Types trail tr : list gostring.
Implicit Types W : list gostring.

Lemma nodeOk_mono W W' p : W ⊆ W' -> nodeOk W p -> nodeOk W' p.
Proof.
  intros HW. destruct p as [tr n]. intros [HA HB]. split; [done|].
  intros Hv. destruct (HB Hv) as [Hp Hin]. split; [done|].
  intros Hd. apply HW. by apply Hin.
Qed.

Lemma nodesOk_mono trail W W' cs : W ⊆ W' -> nodesOk trail W cs -> nodesOk trail W' cs.
Proof.
  intros HW H. unfold nodesOk. eapply Forall_impl; [exact H|].
  intros p [? ?]. split; [done|]. by eapply nodeOk_mono.
Qed.

Lemma nodesOk_nil trail W : nodesOk trail W [].
Proof. constructor. Qed.

Lemma nodesOk_app trail W cs1 cs2 :
  nodesOk trail W cs1 -> nodesOk trail W cs2 -> nodesOk trail W (cs1 ++ cs2).
Proof.
  unfold nodesOk. rewrite flat_map_app. intros ??. by apply Forall_app.
Qed.

Lemma watchVisit_dirOf trail name :
  Forall validName (trail ++ [name]) ->
  isHidden name = false -> isSkippedDir name = false ->
  watchVisit (dirOf (trail ++ [name])) true false = WalkAdd.
Proof.
  intros Hv Hh Hs. unfold watchVisit. by rewrite Base_dirOf, Hh, Hs.
Qed.

Lemma visitEntry_nodes depth trail dir e st st' :
  scanNodesAt depth ->
  (Forall validName trail -> dir = dirOf trail) ->
  visitEntry (scanDirectory depth) dir st e = Some st' ->
  exists cs,
    parentChildren st' = parentChildren st ++ cs /\
    nodesOk trail (walk depth (FilePath.Join dir (entryName e)) e) cs.
Proof.
  intros IH Hdir.
  assert (Hsame : exists cs,
    parentChildren st = parentChildren st ++ cs /\
    nodesOk trail (walk depth (FilePath.Join dir (entryName e)) e) cs).
  { exists []. rewrite app_nil_r. split; [done|apply nodesOk_nil]. }
  unfold visitEntry.
  destruct (isHidden (entryName e)) eqn:Hh; [by intros [= <-]|].
  destruct (entryIsDir e && isSkippedDir (entryName e)) eqn:Hs; [by intros [= <-]|].
  destruct e as [name|name sub]; simpl in *.
  - destruct (isMarkdown name) eqn:Hmd; [|by intros [= <-]].
    intros [= <-]. simpl. eexists [_]. split; [done|].
    constructor; [|constructor]. split; [by exists [name]|]. simpl.
    split.
    + split_and!; [done|done|done|]. by rewrite last_snoc.
    + intros Hv. split; [|done].
      pose proof Hv as [Ht _]%Forall_app. rewrite (Hdir Ht).
      by apply childPath_dirOf.
  - destruct (scanDirectory depth (childPath dir name) sub
                (mkScanState [] (mdFiles st))) as [r|] eqn:Hscan; [|done].
    simpl. destruct r as [st1|st1]; [by intros [= <-]|].
    assert (Hdir' : Forall validName (trail ++ [name]) ->
                    childPath dir name = dirOf (trail ++ [name])).
    { intros Hv. pose proof Hv as [Ht _]%Forall_app. rewrite (Hdir Ht).
      by apply childPath_dirOf. }
    destruct (IH (trail ++ [name]) _ _ _ _ Hscan Hdir')
      as (entries & cs1 & -> & Hcs & Hok).
    simpl in Hcs. rewrite Hcs.
    destruct (0 <? length cs1); [|by intros [= <-]].
    intros [= <-]. simpl. eexists [_]. split; [done|].
    destruct depth as [|d]; [done|].
    assert (Hwalk : Forall validName (trail ++ [name]) ->
              walk (S d) (FilePath.Join dir name) (Directory name (Some entries))
              = childPath dir name :: walkBelow d (childPath dir name) entries).
    { intros Hv. pose proof Hv as [Ht _]%Forall_app.
      rewrite (Hdir' Hv), (Hdir Ht), Join_dirOf by done.
      cbn [walk]. rewrite watchVisit_dirOf by done. done. }
    unfold nodesOk. cbn [flat_map nodesUnder]. rewrite app_nil_r.
    constructor.
    + split; [by exists [name]|]. simpl. split.
      * split_and!; [done|done|done|]. by rewrite last_snoc.
      * intros Hv. split; [by apply Hdir'|]. intros _.
        assert (Hgoal : childPath dir name
                  ∈ walk (S d) (FilePath.Join dir name) (Directory name (Some entries)))
          by (rewrite (Hwalk Hv); left).
        exact Hgoal.
    + eapply Forall_impl; [exact Hok|]. intros [tr n] [Hpre Hn]. simpl in Hpre.
      split; [simpl; etrans; [by exists [name]|done]|].
      destruct Hn as [HA HB]. split; [done|]. intros Hv.
      destruct (HB Hv) as [Hp Hin]. split; [done|]. intros Hd.
      assert (Hv' : Forall validName (trail ++ [name])).
      { destruct Hpre as [k ->]. by apply Forall_app in Hv as [? _]. }
      assert (Hgoal : Path n
                ∈ walk (S d) (FilePath.Join dir name) (Directory name (Some entries)))
        by (rewrite (Hwalk Hv'); right; by apply Hin).
      exact Hgoal.
Qed.

Lemma visitAll_nodes depth trail dir es st st' :
  scanNodesAt depth ->
  (Forall validName trail -> dir = dirOf trail) ->
  visitAll (scanDirectory depth) dir es st = Some st' ->
  exists cs,
    parentChildren st' = parentChildren st ++ cs /\
    nodesOk trail
      (flat_map (fun c => walk depth (FilePath.Join dir (entryName c)) c) es) cs.
Proof.
  intros IH Hdir. revert st.
  induction es as [|e es IHes]; intros st.
  - intros [= <-]. exists []. rewrite app_nil_r. split; [done|apply nodesOk_nil].
  - rewrite visitAll_cons.
    destruct (visitEntry (scanDirectory depth) dir st e) as [st1|] eqn:Hv; [|done].
    simpl. intros (cs2 & -> & Hok2)%IHes.
    apply (visitEntry_nodes depth trail) in Hv as (cs1 & -> & Hok1); [|done..].
    exists (cs1 ++ cs2). rewrite <- app_assoc. split; [done|].
    cbn [flat_map]. apply nodesOk_app.
    + eapply nodesOk_mono; [|exact Hok1]. intros x Hx. apply elem_of_app. by left.
    + eapply nodesOk_mono; [|exact Hok2]. intros x Hx. apply elem_of_app. by right.
Qed.

Lemma elem_of_sortNames entries e : e ∈ sortNames entries <-> e ∈ entries.
Proof. unfold sortNames. by rewrite merge_sort_Permutation. Qed.

Lemma scanDirectory_nodes depth : scanNodesAt depth.
Proof.
  induction depth as [|depth IH]; intros trail dir listing st st' Hscan Hdir;
    [done|].
  simpl in Hscan. destruct listing as [entries|]; [|done].
  destruct (visitAll _ _ _ _) as [st1|] eqn:Hv; [|done].
  injection Hscan as <-.
  apply (visitAll_nodes depth trail) in Hv as (cs & -> & Hok); [|done..].
  exists entries, cs. split_and!; [done|done|].
  eapply nodesOk_mono; [|exact Hok]. simpl. unfold walkBelow.
  intros x Hx. apply list_elem_of_In, in_flat_map in Hx as (c & Hc & Hx).
  apply list_elem_of_In, in_flat_map. exists c. split; [|done].
  apply list_elem_of_In. apply (proj2 (elem_of_sortNames entries c)).
  apply (proj1 (elem_of_sortEntries entries c)). by apply list_elem_of_In.
Qed.

Lemma watchedDirs_root entries :
  watchedDirs (Some entries)
  = str "." :: walkBelow (pred (listingDepth (Some entries))) (str ".") entries.
Proof. done. Qed.

Lemma rescanDirectory_nodes root st :
  rescanDirectory root = Some (ScanOk st) ->
  nodesOk [] (watchedDirs root) (parentChildren st).
Proof.
  intros Hscan.
  destruct (scanDirectory_nodes _ [] _ _ _ _ Hscan) as (entries & cs & -> & -> & Hok);
    [done|].
  simpl. eapply nodesOk_mono; [|exact Hok].
  rewrite watchedDirs_root. intros x Hx. by right.
Qed.

End ScanNodes.

Section Triggers.

Lemma HasSuffix_app (a b suf : gostring) :
  HasSuffix b suf = true -> HasSuffix (a ++ b) suf = true.
Proof.
  unfold HasSuffix. intros [Hl Hd]%andb_true_iff.
  apply Nat.leb_le in Hl. apply bool_decide_eq_true_1 in Hd.
  apply andb_true_iff. split.
  - apply Nat.leb_le. rewrite length_app. lia.
  - apply bool_decide_eq_true_2. rewrite length_app.
    replace (length a + length b - length suf)
      with (length a + (length b - length suf)) by lia.
    by rewrite drop_app_add.
Qed.

Lemma isMarkdown_path (tr : list gostring) (name : gostring) :
  last tr = Some name -> isMarkdown name = true ->
  isMarkdown (JoinStrings tr [FilePath.sep]) = true.
Proof.
  intros Hl Hmd. apply last_Some in Hl as [ns ->].
  destruct ns as [|e ns]; [done|].
  rewrite JoinStrings_snoc by done. unfold isMarkdown, ToLower.
  rewrite app_assoc, map_app. by apply HasSuffix_app.
Qed.

End Triggers.

(** X8.  The path of every node of the scanned tree is the list of the
    names from the root down to the node, joined by [/], the last name
    being the one of the node (for names as a file system gives them). *)
Theorem tree_paths_are_joined_names root st :
  rescanDirectory root = Some (ScanOk st) ->
  Forall (fun p => last p.1 = Some (Name p.2) /\
                   (Forall validName p.1 ->
                    Path p.2 = JoinStrings p.1 [FilePath.sep]))
    (flat_map (nodesUnder []) (parentChildren st)).
Proof.
  intros Hok%rescanDirectory_nodes. eapply Forall_impl; [exact Hok|].
  intros [tr n] [_ [(_ & _ & _ & Hl) HB]]. simpl. split; [done|].
  intros Hv. destruct (HB Hv) as [-> _]. by destruct tr.
Qed.

Lemma tree_paths_are_joined_names_witness :
  Forall (fun p => last p.1 = Some (Name p.2) /\
                   (Forall validName p.1 ->
                    Path p.2 = JoinStrings p.1 [FilePath.sep]))
    (flat_map (nodesUnder []) (parentChildren sampleScan)).
Proof.
  apply (tree_paths_are_joined_names (Some sampleVault) sampleScan).
  vm_compute. reflexivity.
Defined.

(** X9.  The scanned tree never holds a hidden entry or a skipped
    directory, and every file in it is a markdown file. *)
Theorem tree_nodes_are_eligible root st :
  rescanDirectory root = Some (ScanOk st) ->
  Forall (fun p => isHidden (Name p.2) = false /\
                   (IsDir p.2 = true -> isSkippedDir (Name p.2) = false) /\
                   (IsDir p.2 = false -> isMarkdown (Name p.2) = true))
    (flat_map (nodesUnder []) (parentChildren st)).
Proof.
  intros Hok%rescanDirectory_nodes. eapply Forall_impl; [exact Hok|].
  intros [tr n] [_ [(? & ? & ? & _) _]]. done.
Qed.

Lemma tree_nodes_are_eligible_witness :
  Forall (fun p => isHidden (Name p.2) = false /\
                   (IsDir p.2 = true -> isSkippedDir (Name p.2) = false) /\
                   (IsDir p.2 = false -> isMarkdown (Name p.2) = true))
    (flat_map (nodesUnder []) (parentChildren sampleScan)).
Proof.
  apply (tree_nodes_are_eligible (Some sampleVault) sampleScan).
  vm_compute. reflexivity.
Defined.

(** X11.  An event of any kind whose name is the path of a markdown file
    of the tree starts the debounce timer of a rebuild. *)
Theorem tree_files_trigger_rebuild root st :
  rescanDirectory root = Some (ScanOk st) ->
  Forall (fun p => IsDir p.2 = false -> Forall validName p.1 ->
                   forall created removed renamed,
                     triggersRebuild (Path p.2) created removed renamed = true)
    (flat_map (nodesUnder []) (parentChildren st)).
Proof.
  intros Hok%rescanDirectory_nodes. eapply Forall_impl; [exact Hok|].
  intros [tr n] [_ [(_ & _ & Hmd & Hl) HB]] Hd Hv created removed renamed.
  simpl in *. destruct (HB Hv) as [-> _]. unfold triggersRebuild.
  assert (dirOf tr = JoinStrings tr [FilePath.sep]) as -> by (by destruct tr).
  fold (isMarkdown (JoinStrings tr [FilePath.sep])).
  by rewrite (isMarkdown_path tr (Name n)) by auto.
Qed.

Lemma tree_files_trigger_rebuild_witness :
  Forall (fun p => IsDir p.2 = false -> Forall validName p.1 ->
                   forall created removed renamed,
                     triggersRebuild (Path p.2) created removed renamed = true)
    (flat_map (nodesUnder []) (parentChildren sampleScan)).
Proof.
  apply (tree_files_trigger_rebuild (Some sampleVault) sampleScan).
  vm_compute. reflexivity.
Defined.

(** * Further properties of the build *)

(** X12.  The list of markdown files is the list of the paths of the file
    nodes of the tree, in the order of the tree, and the documents that
    [generateHTML] renders are those of exactly these paths. *)
Theorem tree_files_have_documents
    (readFile convert : gostring -> result gostring) root st :
  rescanDirectory root = Some (ScanOk st) ->
  mdFiles st = flat_map nodeFiles (parentChildren st) /\
  dom (renderAll readFile convert (mdFiles st) ∅)
  = list_to_set (flat_map nodeFiles (parentChildren st)).
Proof.
  intros Hscan. rewrite renderAll_dom.
  by rewrite (rescanDirectory_files root st Hscan).
Qed.

Lemma tree_files_have_documents_witness :
  let readFile := fun _ : gostring => Ok (str "# Title") in
  let convert := fun _ : gostring => Ok (str "<h1>Title</h1>") in
  mdFiles sampleScan = flat_map nodeFiles (parentChildren sampleScan) /\
  dom (renderAll readFile convert (mdFiles sampleScan) ∅)
  = list_to_set (flat_map nodeFiles (parentChildren sampleScan)).
Proof.
  apply (tree_files_have_documents _ _ (Some sampleVault) sampleScan).
  vm_compute. reflexivity.
Defined.

(** X13.  A rendered document without image tags and without diagram
    blocks leaves the post-processing as the renderer wrote it. *)
Theorem plain_document_unchanged
    (readFile convert : gostring -> result gostring) (filePath content buf : gostring) :
  readFile filePath = Ok content -> convert content = Ok buf ->
  Index buf imgOpen = None ->
  Index buf mermaidLong = None -> Index buf mermaidShort = None ->
  renderMarkdownFile readFile convert filePath = Ok buf.
Proof.
  intros Hr Hc Hi Hl Hs. unfold renderMarkdownFile. rewrite Hr, Hc. f_equal.
  assert (fixImagePaths buf filePath = buf) as ->.
  { unfold fixImagePaths, fixImagePathsWithin.
    rewrite fixImageLoop_done by (done || unfold maxIterations; lia). done. }
  by rewrite processMermaidBlocks_step, mermaidStep_unfold, Hl, Hs.
Qed.

Lemma plain_document_unchanged_witness :
  renderMarkdownFile (fun _ => Ok (str "# Title")) (fun _ => Ok (str "<h1>Title</h1>"))
    (str "a.md")
  = Ok (str "<h1>Title</h1>").
Proof.
  apply (plain_document_unchanged _ _ (str "a.md") (str "# Title") (str "<h1>Title</h1>"));
    reflexivity.
Defined.

(** ** The lock, once more *)

Section Progress.

Variable root : option (list entry).
Variable crit tail : list event.
Variable withGenerate : bool.

Local Abbreviation unlockAt := (S (length crit)).
Local Abbreviation post := (generateSteps withGenerate tail).

Hypothesis prog_eq : buildEvents root = EvLock :: crit ++ [EvUnlock] ++ post.
Hypothesis crit_mut : Forall (fun e => isMutation e = true) crit.
Hypothesis tail_plain :
  Forall (fun e => e = EvReadFiles \/ exists p, e = EvRender p) tail.

Lemma length_buildEvents :
  length (buildEvents root)
  = if withGenerate then unlockAt + 4 + length tail else unlockAt + 1.
Proof.
  rewrite prog_eq. unfold generateSteps. destruct withGenerate; simpl;
    rewrite ?length_app; simpl; rewrite ?length_app; simpl; lia.
Qed.

Lemma lockInv_step s s' : lockInv root crit s -> step s s' -> lockInv root crit s'.
Proof.
  intros (k & r & Hkl & Hrl & Hb & Hr & Hw & Hn & Hex) Hstep.
  inversion Hstep as [m e es rd ts fs Hen|m b e es ts fs Hen]; subst; simpl in *.
  - symmetry in Hb. apply drop_cons_lookup in Hb as [Hk ->].
    pose proof (lookup_lt_Some _ _ _ Hk) as Hlt.
    exists (S k), r. cbn [memory builder reader].
    destruct (prog_lookup root crit tail withGenerate prog_eq crit_mut tail_plain _ _ Hk)
      as [[-> ->]|[[? He]|[[-> ->]|[[-> ->]|[[-> ->]|[[-> ->]|[? He]]]]]]].
    + apply andb_true_iff in Hen as [_ Hen]. apply Nat.eqb_eq in Hen.
      split_and!; lock_crush.
    + destruct e; try done; split_and!; lock_crush.
    + split_and!; lock_crush.
    + split_and!; lock_crush.
    + split_and!; lock_crush.
    + split_and!; lock_crush.
    + destruct He as [->|[p ->]]; split_and!; lock_crush.
  - symmetry in Hr. apply drop_cons_lookup in Hr as [Hk ->].
    exists k, (S r). cbn [memory builder reader].
    destruct r as [|[|[|r]]]; simpl in Hk; try done; injection Hk as <-.
    + split_and!; lock_crush.
    + split_and!; lock_crush.
    + split_and!; lock_crush.
Qed.

Lemma lockInv_initial t0 f0 : lockInv root crit (initialSystem t0 f0 root).
Proof.
  exists 0, 0. unfold builderReads, readerReads. simpl.
  split_and!; [lia|lia|done|done|done| |lia].
  repeat case_bool_decide; lia.
Qed.

Lemma lockInv_reachable t0 f0 s :
  rtc step (initialSystem t0 f0 root) s -> lockInv root crit s.
Proof.
  intros H.
  apply (rtc_ind_r (R := step) (fun s => lockInv root crit s) (initialSystem t0 f0 root));
    [apply lockInv_initial| |done].
  intros ? ? _ Hstep Hinv. by eapply lockInv_step.
Qed.

Lemma lockInv_progress s : lockInv root crit s -> finished s \/ exists s', step s s'.
Proof.
  intros (k & r & Hkl & Hrl & Hb & Hr & Hw & Hn & Hex).
  destruct s as [m b rd ts fs]. simpl in *.
  pose proof length_buildEvents as Hlen.
  assert (Hreader : r < 3 -> (r = 0 -> writer m = false) -> exists s', step (mkSystem m b rd ts fs) s').
  { intros Hr3 Hfree. destruct r as [|[|[|r]]]; [| | |lia]; simpl in Hr; subst rd.
    - eexists. apply step_reader. simpl. by rewrite Hfree.
    - eexists. by apply step_reader.
    - eexists. by apply step_reader. }
  destruct (decide (k < length (buildEvents root))) as [Hk|Hk].
  - destruct (lookup_lt_is_Some_2 _ _ Hk) as [e He].
    rewrite (drop_S _ _ _ He) in Hb. subst b.
    assert (Hgo : enabled e m = true -> exists s', step (mkSystem m (e :: drop (S k) (buildEvents root)) rd ts fs) s').
    { intros Hen. eexists. by apply step_builder. }
    destruct (prog_lookup root crit tail withGenerate prog_eq crit_mut tail_plain _ _ He)
      as [[-> ->]|[[? Hm]|[[-> ->]|[[-> ->]|[[-> ->]|[[-> ->]|[? Hm]]]]]]].
    + destruct (decide (1 <= r <= 2)) as [Hr12|Hr12].
      * right. apply Hreader; lia.
      * right. apply Hgo. simpl. rewrite Hw, Hn. unfold builderReads, readerReads.
        repeat case_bool_decide; simpl; try lia; done.
    + right. apply Hgo. by destruct e.
    + right. by apply Hgo.
    + right. apply Hgo. simpl. rewrite Hw. case_bool_decide; [lia|done].
    + right. by apply Hgo.
    + right. by apply Hgo.
    + right. apply Hgo. by destruct Hm as [->|[p ->]].
  - assert (k = length (buildEvents root)) as Hkeq by lia.
    assert (Hwf : writer m = false).
    { rewrite Hw. case_bool_decide; [|done]. destruct withGenerate; lia. }
    destruct (decide (r < 3)) as [Hr3|Hr3]; [right; by apply Hreader|].
    left. simpl in Hrl. assert (r = 3) as -> by lia.
    rewrite Hkeq, drop_all in Hb. simpl in Hr.
    unfold finished. simpl. split_and!; [done|done|done|].
    rewrite Hn. unfold builderReads, readerReads.
    repeat case_bool_decide; simpl; try lia; destruct withGenerate; lia.
Qed.

End Progress.

(** X14.  A build that runs next to a reader never gets stuck: in every
    state that they reach, either both are done and the lock is free, or
    one of them can take a step; and every step uses up one step of a
    program, so that every run ends. *)
Theorem build_never_deadlocks root t0 f0 s :
  rtc step (initialSystem t0 f0 root) s ->
  (finished s \/ exists s', step s s') /\
  (forall s', step s s' ->
     length (builder s') + length (reader s')
     < length (builder s) + length (reader s)).
Proof.
  intros Hrun. split.
  - destruct (buildEvents_shape root) as (crit & tail & Hshape & Hcrit & Htail & _).
    destruct Hshape as [Hs|Hs].
    + apply (lockInv_progress root crit tail false); [by rewrite Hs|done|done|].
      apply (lockInv_reachable root crit tail false) with t0 f0; [by rewrite Hs|done..].
    + apply (lockInv_progress root crit tail true); [by rewrite Hs|done|done|].
      apply (lockInv_reachable root crit tail true) with t0 f0; [by rewrite Hs|done..].
  - intros s' Hstep. inversion Hstep; subst; simpl; lia.
Qed.

Lemma build_never_deadlocks_witness :
  let s := initialSystem None [] (Some sampleVault) in
  (finished s \/ exists s', step s s') /\
  (forall s', step s s' ->
     length (builder s') + length (reader s')
     < length (builder s) + length (reader s)).
Proof.
  apply (build_never_deadlocks (Some sampleVault) None []).
  apply rtc_refl.
Defined.

(** * The files that the scanner finds *)

Section ScanFiles.

Implicit Types dir p : gostring.
Implicit Types e : entry.

Lemma reaches_ext dir (l l' : list entry) p :
  (forall e, e ∈ l -> e ∈ l') -> reaches dir l p -> reaches dir l' p.
Proof.
  intros Hsub H. destruct H as [dir entries name Hin Hh Hmd|dir entries name sub p Hin Hh Hs Hr].
  - apply reaches_file; auto.
  - eapply reaches_dir; eauto.
Qed.

Lemma reaches_cons dir e es p :
  reaches dir (e :: es) p <-> reaches dir [e] p \/ reaches dir es p.
Proof.
  split.
  - intros H. inversion H as [d l name Hin Hh Hmd|d l name sub q Hin Hh Hs Hr]; subst.
    + apply elem_of_cons in Hin as [<-|Hin].
      * left. apply reaches_file; [left|done|done].
      * right. by apply reaches_file.
    + apply elem_of_cons in Hin as [<-|Hin].
      * left. eapply reaches_dir; [left|done|done|done].
      * right. by eapply reaches_dir.
  - intros [H|H]; eapply reaches_ext; try exact H.
    + intros x ->%list_elem_of_singleton. left.
    + intros x Hx. by right.
Qed.

Lemma reaches_nil dir p : ~ reaches dir [] p.
Proof. intros H. inversion H as [? ? ? Hin|? ? ? ? ? Hin]; by apply elem_of_nil in Hin. Qed.

Lemma reaches_single_file dir name p :
  reaches dir [File name] p <->
  isHidden name = false /\ isMarkdown name = true /\ p = childPath dir name.
Proof.
  split.
  - intros H. inversion H as [d l n Hin Hh Hmd|d l n sub q Hin]; subst;
      apply list_elem_of_singleton in Hin; [|done].
    injection Hin as Hn. by subst.
  - intros (Hh & Hmd & ->). apply reaches_file; [left|done|done].
Qed.

Lemma reaches_single_dir dir name listing p :
  reaches dir [Directory name listing] p <->
  isHidden name = false /\ isSkippedDir name = false /\
  exists sub, listing = Some sub /\ reaches (childPath dir name) sub p.
Proof.
  split.
  - intros H. inversion H as [d l n Hin|d l n sub q Hin Hh Hs Hr]; subst;
      apply list_elem_of_singleton in Hin; [done|].
    injection Hin as Hn Hl. subst. eauto.
  - intros (Hh & Hs & sub & -> & Hr). eapply reaches_dir; [left|done..].
Qed.

Lemma visitEntry_files depth dir e st st' :
  scanFilesAt depth ->
  visitEntry (scanDirectory depth) dir st e = Some st' ->
  exists new,
    mdFiles st' = mdFiles st ++ new /\
    forall p, p ∈ new <-> reaches dir [e] p.
Proof.
  intros IH.
  assert (Hnone : (forall p, ~ reaches dir [e] p) -> exists new,
    mdFiles st = mdFiles st ++ new /\ forall p, p ∈ new <-> reaches dir [e] p).
  { intros Hno. exists []. rewrite app_nil_r. split; [done|].
    intros p. split; [by intros ?%elem_of_nil|]. intros H. by apply Hno in H. }
  unfold visitEntry. destruct e as [name|name sub]; simpl.
  - destruct (isHidden name) eqn:Hh; simpl.
    { intros [= <-]. apply Hnone. intros p (? & _)%reaches_single_file. congruence. }
    destruct (isMarkdown name) eqn:Hmd.
    + intros [= <-]. simpl. exists [childPath dir name]. split; [done|].
      intros p. rewrite reaches_single_file, list_elem_of_singleton. naive_solver.
    + intros [= <-]. apply Hnone. intros p (_ & ? & _)%reaches_single_file. congruence.
  - destruct (isHidden name) eqn:Hh; simpl.
    { intros [= <-]. apply Hnone. intros p (? & _)%reaches_single_dir. congruence. }
    destruct (isSkippedDir name) eqn:Hs; simpl.
    { intros [= <-]. apply Hnone. intros p (_ & ? & _)%reaches_single_dir. congruence. }
    destruct (scanDirectory depth (childPath dir name) sub
                (mkScanState [] (mdFiles st))) as [r|] eqn:Hscan; [|done].
    simpl. destruct r as [st1|st1].
    + apply scanDirectory_spec in Hscan as [_ ->]. intros [= <-].
      apply Hnone. intros p (_ & _ & sub & ? & _)%reaches_single_dir. done.
    + destruct (IH _ _ _ _ Hscan) as (entries & new & -> & Hfiles & Hnew).
      simpl in Hfiles.
      assert (Hres : exists new0, mdFiles st1 = mdFiles st ++ new0 /\
                forall p, p ∈ new0 <-> reaches dir [Directory name (Some entries)] p).
      { exists new. split; [done|]. intros p. rewrite reaches_single_dir, Hnew.
        naive_solver. }
      destruct (0 <? length (parentChildren st1)); by intros [= <-].
Qed.

Lemma visitAll_files depth dir es st st' :
  scanFilesAt depth ->
  visitAll (scanDirectory depth) dir es st = Some st' ->
  exists new,
    mdFiles st' = mdFiles st ++ new /\
    forall p, p ∈ new <-> reaches dir es p.
Proof.
  intros IH. revert st. induction es as [|e es IHes]; intros st.
  - intros [= <-]. exists []. rewrite app_nil_r. split; [done|].
    intros p. split; [by intros ?%elem_of_nil|]. intros H. by apply reaches_nil in H.
  - rewrite visitAll_cons.
    destruct (visitEntry (scanDirectory depth) dir st e) as [st1|] eqn:Hv; [|done].
    simpl. intros (new2 & -> & Hnew2)%IHes.
    apply visitEntry_files in Hv as (new1 & -> & Hnew1); [|done].
    exists (new1 ++ new2). rewrite <- app_assoc. split; [done|].
    intros p. rewrite elem_of_app, reaches_cons, Hnew1, Hnew2. done.
Qed.

Lemma scanDirectory_files depth : scanFilesAt depth.
Proof.
  induction depth as [|depth IH]; intros dir listing st st' Hscan; [done|].
  simpl in Hscan. destruct listing as [entries|]; [|done].
  destruct (visitAll _ _ _ _) as [st1|] eqn:Hv; [|done].
  injection Hscan as <-.
  apply visitAll_files in Hv as (new & -> & Hnew); [|done].
  exists entries, new. split_and!; [done|done|].
  intros p. rewrite Hnew. split; apply reaches_ext; intros e He.
  - by apply (proj1 (elem_of_sortEntries entries e)).
  - by apply (proj2 (elem_of_sortEntries entries e)).
Qed.

Lemma ltString_irrefl (a : gostring) : ltString a a = false.
Proof.
  induction a as [|x a IH]; [done|]. simpl.
  by rewrite Nat.ltb_irrefl.
Qed.

Lemma ltString_trans (a b c : gostring) :
  ltString a b = true -> ltString b c = true -> ltString a c = true.
Proof.
  revert b c. induction a as [|x a IH]; intros [|y b] [|z c]; simpl; try done.
  destruct (Nat.ltb_spec (nat_of_ascii x) (nat_of_ascii y)),
           (Nat.ltb_spec (nat_of_ascii y) (nat_of_ascii z)),
           (Nat.ltb_spec (nat_of_ascii x) (nat_of_ascii z)); try done; try lia.
  - destruct (Nat.ltb_spec (nat_of_ascii z) (nat_of_ascii y)); [done|lia].
  - destruct (Nat.ltb_spec (nat_of_ascii y) (nat_of_ascii x)); [done|lia].
  - destruct (Nat.ltb_spec (nat_of_ascii y) (nat_of_ascii x)); [done|].
    destruct (Nat.ltb_spec (nat_of_ascii z) (nat_of_ascii y)); [done|].
    destruct (Nat.ltb_spec (nat_of_ascii z) (nat_of_ascii x)); [lia|].
    apply IH.
Qed.

End ScanFiles.

(** X15.  The scan finds the eligible markdown files and nothing else:
    a path is in [mdFiles] exactly when it is the path of a file that is
    not hidden and ends in [.md], in the root or in a directory reached
    through directories that are not hidden, not skipped and can be
    read. *)
Theorem scan_finds_the_eligible_files entries st :
  rescanDirectory (Some entries) = Some (ScanOk st) ->
  Forall (reaches (str ".") entries) (mdFiles st) /\
  (forall p, reaches (str ".") entries p -> p ∈ mdFiles st).
Proof.
  intros Hscan.
  destruct (scanDirectory_files _ _ _ _ _ Hscan) as (es & new & [= <-] & -> & Hnew).
  simpl. split.
  - apply Forall_forall. intros p Hp. by apply Hnew.
  - intros p Hp. by apply Hnew.
Qed.

Lemma scan_finds_the_eligible_files_witness :
  Forall (reaches (str ".") sampleVault) (mdFiles sampleScan) /\
  (forall p, reaches (str ".") sampleVault p -> p ∈ mdFiles sampleScan).
Proof.
  apply (scan_finds_the_eligible_files sampleVault sampleScan).
  vm_compute. reflexivity.
Defined.

(** X16.  The function that [scanDirectory] gives to [sort.Slice] is a
    strict weak order, as sorting needs it: no entry is less than itself,
    no two entries are less than each other, and being less and being not
    less are both transitive. *)
Theorem entryLess_strict_weak_order :
  (forall a, entryLess a a = false) /\
  (forall a b, entryLess a b = true -> entryLess b a = false) /\
  (forall a b c, entryLess a b = true -> entryLess b c = true -> entryLess a c = true) /\
  (forall a b c, entryLess a b = false -> entryLess b c = false -> entryLess a c = false).
Proof.
  split_and!.
  - intros a. unfold entryLess. rewrite Bool.eqb_reflx. simpl. apply ltString_irrefl.
  - intros a b. unfold entryLess.
    destruct (entryIsDir a), (entryIsDir b); simpl; try done; apply ltString_asym.
  - intros a b c. unfold entryLess.
    destruct (entryIsDir a), (entryIsDir b), (entryIsDir c); simpl; try done;
      apply ltString_trans.
  - intros a b c Hab Hbc. apply (entryLe_trans c b a); done.
Qed.

(** * No file is listed twice *)

Section ScanDistinct.

Implicit Types trail rest : list gostring.
Implicit Types e : entry.

Lemma dirOf_inj (a b : list gostring) :
  a <> [] -> b <> [] -> Forall validName a -> Forall validName b ->
  dirOf a = dirOf b -> a = b.
Proof.
  intros Ha Hb Hva Hvb H.
  assert (E : JoinStrings a [FilePath.sep] = JoinStrings b [FilePath.sep])
    by (by destruct a, b).
  by rewrite <- (splitOn_JoinStrings a), E, splitOn_JoinStrings.
Qed.

Lemma wellNamed_valid e : wellNamed e = true -> validName (entryName e).
Proof.
  destruct e; simpl; intros [H _]%andb_true_iff; by apply bool_decide_eq_true_1 in H.
Qed.

Lemma wellNamed_listing name l :
  wellNamed (Directory name (Some l)) = true -> wellNamedListing l = true.
Proof. simpl. by intros [_ H]%andb_true_iff. Qed.

Lemma wellNamedListing_elem entries e :
  wellNamedListing entries = true -> e ∈ entries -> wellNamed e = true.
Proof.
  intros [_ H]%andb_true_iff He. rewrite forallb_forall in H.
  apply H. by apply list_elem_of_In.
Qed.

Lemma visitEntry_distinct depth trail dir e st st' :
  scanDistinctAt depth ->
  Forall validName trail -> dir = dirOf trail -> wellNamed e = true ->
  visitEntry (scanDirectory depth) dir st e = Some st' ->
  exists new, mdFiles st' = mdFiles st ++ new /\ distinctBelow trail e new.
Proof.
  intros IH Ht -> He.
  assert (Hnone : exists new,
    mdFiles st = mdFiles st ++ new /\ distinctBelow trail e new).
  { exists []. rewrite app_nil_r. split; [done|]. split; [constructor|].
    by intros p ?%elem_of_nil. }
  assert (Hv : Forall validName (trail ++ [entryName e])).
  { apply Forall_app. split; [done|]. apply Forall_singleton.
    by apply wellNamed_valid. }
  unfold visitEntry.
  destruct (isHidden (entryName e)); [by intros [= <-]|].
  destruct (entryIsDir e && isSkippedDir (entryName e)); [by intros [= <-]|].
  destruct e as [name|name sub]; simpl in *.
  - destruct (isMarkdown name); [|by intros [= <-]].
    intros [= <-]. simpl. eexists [_]. split; [done|]. split.
    + apply NoDup_singleton.
    + intros p ->%list_elem_of_singleton. exists []. split; [|done].
      by apply childPath_dirOf.
  - destruct (scanDirectory depth (childPath (dirOf trail) name) sub
                (mkScanState [] (mdFiles st))) as [r|] eqn:Hscan; [|done].
    simpl. destruct r as [st1|st1]; [by intros [= <-]|].
    pose proof (scanDirectory_spec _ _ _ _ _ Hscan) as Hspec.
    destruct sub as [l|]; [|by destruct depth].
    destruct (IH (trail ++ [name]) _ _ _ _ Hscan Hv) as (new & Hfiles & Hnd & Hnew).
    { by apply childPath_dirOf. }
    { by eapply wellNamed_listing. }
    simpl in Hfiles.
    assert (Hres : exists new0, mdFiles st1 = mdFiles st ++ new0 /\
              distinctBelow trail (Directory name (Some l)) new0).
    { exists new. split; [done|]. split; [done|]. intros p Hp.
      destruct (Hnew p Hp) as (e' & He' & _ & Hp').
      destruct (Hp' p) as (rest & -> & Hrest); [left|].
      exists (entryName e' :: rest). rewrite <- app_assoc. split; [done|].
      constructor; [|done]. apply wellNamed_valid.
      eapply wellNamedListing_elem; [|exact He']. by eapply wellNamed_listing. }
    destruct (0 <? length (parentChildren st1)); by intros [= <-].
Qed.

Lemma visitAll_distinct depth trail dir es st st' :
  scanDistinctAt depth ->
  Forall validName trail -> dir = dirOf trail ->
  wellNamedListing es = true ->
  visitAll (scanDirectory depth) dir es st = Some st' ->
  exists new,
    mdFiles st' = mdFiles st ++ new /\ NoDup new /\
    forall p, p ∈ new -> exists e, e ∈ es /\ distinctBelow trail e [p].
Proof.
  intros IH Ht Hdir. revert st. induction es as [|e es IHes]; intros st Hwn.
  - intros [= <-]. exists []. rewrite app_nil_r.
    split_and!; [done|constructor|by intros p ?%elem_of_nil].
  - rewrite visitAll_cons.
    destruct (visitEntry (scanDirectory depth) dir st e) as [st1|] eqn:Hv; [|done].
    simpl. intros Hall.
    pose proof Hwn as [Hnd [He Hes]%andb_true_iff]%andb_true_iff.
    apply bool_decide_eq_true_1 in Hnd. simpl in Hnd.
    apply NoDup_cons in Hnd as [Hfresh Hnd].
    apply IHes in Hall as (new2 & -> & Hnd2 & Hnew2);
      [|apply andb_true_iff; split; [by apply bool_decide_eq_true_2|done]].
    apply (visitEntry_distinct depth trail) in Hv as (new1 & -> & Hnd1 & Hnew1);
      [|done..].
    exists (new1 ++ new2). rewrite <- app_assoc. split_and!; [done| |].
    + apply NoDup_app. split_and!; [done| |done].
      intros p Hp1 Hp2. destruct (Hnew1 p Hp1) as (r1 & E1 & Hr1).
      destruct (Hnew2 p Hp2) as (e2 & He2 & _ & Hp').
      destruct (Hp' p) as (r2 & E2 & Hr2); [left|].
      rewrite E1 in E2. apply dirOf_inj in E2.
      * apply app_inv_head in E2. injection E2 as E2 _.
        apply Hfresh. rewrite E2. apply list_elem_of_fmap. eauto.
      * by destruct trail.
      * by destruct trail.
      * apply Forall_app. split; [done|]. constructor; [|done].
        by apply wellNamed_valid.
      * apply Forall_app. split; [done|]. constructor; [|done].
        apply wellNamed_valid. apply (proj1 (forallb_forall _ _) Hes).
        by apply list_elem_of_In.
    + intros p [Hp|Hp]%elem_of_app.
      * exists e. split; [left|]. split; [apply NoDup_singleton|].
        intros q ->%list_elem_of_singleton. by apply Hnew1.
      * destruct (Hnew2 p Hp) as (e2 & He2 & Hd). exists e2. split; [by right|done].
Qed.

Lemma wellNamedListing_sort entries :
  wellNamedListing entries = true -> wellNamedListing (sortEntries entries) = true.
Proof.
  intros [Hnd Hall]%andb_true_iff. apply bool_decide_eq_true_1 in Hnd.
  apply andb_true_iff. split.
  - apply bool_decide_eq_true_2. unfold sortEntries.
    by rewrite merge_sort_Permutation.
  - apply forallb_forall. intros e He. rewrite forallb_forall in Hall.
    apply Hall. apply list_elem_of_In. apply (proj1 (elem_of_sortEntries entries e)).
    by apply list_elem_of_In.
Qed.

Lemma scanDirectory_distinct depth : scanDistinctAt depth.
Proof.
  induction depth as [|depth IH];
    intros trail dir entries st st' Hscan Ht Hdir Hwn; [done|].
  simpl in Hscan.
  destruct (visitAll _ _ _ _) as [st1|] eqn:Hv; [|done].
  injection Hscan as <-.
  apply (visitAll_distinct depth trail) in Hv as (new & -> & Hnd & Hnew);
    [|done|done|done|by apply wellNamedListing_sort].
  exists new. split_and!; [done|done|].
  intros p Hp. destruct (Hnew p Hp) as (e & He & Hd). exists e. split; [|done].
  by apply (proj1 (elem_of_sortEntries entries e)).
Qed.

End ScanDistinct.

(** X17.  When the names of every directory are names as a file system
    gives them, no two of them equal, [mdFiles] lists no path twice, and
    the document map of [generateHTML] has as many entries as [mdFiles]
    has paths. *)
Theorem mdFiles_lists_no_file_twice
    (readFile convert : gostring -> result gostring) entries st :
  rescanDirectory (Some entries) = Some (ScanOk st) ->
  wellNamedListing entries = true ->
  NoDup (mdFiles st) /\
  size (renderAll readFile convert (mdFiles st) ∅) = length (mdFiles st).
Proof.
  intros Hscan Hwn.
  destruct (scanDirectory_distinct _ [] _ _ _ _ Hscan) as (new & -> & Hnd & _);
    [done..|].
  simpl. split; [done|].
  rewrite <- size_dom, renderAll_dom. by apply size_list_to_set.
Qed.

Lemma mdFiles_lists_no_file_twice_witness :
  let readFile := fun _ : gostring => Ok (str "# Title") in
  let convert := fun _ : gostring => Ok (str "<h1>Title</h1>") in
  NoDup (mdFiles sampleScan) /\
  size (renderAll readFile convert (mdFiles sampleScan) ∅) = length (mdFiles sampleScan).
Proof.
  apply (mdFiles_lists_no_file_twice _ _ sampleVault sampleScan).
  - vm_compute. reflexivity.
  - vm_compute. reflexivity.
Defined.

(** * The directories under watch *)

Section WalkExact.

Implicit Types trail : list gostring.
Implicit Types e c : entry.







End WalkExact.


